(** * hertz-study: route-group composition and server life cycle

    A shallow embedding of [pkg/route/routergroup.go] and
    [pkg/app/server/hertz.go], with the Go library functions they call
    ([path.Clean], [path.Join], [regexp.MatchString], [append], [copy],
    [make]) embedded next to them.

    Go strings are byte strings: [string] with [ascii] bytes.  Slices are
    descriptors (array, offset, length, capacity) over a heap of backing
    arrays, so that aliasing between a group's handler chain and the chains
    derived from it is visible. *)

From Stdlib Require Import ZArith Ascii String List Bool Lia.
From stdpp Require Import base option list strings.

Local Open Scope stdpp_scope.

(* ===================================================================== *)
(** * Results of code that may panic *)
(* ===================================================================== *)

(** A Go call either returns or panics with a message. *)
Inductive Res (A : Type) : Type :=
  | Ret (a : A)
  | Panic (msg : string).
Arguments Ret {A} a.
Arguments Panic {A} msg.

Definition res_bind {A B} (m : Res A) (k : A -> Res B) : Res B :=
  match m with
  | Ret a => k a
  | Panic msg => Panic msg
  end.

Definition panics {A} (r : Res A) : bool :=
  match r with
  | Ret _ => false
  | Panic _ => true
  end.

(* ===================================================================== *)
(** * Package [path] of the Go library *)
(* ===================================================================== *)

Definition isSlash (c : ascii) : bool := Ascii.eqb c "/"%char.
Definition isDot (c : ascii) : bool := Ascii.eqb c "."%char.

(** [r+k == n || path[r+k] == '/'] on the unread bytes from [r+k] on. *)
Definition atElementEnd (rest : list ascii) : bool :=
  match rest with
  | [] => true
  | c :: _ => isSlash c
  end.

(** [out.w--; for out.w > dotdot && out.index(out.w) != '/' { out.w-- }] on
    the written bytes in reverse order: [c] is the byte at the new [out.w]. *)
Fixpoint backtrackRev (rout : list ascii) (dotdot : nat) : list ascii :=
  match rout with
  | [] => []
  | c :: rout' =>
      if (dotdot <? length rout') && negb (isSlash c)
      then backtrackRev rout' dotdot
      else rout'
  end.

Definition backtrack (out : list ascii) (dotdot : nat) : list ascii :=
  rev (backtrackRev (rev out) dotdot).

(** [if rooted && out.w != 1 || !rooted && out.w != 0 { out.append('/') }] *)
Definition addSlashIfNeeded (rooted : bool) (out : list ascii) : list ascii :=
  if (rooted && negb (length out =? 1)) || (negb rooted && negb (length out =? 0))
  then out ++ ["/"%char]
  else out.

(** The [for r < n] loop of [Clean].  [rest] is [path[r:]], [out] the bytes
    written so far ([out.w] is its length; the lazy buffer of the library
    only avoids allocating while the output is a prefix of the input).  The
    inner [copy] is the loop that copies one path element; it is entered
    with a byte that is not a slash, so its first round always runs. *)
Fixpoint cleanLoop (rooted : bool) (rest out : list ascii) (dotdot : nat)
    {struct rest} : list ascii :=
  match rest with
  | [] => out
  | c :: rest1 =>
      let element :=
        (fix copy (l o : list ascii) {struct l} : list ascii :=
           match l with
           | [] => o
           | c' :: l' =>
               if isSlash c' then cleanLoop rooted l' o dotdot
               else copy l' (o ++ [c'])
           end) rest1 (addSlashIfNeeded rooted out ++ [c]) in
      if isSlash c then
        (* empty path element *)
        cleanLoop rooted rest1 out dotdot
      else if isDot c && atElementEnd rest1 then
        (* . element *)
        cleanLoop rooted rest1 out dotdot
      else
        match rest1 with
        | c1 :: rest2 =>
            if isDot c && isDot c1 && atElementEnd rest2 then
              (* .. element: remove to last / *)
              if dotdot <? length out then
                cleanLoop rooted rest2 (backtrack out dotdot) dotdot
              else if negb rooted then
                let out' :=
                  (if 0 <? length out then out ++ ["/"%char] else out) ++ ["."%char; "."%char] in
                cleanLoop rooted rest2 out' (length out')
              else cleanLoop rooted rest2 out dotdot
            else element
        | [] => element
        end
  end.

(** The inner loop of [cleanLoop] by itself, for the proofs: [cleanLoop]
    on [c :: rest1] in its last case is [copyElement] on [rest1]. *)
Definition copyElement (rooted : bool) (dotdot : nat) : list ascii -> list ascii -> list ascii :=
  fix copy (l o : list ascii) {struct l} : list ascii :=
    match l with
    | [] => o
    | c' :: l' =>
        if isSlash c' then cleanLoop rooted l' o dotdot
        else copy l' (o ++ [c'])
    end.

(** [path.Clean]. *)
Definition Clean (path : string) : string :=
  match list_ascii_of_string path with
  | [] => "."
  | c :: rest =>
      let out :=
        if isSlash c then cleanLoop true rest ["/"%char] 1
        else cleanLoop false (c :: rest) [] 0 in
      if length out =? 0 then "." else string_of_list_ascii out
  end.

(** One round of the loop of [path.Join] that builds [buf]. *)
Definition joinStep (buf e : string) : string :=
  if (0 <? String.length buf) || negb (String.eqb e "") then
    (if 0 <? String.length buf then buf +:+ "/" else buf) +:+ e
  else buf.

(** [path.Join]. *)
Definition Join (elem : list string) : string :=
  let size := foldl (fun n e => n + String.length e) 0 elem in
  if size =? 0 then ""
  else Clean (foldl joinStep "" elem).

(* ===================================================================== *)
(** * Package [strings] and [regexp] of the Go library, as far as used *)
(* ===================================================================== *)

(** [strings.Contains]: [substr] is a prefix of some suffix of [s]. *)
Fixpoint Contains (s substr : string) : bool :=
  String.prefix substr s ||
  match s with
  | EmptyString => false
  | String _ s' => Contains s' substr
  end.

(** The regular expressions [regexp/syntax] parses, restricted to the
    operators of the pattern the router compiles.  A character class is a
    range of bytes: the pattern is ASCII, and a byte above 127 is decoded
    by the library to a rune outside every ASCII range. *)
Inductive Regexp : Type :=
  | NoMatch
  | EmptyMatch
  | BeginText
  | EndText
  | CharClass (lo hi : ascii)
  | Concat (r1 r2 : Regexp)
  | Alternate (r1 r2 : Regexp)
  | Star (r : Regexp)
  | Plus (r : Regexp).

Definition inClass (lo hi c : ascii) : bool :=
  (nat_of_ascii lo <=? nat_of_ascii c) && (nat_of_ascii c <=? nat_of_ascii hi).

(** Whether [r] matches the empty string at a position that is ([atStart])
    the beginning and ([atEnd]) the end of the text. *)
Fixpoint nullable (r : Regexp) (atStart atEnd : bool) : bool :=
  match r with
  | NoMatch => false
  | EmptyMatch => true
  | BeginText => atStart
  | EndText => atEnd
  | CharClass _ _ => false
  | Concat r1 r2 => nullable r1 atStart atEnd && nullable r2 atStart atEnd
  | Alternate r1 r2 => nullable r1 atStart atEnd || nullable r2 atStart atEnd
  | Star _ => true
  | Plus r1 => nullable r1 atStart atEnd
  end.

Definition mkConcat (r1 r2 : Regexp) : Regexp :=
  match r1, r2 with
  | NoMatch, _ => NoMatch
  | _, NoMatch => NoMatch
  | EmptyMatch, _ => r2
  | _, EmptyMatch => r1
  | _, _ => Concat r1 r2
  end.

Definition mkAlternate (r1 r2 : Regexp) : Regexp :=
  match r1, r2 with
  | NoMatch, _ => r2
  | _, NoMatch => r1
  | _, _ => Alternate r1 r2
  end.

(** What is left of [r] to match after the byte [c] read at a position that
    is not the end of the text. *)
Fixpoint deriv (r : Regexp) (atStart : bool) (c : ascii) : Regexp :=
  match r with
  | NoMatch | EmptyMatch | BeginText | EndText => NoMatch
  | CharClass lo hi => if inClass lo hi c then EmptyMatch else NoMatch
  | Concat r1 r2 =>
      mkAlternate (mkConcat (deriv r1 atStart c) r2)
        (if nullable r1 atStart false then deriv r2 atStart c else NoMatch)
  | Alternate r1 r2 => mkAlternate (deriv r1 atStart c) (deriv r2 atStart c)
  | Star r1 => mkConcat (deriv r1 atStart c) (Star r1)
  | Plus r1 => mkConcat (deriv r1 atStart c) (Star r1)
  end.

(** Some prefix of [s] matches [r], [s] being the rest of the text. *)
Fixpoint matchHere (r : Regexp) (atStart : bool) (s : list ascii) : bool :=
  match s with
  | [] => nullable r atStart true
  | c :: s' => nullable r atStart false || matchHere (deriv r atStart c) false s'
  end.

(** The unanchored search of [MatchString]: a match may start anywhere. *)
Fixpoint search (r : Regexp) (atStart : bool) (s : list ascii) : bool :=
  matchHere r atStart s ||
  match s with
  | [] => false
  | _ :: s' => search r false s'
  end.

(** [MatchString] of a compiled [Regexp]. *)
Definition MatchString (re : Regexp) (s : string) : bool :=
  search re true (list_ascii_of_string s).

(* ===================================================================== *)
(** * Programs over a world: state passing with panics *)
(* ===================================================================== *)

(** A call runs in a world, returns or panics, and leaves a world behind
    (a panic keeps the effects made before it). *)
Definition Prog (W A : Type) : Type := W -> Res A * W.

#[global] Instance Prog_ret {W} : MRet (Prog W) := fun A a w => (Ret a, w).
#[global] Instance Prog_bind {W} : MBind (Prog W) := fun A B k m w =>
  match m w with
  | (Ret a, w') => k a w'
  | (Panic msg, w') => (Panic msg, w')
  end.

Definition panic {W A} (msg : string) : Prog W A := fun w => (Panic msg, w).
Definition liftRes {W A} (r : Res A) : Prog W A := fun w => (r, w).
Definition reads {W A} (f : W -> A) : Prog W A := fun w => (Ret (f w), w).

(* ===================================================================== *)
(** * pkg/route/routergroup.go *)
(* ===================================================================== *)

(** [lastChar]. *)
Definition lastChar (str : string) : Res ascii :=
  match rev (list_ascii_of_string str) with
  | [] => Panic "The length of the string can't be 0"
  | c :: _ => Ret c
  end.

(** [joinPaths].  The conjunction short-circuits: the last byte of
    [finalPath] is only asked for when [relativePath] ends in a slash. *)
Definition joinPaths (absolutePath relativePath : string) : Res string :=
  if String.eqb relativePath "" then Ret absolutePath
  else
    let finalPath := Join [absolutePath; relativePath] in
    res_bind (lastChar relativePath) (fun c1 =>
    res_bind (if isSlash c1
              then res_bind (lastChar finalPath) (fun c2 => Ret (negb (isSlash c2)))
              else Ret false) (fun appendSlash =>
    if appendSlash : bool then Ret (finalPath +:+ "/") else Ret finalPath)).

(** [upperLetterReg = regexp.MustCompile("^[A-Z]+$")]. *)
Definition upperLetterReg : Regexp :=
  Concat BeginText (Concat (Plus (CharClass "A" "Z")) EndText).

(** Modelled from the spec: the method tokens of [pkg/protocol/consts],
    which is not among the sources; the doc comments of the shortcuts
    ([GET is a shortcut for router.Handle("GET", path, handle)]) and the
    fixed set the spec lists for [Any] give their values. *)
Definition MethodGet : string := "GET".
Definition MethodPost : string := "POST".
Definition MethodPut : string := "PUT".
Definition MethodPatch : string := "PATCH".
Definition MethodHead : string := "HEAD".
Definition MethodOptions : string := "OPTIONS".
Definition MethodDelete : string := "DELETE".
Definition MethodConnect : string := "CONNECT".
Definition MethodTrace : string := "TRACE".

(** The spec's words for the composed path, to compare [joinPaths] with:
    [base] when [relative] is empty; otherwise the canonical join, with a
    separator appended when [relative] ends in one and the join does not. *)
Definition endsInSeparator (s : string) : bool :=
  match rev (list_ascii_of_string s) with
  | [] => false
  | c :: _ => isSlash c
  end.

Definition composedPath (base relative : string) : string :=
  if String.eqb relative "" then base
  else
    let canonical := Join [base; relative] in
    if endsInSeparator relative && negb (endsInSeparator canonical)
    then canonical +:+ "/"
    else canonical.

(** A path element canonicalisation keeps as it is: not empty, without a
    separator, and neither [.] nor [..]. *)
Definition plainElement (seg : list ascii) : bool :=
  match seg with
  | [] => false
  | _ :: _ =>
      forallb (fun c => negb (isSlash c)) seg &&
      negb (forallb isDot seg && (length seg <=? 2))
  end.

(** The bytes of the path [/s1/s2/.../sk]. *)
Fixpoint rootedPath (segs : list (list ascii)) : list ascii :=
  match segs with
  | [] => []
  | seg :: segs' => "/"%char :: seg ++ rootedPath segs'
  end.

(** The spec's words for a valid method: one or more bytes, each an
    uppercase ASCII letter. *)
Definition isUpperLetter (c : ascii) : bool := inClass "A" "Z" c.

Definition upperLetters (s : string) : bool :=
  match list_ascii_of_string s with
  | [] => false
  | l => forallb isUpperLetter l
  end.

(** The spec's words for a path the static routes reject: it contains a
    parameter marker [:] or a wildcard marker [*]. *)
Definition hasReservedChar (s : string) : bool :=
  existsb (fun c => Ascii.eqb c ":"%char || Ascii.eqb c "*"%char) (list_ascii_of_string s).

(** What the router takes from packages that are not among the sources:
    the handler type of [pkg/app] with its zero value, the sentinel
    [AbortIndex] of [pkg/route/consts] (converted with [int(...)] where it
    is used), the file-system adapter [app.FS] with its
    [NewRequestHandler], the closure [StaticFile] builds around
    [ctx.File(filepath)], and the capacity the runtime picks when [append]
    has to grow a slice (from the old capacity and the needed length). *)
Class RouteEnv : Type := {
  HandlerFunc : Type;
  nilHandler : HandlerFunc;
  AbortIndex : Z;
  growCap : nat -> nat -> nat;
  FS : Type;
  fsWithRoot : string -> FS;
  NewRequestHandler : FS -> HandlerFunc;
  fileHandler : string -> HandlerFunc;
}.

(** A slice descriptor: backing array (an address in the heap), offset in
    it, length and capacity.  The nil slice has length and capacity 0. *)
Record Slice : Type := mkSlice {
  arr : nat;
  off : nat;
  len : nat;
  cap : nat;
}.

Definition nilSlice : Slice := mkSlice 0 0 0 0.

(** [RouterGroup], with the engine pointer as the engine's identity. *)
Record RouterGroup : Type := mkRouterGroup {
  Handlers : Slice;
  basePath : string;
  engine : nat;
  root : bool;
}.

(** One call of [addRoute] as an engine's route table keeps it. *)
Record Route : Type := mkRoute {
  routeEngine : nat;
  routeMethod : string;
  routePath : string;
  routeHandlers : Slice;
}.

(** The interface value [returnObj] hands back: the engine or the group. *)
Inductive IRoutes : Type :=
  | TheEngine (e : nat)
  | TheGroup (g : nat).

Section Route.
Context `{RouteEnv}.

(** The world of the router: backing arrays by address, the groups behind
    [*RouterGroup] pointers by address, and the routes added so far. *)
Record World : Type := mkWorld {
  heap : list (list HandlerFunc);
  groups : list RouterGroup;
  routes : list Route;
}.

Definition withHeap (w : World) (h : list (list HandlerFunc)) : World :=
  mkWorld h (groups w) (routes w).
Definition withGroups (w : World) (gs : list RouterGroup) : World :=
  mkWorld (heap w) gs (routes w).
Definition withRoutes (w : World) (rs : list Route) : World :=
  mkWorld (heap w) (groups w) rs.

(** The elements of a slice, read through the heap. *)
Definition sliceData (h : list (list HandlerFunc)) (s : Slice) : list HandlerFunc :=
  take (len s) (drop (off s) (default [] (h !! arr s))).

Definition readSlice (s : Slice) : Prog World (list HandlerFunc) :=
  reads (fun w => sliceData (heap w) s).

(** Overwrite [a] from position [pos] on with [xs]. *)
Definition writeAt (pos : nat) (xs a : list HandlerFunc) : list HandlerFunc :=
  take pos a ++ xs ++ drop (pos + length xs) a.

(** [make(app.HandlersChain, n)]: a new array of [n] zero values. *)
Definition make (n : nat) : Prog World Slice := fun w =>
  (Ret (mkSlice (length (heap w)) 0 n n),
   withHeap w (heap w ++ [replicate n nilHandler])).

(** [s[i:]]. *)
Definition sliceFrom (s : Slice) (i : nat) : Prog World Slice :=
  if i <=? len s then mret (mkSlice (arr s) (off s + i) (len s - i) (cap s - i))
  else panic "slice bounds out of range".

(** [copy(dst, src)]: the first [min(len(dst), len(src))] elements. *)
Definition copy (dst : Slice) (src : list HandlerFunc) : Prog World nat := fun w =>
  let n := Nat.min (len dst) (length src) in
  (Ret n, withHeap w (alter (writeAt (off dst) (take n src)) (arr dst) (heap w))).

(** [append(s, xs...)]: in place when the capacity suffices, otherwise into
    a new array that holds the old elements and the new ones. *)
Definition append (s : Slice) (xs : list HandlerFunc) : Prog World Slice := fun w =>
  let n := len s + length xs in
  match xs with
  | [] => (Ret s, w)
  | _ :: _ =>
      if n <=? cap s then
        (Ret (mkSlice (arr s) (off s) n (cap s)),
         withHeap w (alter (writeAt (off s + len s) xs) (arr s) (heap w)))
      else
        let c := Nat.max n (growCap (cap s) n) in
        (Ret (mkSlice (length (heap w)) 0 n c),
         withHeap w (heap w ++ [sliceData (heap w) s ++ xs ++ replicate (c - n) nilHandler]))
  end.

(** Dereferencing a group pointer. *)
Definition getGroup (g : nat) : Prog World RouterGroup := fun w =>
  match groups w !! g with
  | Some grp => (Ret grp, w)
  | None => (Panic "invalid memory address or nil pointer dereference", w)
  end.

(** [group.Handlers = s]. *)
Definition setHandlers (g : nat) (s : Slice) : Prog World unit := fun w =>
  (Ret tt,
   withGroups w
     (alter (fun grp => mkRouterGroup s (basePath grp) (engine grp) (root grp)) g (groups w))).

(** [&RouterGroup{...}]. *)
Definition newGroup (grp : RouterGroup) : Prog World nat := fun w =>
  (Ret (length (groups w)), withGroups w (groups w ++ [grp])).

(** Modelled from the spec: [Engine.addRoute], which is not among the
    sources; the spec gives it as
    [addRoute(method, absolutePath, handlers) -> void], the call that
    forwards the tuple to the engine's route table.  The table is the
    sequence of these calls. *)
Definition addRoute (e : nat) (method absolutePath : string) (handlers : Slice)
    : Prog World unit := fun w =>
  (Ret tt, withRoutes w (routes w ++ [mkRoute e method absolutePath handlers])).

(** [returnObj]. *)
Definition returnObj (g : nat) : Prog World IRoutes :=
  grp ← getGroup g;
  if root grp then mret (TheEngine (engine grp)) else mret (TheGroup g).

(** [Use]. *)
Definition Use (g : nat) (middleware : list HandlerFunc) : Prog World IRoutes :=
  grp ← getGroup g;
  s ← append (Handlers grp) middleware;
  setHandlers g s;;
  returnObj g.

(** [combineHandlers]. *)
Definition combineHandlers (g : nat) (handlers : list HandlerFunc) : Prog World Slice :=
  grp ← getGroup g;
  let finalSize := len (Handlers grp) + length handlers in
  if (AbortIndex <=? Z.of_nat finalSize)%Z then panic "too many handlers"
  else
    mergedHandlers ← make finalSize;
    old ← readSlice (Handlers grp);
    copy mergedHandlers old;;
    dst ← sliceFrom mergedHandlers (len (Handlers grp));
    copy dst handlers;;
    mret mergedHandlers.

(** [calculateAbsolutePath]. *)
Definition calculateAbsolutePath (g : nat) (relativePath : string) : Prog World string :=
  grp ← getGroup g;
  liftRes (joinPaths (basePath grp) relativePath).

(** [Group]: the fields of the literal are evaluated in the order written;
    [root] is left at its zero value. *)
Definition Group (g : nat) (relativePath : string) (handlers : list HandlerFunc)
    : Prog World nat :=
  hs ← combineHandlers g handlers;
  p ← calculateAbsolutePath g relativePath;
  grp ← getGroup g;
  newGroup (mkRouterGroup hs p (engine grp) false).

(** [BasePath]. *)
Definition BasePath (g : nat) : Prog World string :=
  grp ← getGroup g;
  mret (basePath grp).

(** [handle]. *)
Definition handle (g : nat) (httpMethod relativePath : string)
    (handlers : list HandlerFunc) : Prog World IRoutes :=
  absolutePath ← calculateAbsolutePath g relativePath;
  hs ← combineHandlers g handlers;
  grp ← getGroup g;
  addRoute (engine grp) httpMethod absolutePath hs;;
  returnObj g.

(** [Handle]. *)
Definition Handle (g : nat) (httpMethod relativePath : string)
    (handlers : list HandlerFunc) : Prog World IRoutes :=
  if negb (MatchString upperLetterReg httpMethod)
  then panic ("http method " +:+ httpMethod +:+ " is not valid")
  else handle g httpMethod relativePath handlers.

Definition POST (g : nat) (relativePath : string) (handlers : list HandlerFunc) :=
  handle g MethodPost relativePath handlers.
Definition GET (g : nat) (relativePath : string) (handlers : list HandlerFunc) :=
  handle g MethodGet relativePath handlers.
Definition DELETE (g : nat) (relativePath : string) (handlers : list HandlerFunc) :=
  handle g MethodDelete relativePath handlers.
Definition PATCH (g : nat) (relativePath : string) (handlers : list HandlerFunc) :=
  handle g MethodPatch relativePath handlers.
Definition PUT (g : nat) (relativePath : string) (handlers : list HandlerFunc) :=
  handle g MethodPut relativePath handlers.
Definition OPTIONS (g : nat) (relativePath : string) (handlers : list HandlerFunc) :=
  handle g MethodOptions relativePath handlers.
Definition HEAD (g : nat) (relativePath : string) (handlers : list HandlerFunc) :=
  handle g MethodHead relativePath handlers.

(** [Any]. *)
Definition Any (g : nat) (relativePath : string) (handlers : list HandlerFunc)
    : Prog World IRoutes :=
  handle g MethodGet relativePath handlers;;
  handle g MethodPost relativePath handlers;;
  handle g MethodPut relativePath handlers;;
  handle g MethodPatch relativePath handlers;;
  handle g MethodHead relativePath handlers;;
  handle g MethodOptions relativePath handlers;;
  handle g MethodDelete relativePath handlers;;
  handle g MethodConnect relativePath handlers;;
  handle g MethodTrace relativePath handlers;;
  returnObj g.

(** [StaticFile]. *)
Definition StaticFile (g : nat) (relativePath filepath : string) : Prog World IRoutes :=
  if Contains relativePath ":" || Contains relativePath "*"
  then panic "URL parameters can not be used when serving a static file"
  else
    let handler := fileHandler filepath in
    GET g relativePath [handler];;
    HEAD g relativePath [handler];;
    returnObj g.

(** [StaticFS]. *)
Definition StaticFS (g : nat) (relativePath : string) (fs : FS) : Prog World IRoutes :=
  if Contains relativePath ":" || Contains relativePath "*"
  then panic "URL parameters can not be used when serving a static folder"
  else
    let handler := NewRequestHandler fs in
    let urlPattern := Join [relativePath; "/*filepath"] in
    GET g urlPattern [handler];;
    HEAD g urlPattern [handler];;
    returnObj g.

(** [Static]. *)
Definition Static (g : nat) (relativePath root : string) : Prog World IRoutes :=
  StaticFS g relativePath (fsWithRoot root).

(** The handler chain a group holds, and the routes with their chains, as
    the heap has them now. *)
Definition chainOf (w : World) (g : nat) : list HandlerFunc :=
  match groups w !! g with
  | Some grp => sliceData (heap w) (Handlers grp)
  | None => []
  end.

Definition routeView (w : World) (r : Route) : string * string * list HandlerFunc :=
  (routeMethod r, routePath r, sliceData (heap w) (routeHandlers r)).

Definition routeTable (w : World) : list (string * string * list HandlerFunc) :=
  map (routeView w) (routes w).

(** A slice that fits its backing array. *)
Definition sliceOK (h : list (list HandlerFunc)) (s : Slice) : bool :=
  (len s <=? cap s) &&
  ((cap s =? 0) ||
   match h !! arr s with
   | Some a => off s + cap s <=? length a
   | None => false
   end).

(** Every group's chain and every route's chain fits its backing array. *)
Definition worldOK (w : World) : bool :=
  forallb (fun grp => sliceOK (heap w) (Handlers grp)) (groups w) &&
  forallb (fun r => sliceOK (heap w) (routeHandlers r)) (routes w).

(** The calls a program makes on the router once it holds group pointers. *)
Inductive Call : Type :=
  | CallUse (g : nat) (middleware : list HandlerFunc)
  | CallGroup (g : nat) (relativePath : string) (handlers : list HandlerFunc)
  | CallHandle (g : nat) (httpMethod relativePath : string) (handlers : list HandlerFunc)
  | CallAny (g : nat) (relativePath : string) (handlers : list HandlerFunc)
  | CallStaticFile (g : nat) (relativePath filepath : string)
  | CallStaticFS (g : nat) (relativePath : string) (fs : FS).

Definition call (c : Call) : Prog World unit :=
  match c with
  | CallUse g middleware => Use g middleware;; mret tt
  | CallGroup g relativePath handlers => Group g relativePath handlers;; mret tt
  | CallHandle g httpMethod relativePath handlers =>
      Handle g httpMethod relativePath handlers;; mret tt
  | CallAny g relativePath handlers => Any g relativePath handlers;; mret tt
  | CallStaticFile g relativePath filepath => StaticFile g relativePath filepath;; mret tt
  | CallStaticFS g relativePath fs => StaticFS g relativePath fs;; mret tt
  end.

(** The world after a sequence of calls; a call that panics leaves the
    world as the panic found it, and the run goes on from there (as after
    a recover), so every world a program can see is covered. *)
Fixpoint runCalls (cs : list Call) (w : World) : World :=
  match cs with
  | [] => w
  | c :: cs' => runCalls cs' (call c w).2
  end.

(** [Use] called on group [g]. *)
Definition isUseOn (g : nat) (c : Call) : bool :=
  match c with
  | CallUse g' _ => g' =? g
  | _ => false
  end.

(** The state of a group [c] whose chain [data] no call on another group
    can change: the world is well formed, and if the chain has a backing
    array at all, no other group's chain lives in it. *)
Definition ownsChain (c : nat) (data : list HandlerFunc) (w : World) : Prop :=
  worldOK w = true /\
  exists gc,
    groups w !! c = Some gc /\
    sliceData (heap w) (Handlers gc) = data /\
    (cap (Handlers gc) <> 0 ->
     forall a ga, a <> c -> groups w !! a = Some ga ->
       cap (Handlers ga) <> 0 -> arr (Handlers ga) <> arr (Handlers gc)).

(** A program that keeps an invariant of the world, also when it panics. *)
Definition preserves {A} (I : World -> Prop) (m : Prog World A) : Prop :=
  forall w, I w -> I (m w).2.

End Route.

(** An environment to run the router in: handlers are their names, the
    sentinel is 63 (the largest [int8] halved), and [append] doubles. *)
Definition namedHandlers : RouteEnv := {|
  HandlerFunc := string;
  nilHandler := "";
  AbortIndex := 63;
  growCap := fun oldCap _ => 2 * oldCap;
  FS := string;
  fsWithRoot := fun r => r;
  NewRequestHandler := fun r => "fs:" +:+ r;
  fileHandler := fun p => "file:" +:+ p;
|}.

(** The world a new engine starts in: engine 0, whose root group (at
    address 0) has base path [/] and no handlers yet. *)
Definition newEngineWorld `{RouteEnv} : World :=
  mkWorld [] [mkRouterGroup nilSlice "/" 0 true] [].

(** Two worlds to run the router in, both with [namedHandlers]: the new
    engine after [Use(authMW)] on its root group, and after [Use] of 62
    middlewares, one short of the sentinel. *)
Definition authWorld : @World namedHandlers :=
  (@Use namedHandlers 0 ["authMW"] newEngineWorld).2.

Definition crowdedWorld : @World namedHandlers :=
  (@Use namedHandlers 0 (replicate 62 "mw") newEngineWorld).2.

(* ===================================================================== *)
(** * pkg/app/server/hertz.go *)
(* ===================================================================== *)

(** The signals of [syscall] the server names, and the others by number. *)
Inductive Signal : Type :=
  | SIGHUP
  | SIGINT
  | SIGTERM
  | OtherSignal (n : nat).

(** What the server takes from packages that are not among the sources:
    the values behind the [error] interface ([None] is the nil error),
    [errors.NewPublic], and the name [Signal.String] gives a signal. *)
Class ServerEnv : Type := {
  error : Type;
  NewPublic : string -> error;
  signalString : Signal -> string;
}.

Section Server.
Context `{ServerEnv}.

(** What the [select] of [waitSignal] receives first. *)
Inductive Event : Type :=
  | FromSignals (sig : Signal)
  | FromErrCh (err : option error).

(** What [Spin] does to its surroundings, in order. *)
Inductive Action : Type :=
  | MakeErrCh
  | AppendOnRunHook
  | GoRun
  | SignalNotify (sigs : list Signal)
  | LogInfof (format : string)
  | LogErrorf (format : string) (err : error)
  | EngineClose
  | ContextWithTimeout (timeout : Z)
  | EngineShutdown (deadline : Z)
  | ContextCancel.

(** The surroundings: which signals the process ignores, which event wins
    the race, what [Close] and [Shutdown] return, and the actions so far. *)
Record Process : Type := mkProcess {
  ignored : Signal -> bool;
  winner : Event;
  closeResult : option error;
  shutdownResult : option error;
  trace : list Action;
}.

(** [config.Options], as far as [Spin] reads it (a [time.Duration]). *)
Record Options : Type := mkOptions {
  ExitWaitTimeout : Z;
}.

(** [Hertz]: the engine's options and the custom signal waiter, if set. *)
Record Hertz : Type := mkHertz {
  options : Options;
  signalWaiter : option (Prog Process (option error));
}.

Definition emit (a : Action) : Prog Process unit := fun p =>
  (Ret tt,
   mkProcess (ignored p) (winner p) (closeResult p) (shutdownResult p) (trace p ++ [a])).

(** [signal.Ignored]. *)
Definition signalIgnored (sig : Signal) : Prog Process bool :=
  reads (fun p => ignored p sig).

(** The [select] over the signal channel and the error channel. *)
Definition selectEvent : Prog Process Event := reads winner.

(** [h.Engine.Close]. *)
Definition engineClose : Prog Process (option error) :=
  emit EngineClose;; reads closeResult.

(** [context.WithTimeout(context.Background(), d)]: the context is its
    deadline, as a duration from now. *)
Definition contextWithTimeout (d : Z) : Prog Process Z :=
  emit (ContextWithTimeout d);; mret d.

(** [h.Shutdown(ctx)]. *)
Definition engineShutdown (ctx : Z) : Prog Process (option error) :=
  emit (EngineShutdown ctx);; reads shutdownResult.

(** [SetCustomSignalWaiter]. *)
Definition SetCustomSignalWaiter (h : Hertz) (f : Prog Process (option error)) : Hertz :=
  mkHertz (options h) (Some f).

(** [waitSignal].  A signal the [switch] has no case for leaves the
    [select], and the function returns nil at its end. *)
Definition waitSignal : Prog Process (option error) :=
  hupIgnored ← signalIgnored SIGHUP;
  let signalToNotify :=
    if hupIgnored : bool then [SIGINT; SIGTERM] else [SIGINT; SIGHUP; SIGTERM] in
  emit (SignalNotify signalToNotify);;
  ev ← selectEvent;
  match ev with
  | FromSignals sig =>
      match sig with
      | SIGTERM => mret (Some (NewPublic (signalString sig)))
      | SIGHUP | SIGINT => emit (LogInfof "Received signal: %s\n");; mret None
      | OtherSignal _ => mret None
      end
  | FromErrCh err => mret err
  end.

(** [initOnRunHooks]: the hook is only appended here; it runs when the
    engine starts. *)
Definition initOnRunHooks : Prog Process unit := emit AppendOnRunHook.

(** [Spin]. *)
Definition Spin (h : Hertz) : Prog Process unit :=
  emit MakeErrCh;;
  initOnRunHooks;;
  emit GoRun;;
  let waiter := default waitSignal (signalWaiter h) in
  err ← waiter;
  match err with
  | Some e =>
      emit (LogErrorf "Receive close signal: error=%v" e);;
      err' ← engineClose;
      match err' with
      | Some e' => emit (LogErrorf "Close error=%v" e')
      | None => mret tt
      end
  | None =>
      emit (LogInfof "Begin graceful shutdown, wait at most num=%d seconds...");;
      ctx ← contextWithTimeout (ExitWaitTimeout (options h));
      err' ← engineShutdown ctx;
      match err' with
      | Some e' => emit (LogErrorf "Shutdown error=%v" e')
      | None => mret tt
      end;;
      emit ContextCancel
  end.

(** The actions [prog] adds to the trace when run in [p]. *)
Definition actionsOf {A} (prog : Prog Process A) (p : Process) : list Action :=
  drop (length (trace p)) (trace (snd (prog p))).

Definition isClose (a : Action) : bool :=
  match a with EngineClose => true | _ => false end.
Definition isDeadlineScope (a : Action) : bool :=
  match a with ContextWithTimeout _ => true | _ => false end.
Definition isShutdown (a : Action) : bool :=
  match a with EngineShutdown _ => true | _ => false end.

(** The spec's two ways out of [Spin], as the actions they consist of: the
    immediate close after the waiter returned the error [e], and the
    graceful shutdown under a deadline scope of [timeout]. *)
Definition forcedPath (e : error) (closeErr : option error) : list Action :=
  [LogErrorf "Receive close signal: error=%v" e; EngineClose] ++
  match closeErr with
  | Some e' => [LogErrorf "Close error=%v" e']
  | None => []
  end.

Definition gracefulPath (timeout : Z) (shutdownErr : option error) : list Action :=
  [LogInfof "Begin graceful shutdown, wait at most num=%d seconds...";
   ContextWithTimeout timeout; EngineShutdown timeout] ++
  match shutdownErr with
  | Some e' => [LogErrorf "Shutdown error=%v" e']
  | None => []
  end ++ [ContextCancel].

(** What [Spin] does before it waits. *)
Definition spinStart : list Action := [MakeErrCh; AppendOnRunHook; GoRun].

(** The signal set the default waiter watches in process [p]. *)
Definition watchedSignals (p : Process) : list Signal :=
  if ignored p SIGHUP then [SIGINT; SIGTERM] else [SIGINT; SIGHUP; SIGTERM].

(** Process [p] with its trace replaced. *)
Definition withTrace (p : Process) (tr : list Action) : Process :=
  mkProcess (ignored p) (winner p) (closeResult p) (shutdownResult p) tr.

(** The signal sets handed to [signal.Notify]. *)
Definition notified (l : list Action) : list (list Signal) :=
  omap (fun a => match a with SignalNotify sigs => Some sigs | _ => None end) l.

End Server.

(** An environment to run the server in: errors are their texts. *)
Definition textErrors : ServerEnv := {|
  error := string;
  NewPublic := fun msg => msg;
  signalString := fun sig =>
    match sig with
    | SIGHUP => "hangup"
    | SIGINT => "interrupt"
    | SIGTERM => "terminated"
    | OtherSignal _ => "signal"
    end;
|}.

(** A process that ignores no signal, with the given race winner. *)
Definition processWith `{ServerEnv} (ev : Event) (close shutdown : option error) : Process :=
  mkProcess (fun _ => false) ev close shutdown [].

(* ===================================================================== *)
(** * The router over a whole run *)
(* ===================================================================== *)

Section Observations.
Context `{RouteEnv}.

(** What a group is created with and no method assigns afterwards. *)
Definition groupIdentity (grp : RouterGroup) : string * nat * bool :=
  (basePath grp, engine grp, root grp).

(** Chains that share no storage: the world is well formed, and of the
    chains that have a backing array no two groups' chains live in the
    same one, nor a group's chain and a route's. *)
Definition separated (w : World) : Prop :=
  worldOK w = true /\
  (forall a b ga gb,
     a <> b -> groups w !! a = Some ga -> groups w !! b = Some gb ->
     cap (Handlers ga) <> 0 -> cap (Handlers gb) <> 0 ->
     arr (Handlers ga) <> arr (Handlers gb)) /\
  (forall a ga r,
     groups w !! a = Some ga -> In r (routes w) ->
     cap (Handlers ga) <> 0 -> cap (routeHandlers r) <> 0 ->
     arr (Handlers ga) <> arr (routeHandlers r)).

(** What one returning call of [handle], [Group] or [Use] changes of the
    groups, their chains and the route table, from [w] to [w']: [handle]
    adds a route, [Group] adds a group, [Use] extends one chain.  The
    proofs show that the calls of the router advance the world by these
    changes only. *)
Inductive step (w w' : World) : Prop :=
  | step_handle (g : nat) (grp : RouterGroup) (method relativePath path : string)
      (handlers : list HandlerFunc) :
      groups w !! g = Some grp ->
      (Z.of_nat (length (chainOf w g) + length handlers) < AbortIndex)%Z ->
      joinPaths (basePath grp) relativePath = Ret path ->
      groups w' = groups w ->
      (forall b, chainOf w' b = chainOf w b) ->
      routeTable w' = routeTable w ++ [(method, path, chainOf w g ++ handlers)] ->
      step w w'
  | step_Group (g : nat) (grp child : RouterGroup) (relativePath : string)
      (handlers : list HandlerFunc) :
      groups w !! g = Some grp ->
      (Z.of_nat (length (chainOf w g) + length handlers) < AbortIndex)%Z ->
      joinPaths (basePath grp) relativePath = Ret (basePath child) ->
      engine child = engine grp ->
      root child = false ->
      groups w' = groups w ++ [child] ->
      (forall b, b < length (groups w) -> chainOf w' b = chainOf w b) ->
      chainOf w' (length (groups w)) = chainOf w g ++ handlers ->
      routeTable w' = routeTable w ->
      step w w'
  | step_Use (g : nat) (grp : RouterGroup) (middleware : list HandlerFunc) :
      groups w !! g = Some grp ->
      groupIdentity <$> groups w' = groupIdentity <$> groups w ->
      chainOf w' g = chainOf w g ++ middleware ->
      (forall b, b <> g -> chainOf w' b = chainOf w b) ->
      routeTable w' = routeTable w ->
      step w w'.

(** Any number of such changes in a row. *)
Inductive steps (w : World) : World -> Prop :=
  | steps_refl : steps w w
  | steps_snoc (w1 w2 : World) : steps w w1 -> step w1 w2 -> steps w w2.

(** A program that keeps chains separated and moves the world by [steps],
    also when it panics. *)
Definition advances {A} (m : Prog World A) : Prop :=
  forall w, separated w -> separated (m w).2 /\ steps w (m w).2.

(** A path that begins with a slash. *)
Definition isAbsolute (path : string) : bool :=
  match path with
  | String c _ => isSlash c
  | EmptyString => false
  end.

(** A chain whose first handler is [h]. *)
Definition startsWith (h : HandlerFunc) (chain : list HandlerFunc) : Prop :=
  exists rest, chain = h :: rest.

(** Modelled from the spec: the side table of [app.SetHandlerName], which
    is not among the sources; the spec gives the call as
    [setHandlerName(handler, name) -> void].  The table is the sequence of
    these calls, next to the world of the router. *)
Record Named : Type := mkNamed {
  handlerNames : list (HandlerFunc * string);
  router : World;
}.

Definition SetHandlerName (handler : HandlerFunc) (handlerName : string)
    : Prog Named unit := fun nw =>
  (Ret tt, mkNamed (handlerNames nw ++ [(handler, handlerName)]) (router nw)).

(** A call on the router, run next to the table of names. *)
Definition onRouter {A} (m : Prog World A) : Prog Named A := fun nw =>
  let (r, w') := m (router nw) in (r, mkNamed (handlerNames nw) w').

(** [GETEX], [POSTEX], [PUTEX], [DELETEEX], [HEADEX], [AnyEX], [HandleEX]. *)
Definition GETEX (g : nat) (relativePath : string) (handler : HandlerFunc)
    (handlerName : string) : Prog Named IRoutes :=
  SetHandlerName handler handlerName;;
  onRouter (GET g relativePath [handler]).

Definition POSTEX (g : nat) (relativePath : string) (handler : HandlerFunc)
    (handlerName : string) : Prog Named IRoutes :=
  SetHandlerName handler handlerName;;
  onRouter (POST g relativePath [handler]).

Definition PUTEX (g : nat) (relativePath : string) (handler : HandlerFunc)
    (handlerName : string) : Prog Named IRoutes :=
  SetHandlerName handler handlerName;;
  onRouter (PUT g relativePath [handler]).

Definition DELETEEX (g : nat) (relativePath : string) (handler : HandlerFunc)
    (handlerName : string) : Prog Named IRoutes :=
  SetHandlerName handler handlerName;;
  onRouter (DELETE g relativePath [handler]).

Definition HEADEX (g : nat) (relativePath : string) (handler : HandlerFunc)
    (handlerName : string) : Prog Named IRoutes :=
  SetHandlerName handler handlerName;;
  onRouter (HEAD g relativePath [handler]).

Definition AnyEX (g : nat) (relativePath : string) (handler : HandlerFunc)
    (handlerName : string) : Prog Named IRoutes :=
  SetHandlerName handler handlerName;;
  onRouter (Any g relativePath [handler]).

Definition HandleEX (g : nat) (httpMethod relativePath : string) (handler : HandlerFunc)
    (handlerName : string) : Prog Named IRoutes :=
  SetHandlerName handler handlerName;;
  onRouter (Handle g httpMethod relativePath [handler]).

End Observations.

(* ===================================================================== *)
(** * Creating a server *)
(* ===================================================================== *)

(** [New]: the options are those [config.NewOptions] builds from [opts]
    (not among the sources), no custom signal waiter is set, and the
    engine starts as [newEngineWorld]. *)
Definition New `{ServerEnv} (opts : Options) : Hertz := mkHertz opts None.

(** [Default]: [New], then [Use] of the recovery middleware on the engine,
    that is on its root group. *)
Definition Default `{RouteEnv} `{ServerEnv} (recovery : HandlerFunc) (opts : Options)
    : Hertz * World :=
  (New opts, (Use 0 [recovery] newEngineWorld).2).


(* ===================================================================== *)
(** * Properties of the path functions *)
(* ===================================================================== *)

Lemma string_of_list_ascii_nil (l : list ascii) :
  string_of_list_ascii l = "" -> l = [].
Proof. destruct l; [reflexivity | discriminate]. Qed.

Lemma list_ascii_of_string_nil (s : string) :
  list_ascii_of_string s = [] -> s = "".
Proof. destruct s; [reflexivity | discriminate]. Qed.

Lemma list_ascii_of_string_app (s t : string) :
  list_ascii_of_string (s +:+ t) = list_ascii_of_string s ++ list_ascii_of_string t.
Proof. induction s as [|c s IH]; simpl; [reflexivity | now rewrite IH]. Qed.

Lemma string_of_list_ascii_app (l k : list ascii) :
  string_of_list_ascii (l ++ k) = string_of_list_ascii l +:+ string_of_list_ascii k.
Proof. induction l as [|c l IH]; simpl; [reflexivity | now rewrite IH]. Qed.

(** [Clean] never returns the empty string: an empty output becomes [.]. *)
Lemma Clean_nonempty (p : string) : Clean p <> "".
Proof.
  unfold Clean. destruct (list_ascii_of_string p) as [|c rest]; [discriminate|].
  set (out := if isSlash c then _ else _).
  destruct (length out =? 0) eqn:E; [discriminate|].
  intros Hs. apply string_of_list_ascii_nil in Hs. rewrite Hs in E. discriminate.
Qed.

(** [Join] of a base and a non-empty relative path is never empty. *)
Lemma Join_nonempty (b r : string) : r <> "" -> Join [b; r] <> "".
Proof.
  intros Hr. unfold Join. simpl.
  destruct (String.length b + String.length r =? 0) eqn:E.
  - apply Nat.eqb_eq in E. destruct r; [congruence | simpl in E; lia].
  - apply Clean_nonempty.
Qed.

Lemma lastChar_endsInSeparator (s : string) :
  s <> "" -> exists c, lastChar s = Ret c /\ endsInSeparator s = isSlash c.
Proof.
  intros Hs. unfold lastChar, endsInSeparator.
  destruct (rev (list_ascii_of_string s)) as [|c l] eqn:E.
  - exfalso. apply Hs, list_ascii_of_string_nil.
    apply (f_equal (@rev ascii)) in E. now rewrite rev_involutive in E.
  - now exists c.
Qed.

(** [joinPaths] never panics, and computes the spec's composed path. *)
Lemma joinPaths_composedPath (b r : string) : joinPaths b r = Ret (composedPath b r).
Proof.
  unfold joinPaths, composedPath.
  destruct (String.eqb r "") eqn:E; [reflexivity|].
  apply String.eqb_neq in E.
  destruct (lastChar_endsInSeparator r E) as (c1 & -> & ->). simpl.
  destruct (isSlash c1); simpl; [|reflexivity].
  destruct (lastChar_endsInSeparator _ (Join_nonempty b r E)) as (c2 & -> & ->). simpl.
  now destruct (isSlash c2).
Qed.

(** C2. [joinPaths(b, r)] returns [b] unchanged when [r] is empty; otherwise
    it returns the canonical join [path.Join(b, r)], except that when [r]
    ends with a separator and the canonical join does not, the result is the
    canonical join followed by one separator, so that it ends in exactly one
    (the byte before it is not a separator). *)
Theorem joinPaths_spec (b r : string) :
  joinPaths b "" = Ret b /\
  (r <> "" ->
   (endsInSeparator r = true /\ endsInSeparator (Join [b; r]) = false ->
    joinPaths b r = Ret (Join [b; r] +:+ "/") /\
    exists body c, Join [b; r] = body +:+ String c "" /\ isSlash c = false) /\
   (~ (endsInSeparator r = true /\ endsInSeparator (Join [b; r]) = false) ->
    joinPaths b r = Ret (Join [b; r]))).
Proof.
  split; [reflexivity|].
  intros Hr. rewrite joinPaths_composedPath. unfold composedPath.
  apply String.eqb_neq in Hr as E. rewrite E. split.
  - intros [-> H2]. rewrite H2. split; [reflexivity|].
    unfold endsInSeparator in H2.
    destruct (rev (list_ascii_of_string (Join [b; r]))) as [|c l] eqn:El.
    + exfalso. apply (Join_nonempty b r Hr), list_ascii_of_string_nil.
      apply (f_equal (@rev ascii)) in El. now rewrite rev_involutive in El.
    + exists (string_of_list_ascii (rev l)), c. split; [|exact H2].
      apply (f_equal (@rev ascii)) in El. rewrite rev_involutive in El. simpl in El.
      rewrite <- (string_of_list_ascii_of_string (Join [b; r])), El.
      clear. induction (rev l) as [|x l' IH]; simpl; [reflexivity | now rewrite IH].
  - intros Hn. destruct (endsInSeparator r); [|reflexivity].
    destruct (endsInSeparator (Join [b; r])); [reflexivity|].
    exfalso. apply Hn. now split.
Qed.

(** ** [Clean] and [Join] on sample paths *)

Example Clean_ex1 : Clean "/a/b/../c/./d//" = "/a/c/d".
Proof. reflexivity. Qed.
Example Clean_ex2 : Clean "../../a/.." = "../..".
Proof. reflexivity. Qed.
Example Clean_ex3 : Clean "/../a" = "/a".
Proof. reflexivity. Qed.
Example Clean_ex4 : Clean "a/b/../../.." = "..".
Proof. reflexivity. Qed.
Example Clean_ex5 : Clean "abc/def/../../ghi/./jk" = "ghi/jk".
Proof. reflexivity. Qed.
Example Join_ex1 : Join ["/"; "/api"] = "/api".
Proof. reflexivity. Qed.
Example Join_ex2 : Join ["/static/"; "/*filepath"] = "/static/*filepath".
Proof. reflexivity. Qed.
Example Join_ex3 : Join [""; ""] = "".
Proof. reflexivity. Qed.

(** The cases of the library's own tests for [Clean] and [Join]. *)
Example Clean_library_cases :
  map Clean
    [""; "abc"; "abc/def"; "a/b/c"; "."; ".."; "../.."; "../../abc"; "/abc"; "/";
     "abc/"; "abc/def/"; "a/b/c/"; "./"; "../"; "../../"; "/abc/";
     "abc//def//ghi"; "//abc"; "///abc"; "//abc//"; "abc//";
     "abc/./def"; "/./abc/def"; "abc/.";
     "abc/def/ghi/../jkl"; "abc/def/../ghi/../jkl"; "abc/def/.."; "abc/def/../..";
     "/abc/def/../.."; "abc/def/../../.."; "/abc/def/../../..";
     "abc/def/../../../ghi/jkl/../../../mno";
     "abc/./../def"; "abc//./../def"; "abc/../../././../def"] =
    ["."; "abc"; "abc/def"; "a/b/c"; "."; ".."; "../.."; "../../abc"; "/abc"; "/";
     "abc"; "abc/def"; "a/b/c"; "."; ".."; "../.."; "/abc";
     "abc/def/ghi"; "/abc"; "/abc"; "/abc"; "abc";
     "abc/def"; "/abc/def"; "abc";
     "abc/def/jkl"; "abc/jkl"; "abc"; ".";
     "/"; ".."; "/";
     "../../mno";
     "def"; "def"; "../../def"].
Proof. reflexivity. Qed.

Example Join_library_cases :
  map Join
    [[]; [""]; ["a"]; ["a"; "b"]; ["a"; ""]; [""; "b"]; ["/"; "a"]; ["/"; ""];
     ["a/"; "b"]; ["a/"; ""]; [""; ""]] =
    [""; ""; "a"; "a/b"; "a"; "b"; "/a"; "/"; "a/b"; "a"; ""].
Proof. reflexivity. Qed.

(** ** Canonical paths are left alone *)

Lemma cleanLoop_cons (rooted : bool) (c : ascii) (rest1 out : list ascii) (dotdot : nat) :
  cleanLoop rooted (c :: rest1) out dotdot =
  if isSlash c then cleanLoop rooted rest1 out dotdot
  else if isDot c && atElementEnd rest1 then cleanLoop rooted rest1 out dotdot
  else
    match rest1 with
    | c1 :: rest2 =>
        if isDot c && isDot c1 && atElementEnd rest2 then
          if dotdot <? length out then
            cleanLoop rooted rest2 (backtrack out dotdot) dotdot
          else if negb rooted then
            cleanLoop rooted rest2
              ((if 0 <? length out then out ++ ["/"%char] else out) ++ ["."%char; "."%char])
              (length ((if 0 <? length out then out ++ ["/"%char] else out)
                       ++ ["."%char; "."%char]))
          else cleanLoop rooted rest2 out dotdot
        else copyElement rooted dotdot rest1 (addSlashIfNeeded rooted out ++ [c])
    | [] => copyElement rooted dotdot rest1 (addSlashIfNeeded rooted out ++ [c])
    end.
Proof. reflexivity. Qed.

Lemma isSlash_not_isDot (c : ascii) : isSlash c = true -> isDot c = false.
Proof. unfold isSlash, isDot. intros Hc. apply Ascii.eqb_eq in Hc. now subst c. Qed.

Lemma cleanLoop_skip_slash (rooted : bool) (rest out : list ascii) (dotdot : nat) :
  cleanLoop rooted ("/"%char :: rest) out dotdot = cleanLoop rooted rest out dotdot.
Proof. reflexivity. Qed.

Lemma cleanLoop_at_end (rooted : bool) (rest out : list ascii) (dotdot : nat) :
  atElementEnd rest = true ->
  match rest with
  | [] => out
  | _ :: rest' => cleanLoop rooted rest' out dotdot
  end = cleanLoop rooted rest out dotdot.
Proof.
  destruct rest as [|c rest']; [reflexivity|]. cbn [atElementEnd]. intros Hc.
  now rewrite cleanLoop_cons, Hc.
Qed.

(** The copying loop runs to the end of the element. *)
Lemma copyElement_run (rooted : bool) (dotdot : nat) (seg rest o : list ascii) :
  forallb (fun c => negb (isSlash c)) seg = true ->
  atElementEnd rest = true ->
  copyElement rooted dotdot (seg ++ rest) o = cleanLoop rooted rest (o ++ seg) dotdot.
Proof.
  revert o. induction seg as [|c seg IH]; intros o Hseg Hrest.
  - rewrite app_nil_r. cbn [app]. rewrite <- (cleanLoop_at_end rooted rest o dotdot Hrest).
    destruct rest as [|c rest']; [reflexivity|].
    cbn [atElementEnd] in Hrest. cbn [copyElement]. now rewrite Hrest.
  - cbn [forallb] in Hseg. apply andb_true_iff in Hseg as [Hc Hseg].
    apply negb_true_iff in Hc. cbn [app copyElement]. rewrite Hc.
    rewrite IH by assumption. now rewrite <- app_assoc.
Qed.

(** A plain element is copied to the output, after a slash where needed. *)
Lemma cleanLoop_element (rooted : bool) (seg rest out : list ascii) (dotdot : nat) :
  plainElement seg = true ->
  atElementEnd rest = true ->
  cleanLoop rooted (seg ++ rest) out dotdot =
  cleanLoop rooted rest (addSlashIfNeeded rooted out ++ seg) dotdot.
Proof.
  intros Hplain Hrest. destruct seg as [|c seg]; [discriminate|].
  cbn [plainElement forallb] in Hplain.
  apply andb_true_iff in Hplain as [Hns Hnd].
  apply andb_true_iff in Hns as [Hc Hseg]. apply negb_true_iff in Hc.
  apply negb_true_iff in Hnd.
  cbn [app]. rewrite cleanLoop_cons, Hc.
  assert (copyElement rooted dotdot (seg ++ rest) (addSlashIfNeeded rooted out ++ [c])
          = cleanLoop rooted rest (addSlashIfNeeded rooted out ++ c :: seg) dotdot) as Hcopy.
  { rewrite copyElement_run by assumption. now rewrite <- app_assoc. }
  destruct seg as [|c1 seg].
  - cbn [forallb andb length Nat.leb] in Hnd. rewrite !andb_true_r in Hnd.
    rewrite Hnd. cbn [andb app]. cbn [app] in Hcopy.
    destruct rest as [|c1 rest2]; exact Hcopy.
  - cbn [forallb] in Hseg. apply andb_true_iff in Hseg as [Hc1 Hseg].
    apply negb_true_iff in Hc1.
    cbn [app atElementEnd]. rewrite Hc1, andb_false_r.
    destruct seg as [|c2 seg].
    + cbn [forallb andb length Nat.leb] in Hnd. rewrite !andb_true_r in Hnd.
      rewrite Hnd. exact Hcopy.
    + cbn [forallb] in Hseg. apply andb_true_iff in Hseg as [Hc2 _].
      apply negb_true_iff in Hc2. cbn [app atElementEnd]. rewrite Hc2, andb_false_r.
      exact Hcopy.
Qed.

Lemma atElementEnd_rootedPath (segs : list (list ascii)) (tail : list ascii) :
  atElementEnd tail = true -> atElementEnd (rootedPath segs ++ tail) = true.
Proof. destruct segs; [trivial | reflexivity]. Qed.

Lemma addSlashIfNeeded_rooted (out : list ascii) :
  1 < length out -> addSlashIfNeeded true out = out ++ ["/"%char].
Proof.
  intros Hlen. unfold addSlashIfNeeded.
  destruct (length out =? 1) eqn:E; [apply Nat.eqb_eq in E; lia | reflexivity].
Qed.

(** After the first element, each further plain element of a rooted path
    goes to the output behind a slash. *)
Lemma cleanLoop_rootedPath (segs : list (list ascii)) (tail out : list ascii) (dotdot : nat) :
  forallb plainElement segs = true ->
  atElementEnd tail = true ->
  1 < length out ->
  cleanLoop true (rootedPath segs ++ tail) out dotdot =
  cleanLoop true tail (out ++ rootedPath segs) dotdot.
Proof.
  revert out. induction segs as [|seg segs IH]; intros out Hsegs Htail Hout.
  - cbn [rootedPath app]. now rewrite app_nil_r.
  - cbn [forallb] in Hsegs. apply andb_true_iff in Hsegs as [Hseg Hsegs].
    cbn [rootedPath app]. rewrite cleanLoop_skip_slash, <- app_assoc.
    rewrite cleanLoop_element
      by (try assumption; now apply atElementEnd_rootedPath).
    rewrite addSlashIfNeeded_rooted by exact Hout.
    rewrite IH; try assumption.
    + f_equal. now rewrite <- !app_assoc.
    + rewrite !length_app. simpl. lia.
Qed.

(** [Clean]'s loop on [/s1/.../sk] followed by [tail], from its start. *)
Lemma cleanLoop_from_root (seg : list ascii) (segs : list (list ascii)) (tail : list ascii) :
  forallb plainElement (seg :: segs) = true ->
  atElementEnd tail = true ->
  cleanLoop true (seg ++ rootedPath segs ++ tail) ["/"%char] 1 =
  cleanLoop true tail (rootedPath (seg :: segs)) 1.
Proof.
  intros Hsegs Htail. cbn [forallb] in Hsegs.
  apply andb_true_iff in Hsegs as [Hseg Hsegs].
  rewrite cleanLoop_element by (try assumption; now apply atElementEnd_rootedPath).
  cbn [addSlashIfNeeded length Nat.eqb andb negb orb app].
  rewrite cleanLoop_rootedPath; try assumption.
  - reflexivity.
  - destruct seg; [discriminate | simpl; lia].
Qed.

(** [Clean] returns a rooted path of plain elements as it is. *)
Lemma Clean_rootedPath (segs : list (list ascii)) :
  segs <> [] ->
  forallb plainElement segs = true ->
  Clean (string_of_list_ascii (rootedPath segs)) = string_of_list_ascii (rootedPath segs).
Proof.
  intros Hne Hsegs. destruct segs as [|seg segs]; [congruence|].
  unfold Clean. rewrite list_ascii_of_string_of_list_ascii.
  pose proof (cleanLoop_from_root seg segs [] Hsegs eq_refl) as Hloop.
  rewrite app_nil_r in Hloop.
  cbn [rootedPath]. change (isSlash "/"%char) with true. cbv iota.
  rewrite Hloop. reflexivity.
Qed.

(** The wildcard pattern of a rooted path of plain elements: joining is
    concatenating. *)
Lemma Join_wildcard_rootedPath (segs : list (list ascii)) :
  segs <> [] ->
  forallb plainElement segs = true ->
  Join [string_of_list_ascii (rootedPath segs); "/*filepath"] =
  string_of_list_ascii (rootedPath segs) +:+ "/*filepath".
Proof.
  intros Hne Hsegs. destruct segs as [|seg segs]; [congruence|].
  unfold Join. cbn [foldl].
  set (p := string_of_list_ascii (rootedPath (seg :: segs))).
  destruct (0 + String.length p + String.length "/*filepath" =? 0) eqn:E;
    [apply Nat.eqb_eq in E; simpl in E; lia|].
  assert (joinStep "" p = p) as ->.
  { unfold joinStep, p. reflexivity. }
  assert (joinStep p "/*filepath" = (p +:+ "/") +:+ "/*filepath") as ->.
  { unfold joinStep, p. reflexivity. }
  unfold Clean. rewrite !list_ascii_of_string_app. unfold p.
  rewrite list_ascii_of_string_of_list_ascii.
  cbn [rootedPath app]. change (isSlash "/"%char) with true. cbv iota.
  rewrite <- !app_assoc.
  rewrite cleanLoop_from_root by trivial.
  cbn [list_ascii_of_string app]. rewrite !cleanLoop_skip_slash.
  rewrite (cleanLoop_element true _ [] _ 1 (eq_refl : plainElement (list_ascii_of_string "*filepath") = true) eq_refl).
  cbn [cleanLoop]. rewrite addSlashIfNeeded_rooted
    by (cbn [rootedPath length]; destruct seg; [discriminate | simpl; lia]).
  set (out := (_ ++ _) ++ _).
  assert (out = rootedPath (seg :: segs) ++ list_ascii_of_string "/*filepath") as Hout.
  { unfold out. now rewrite <- app_assoc. }
  destruct (length out =? 0) eqn:E0.
  - apply Nat.eqb_eq in E0. rewrite Hout, length_app in E0. simpl in E0. lia.
  - rewrite Hout, string_of_list_ascii_app. reflexivity.
Qed.

(* ===================================================================== *)
(** * The method pattern *)
(* ===================================================================== *)

Lemma matchHere_NoMatch (b : bool) (s : list ascii) : matchHere NoMatch b s = false.
Proof. revert b. induction s as [|c s IH]; intros b; simpl; [reflexivity | apply IH]. Qed.

(** After the first letter, what is left of the pattern is [[A-Z]*$]. *)
Lemma matchHere_letters_to_end (s : list ascii) :
  matchHere (Concat (Star (CharClass "A" "Z")) EndText) false s = forallb isUpperLetter s.
Proof.
  induction s as [|c s IH]; [reflexivity|].
  cbn [matchHere nullable deriv forallb andb orb]. unfold isUpperLetter at 1.
  destruct (inClass "A" "Z" c); cbn [mkConcat mkAlternate andb].
  - exact IH.
  - apply matchHere_NoMatch.
Qed.

Lemma matchHere_upperLetterReg_start (s : list ascii) :
  matchHere upperLetterReg true s =
  match s with [] => false | _ => forallb isUpperLetter s end.
Proof.
  destruct s as [|c s]; [reflexivity|].
  unfold upperLetterReg.
  cbn [matchHere nullable deriv forallb andb orb]. unfold isUpperLetter at 1.
  destruct (inClass "A" "Z" c); cbn [mkConcat mkAlternate andb].
  - apply matchHere_letters_to_end.
  - apply matchHere_NoMatch.
Qed.

(** Away from the beginning of the text the pattern matches nowhere. *)
Lemma search_upperLetterReg_later (s : list ascii) : search upperLetterReg false s = false.
Proof.
  induction s as [|c s IH]; [reflexivity|].
  cbn [search]. rewrite IH, orb_false_r.
  unfold upperLetterReg. cbn [matchHere nullable deriv andb orb mkConcat mkAlternate].
  apply matchHere_NoMatch.
Qed.

(** The compiled pattern accepts exactly the spec's valid methods. *)
Lemma MatchString_upperLetterReg (s : string) :
  MatchString upperLetterReg s = upperLetters s.
Proof.
  unfold MatchString, upperLetters.
  destruct (list_ascii_of_string s) as [|c l] eqn:E; [reflexivity|].
  cbn [search]. rewrite search_upperLetterReg_later, orb_false_r.
  apply matchHere_upperLetterReg_start.
Qed.

(** [strings.Contains] with a one-byte pattern looks for that byte. *)
Lemma Contains_char (s : string) (c : ascii) :
  Contains s (String c "") = existsb (Ascii.eqb c) (list_ascii_of_string s).
Proof.
  induction s as [|b s IH]; [reflexivity|].
  cbn [Contains String.prefix list_ascii_of_string existsb]. rewrite IH. f_equal.
  destruct (ascii_dec c b) as [->|Hne].
  - rewrite Ascii.eqb_refl. now destruct s.
  - apply Ascii.eqb_neq in Hne. now rewrite Hne.
Qed.

Lemma Contains_reserved (s : string) :
  Contains s ":" || Contains s "*" = hasReservedChar s.
Proof.
  rewrite !Contains_char. unfold hasReservedChar.
  induction (list_ascii_of_string s) as [|c l IH]; [reflexivity|].
  cbn [existsb]. rewrite <- IH.
  rewrite (Ascii.eqb_sym ":" c), (Ascii.eqb_sym "*" c).
  destruct (Ascii.eqb c ":"), (Ascii.eqb c "*"), (existsb (Ascii.eqb ":") l),
    (existsb (Ascii.eqb "*") l); reflexivity.
Qed.

(* ===================================================================== *)
(** * Slices and the heap *)
(* ===================================================================== *)

Section RouteFacts.
Context `{RouteEnv}.

Lemma bind_run {W A B} (m : Prog W A) (k : A -> Prog W B) (w : W) :
  (m ≫= k) w =
  match m w with
  | (Ret a, w') => k a w'
  | (Panic msg, w') => (Panic msg, w')
  end.
Proof. reflexivity. Qed.

Lemma sliceOK_inv (h : list (list HandlerFunc)) (s : Slice) :
  sliceOK h s = true ->
  len s <= cap s /\
  (cap s = 0 \/ exists a, h !! arr s = Some a /\ off s + cap s <= length a).
Proof.
  unfold sliceOK. intros Hok. apply andb_true_iff in Hok as [Hl Hc].
  apply Nat.leb_le in Hl. split; [exact Hl|].
  apply orb_true_iff in Hc as [Hc|Hc].
  - left. now apply Nat.eqb_eq.
  - right. destruct (h !! arr s) as [a|]; [|discriminate].
    exists a. split; [reflexivity | now apply Nat.leb_le].
Qed.

(** A fitting slice has as many elements as its length says. *)
Lemma sliceData_length (h : list (list HandlerFunc)) (s : Slice) :
  sliceOK h s = true -> length (sliceData h s) = len s.
Proof.
  intros Hok. apply sliceOK_inv in Hok as [Hl [Hc|(a & Ha & Hb)]]; unfold sliceData.
  - replace (len s) with 0 by lia. reflexivity.
  - rewrite Ha. simpl. rewrite length_take, length_drop. lia.
Qed.

(** Allocating leaves fitting slices and their elements as they were. *)
Lemma sliceOK_alloc (h h' : list (list HandlerFunc)) (s : Slice) :
  sliceOK h s = true -> sliceOK (h ++ h') s = true.
Proof.
  intros Hok. destruct (sliceOK_inv _ _ Hok) as [Hl [Hc|(a & Ha & Hb)]]; unfold sliceOK.
  - apply Nat.leb_le in Hl. apply Nat.eqb_eq in Hc. now rewrite Hl, Hc.
  - rewrite (lookup_app_l_Some _ _ _ _ Ha).
    apply Nat.leb_le in Hl, Hb. rewrite Hl, Hb. apply orb_true_r.
Qed.

Lemma sliceData_alloc (h h' : list (list HandlerFunc)) (s : Slice) :
  sliceOK h s = true -> sliceData (h ++ h') s = sliceData h s.
Proof.
  intros Hok. destruct (sliceOK_inv _ _ Hok) as [Hl [Hc|(a & Ha & Hb)]]; unfold sliceData.
  - replace (len s) with 0 by lia. reflexivity.
  - now rewrite (lookup_app_l_Some _ _ _ _ Ha), Ha.
Qed.

(** Writing to another array leaves a slice's elements as they were. *)
Lemma sliceData_alter_ne (h : list (list HandlerFunc)) (s : Slice) f (i : nat) :
  i <> arr s -> sliceData (alter f i h) s = sliceData h s.
Proof. intros Hne. unfold sliceData. now rewrite list_lookup_alter_ne. Qed.

Lemma writeAt_length (pos : nat) (xs a : list HandlerFunc) :
  pos + length xs <= length a -> length (writeAt pos xs a) = length a.
Proof.
  intros Hle. unfold writeAt.
  rewrite !length_app, length_take, length_drop. lia.
Qed.

(** The array [combineHandlers] fills: the old chain, then the new handlers. *)
Lemma merged_array (old hs : list HandlerFunc) :
  writeAt (length old) (take (Nat.min (length old + length hs - length old) (length hs)) hs)
    (writeAt 0 (take (Nat.min (length old + length hs) (length old)) old)
       (replicate (length old + length hs) nilHandler)) = old ++ hs.
Proof.
  replace (length old + length hs - length old) with (length hs) by lia.
  rewrite Nat.min_id, (take_ge hs) by lia.
  rewrite (take_ge old) by lia.
  unfold writeAt at 2. rewrite take_0, Nat.add_0_l, drop_replicate. simpl.
  replace (length old + length hs - length old) with (length hs) by lia.
  unfold writeAt. rewrite take_app_length.
  rewrite drop_app_add, drop_ge by (rewrite length_replicate; lia).
  now rewrite app_nil_r.
Qed.

Lemma getGroup_run (w : World) (g : nat) (grp : RouterGroup) :
  groups w !! g = Some grp -> getGroup g w = (Ret grp, w).
Proof. intros Hg. unfold getGroup. now rewrite Hg. Qed.

Lemma getGroup_nil (w : World) (g : nat) :
  groups w !! g = None ->
  getGroup g w = (Panic "invalid memory address or nil pointer dereference", w).
Proof. intros Hg. unfold getGroup. now rewrite Hg. Qed.

(** What [combineHandlers] does, for a group whose chain fits its array. *)
Lemma combineHandlers_run (w : World) (g : nat) (grp : RouterGroup)
    (hs : list HandlerFunc) :
  groups w !! g = Some grp ->
  sliceOK (heap w) (Handlers grp) = true ->
  let n := len (Handlers grp) + length hs in
  combineHandlers g hs w =
  if (AbortIndex <=? Z.of_nat n)%Z then (Panic "too many handlers", w)
  else (Ret (mkSlice (length (heap w)) 0 n n),
        withHeap w (heap w ++ [sliceData (heap w) (Handlers grp) ++ hs])).
Proof.
  intros Hg Hok n. unfold combineHandlers.
  rewrite bind_run, (getGroup_run _ _ _ Hg). fold n.
  destruct (AbortIndex <=? Z.of_nat n)%Z; [reflexivity|].
  pose proof (sliceData_length _ _ Hok) as Hlen.
  unfold make, readSlice, reads, sliceFrom, copy, withHeap.
  rewrite !bind_run. cbn [heap groups routes arr off len cap].
  rewrite sliceData_alloc by exact Hok.
  assert ((len (Handlers grp) <=? n) = true) as -> by (apply Nat.leb_le; unfold n; lia).
  unfold mret, Prog_ret. rewrite !bind_run. cbn [heap groups routes arr off len cap].
  f_equal. f_equal.
  rewrite <- (Nat.add_0_r (length (heap w))), !alter_app_r. cbn [alter list_alter].
  rewrite Nat.add_0_l. unfold n. rewrite <- Hlen at 1 2 3 4 5.
  now rewrite merged_array.
Qed.

Lemma calculateAbsolutePath_run (w : World) (g : nat) (grp : RouterGroup) (p : string) :
  groups w !! g = Some grp ->
  calculateAbsolutePath g p w = (Ret (composedPath (basePath grp) p), w).
Proof.
  intros Hg. unfold calculateAbsolutePath.
  rewrite bind_run, (getGroup_run _ _ _ Hg). unfold liftRes.
  now rewrite joinPaths_composedPath.
Qed.

Lemma returnObj_run (w : World) (g : nat) (grp : RouterGroup) :
  groups w !! g = Some grp ->
  returnObj g w = (Ret (if root grp then TheEngine (engine grp) else TheGroup g), w).
Proof.
  intros Hg. unfold returnObj. rewrite bind_run, (getGroup_run _ _ _ Hg).
  now destruct (root grp).
Qed.

(** What [handle] does: one array allocated, one route added. *)
Lemma handle_run (w : World) (g : nat) (grp : RouterGroup) (method p : string)
    (hs : list HandlerFunc) :
  groups w !! g = Some grp ->
  sliceOK (heap w) (Handlers grp) = true ->
  let n := len (Handlers grp) + length hs in
  handle g method p hs w =
  if (AbortIndex <=? Z.of_nat n)%Z then (Panic "too many handlers", w)
  else (Ret (if root grp then TheEngine (engine grp) else TheGroup g),
        mkWorld (heap w ++ [sliceData (heap w) (Handlers grp) ++ hs])
          (groups w)
          (routes w ++ [mkRoute (engine grp) method (composedPath (basePath grp) p)
                          (mkSlice (length (heap w)) 0 n n)])).
Proof.
  intros Hg Hok n. unfold handle.
  rewrite bind_run, (calculateAbsolutePath_run _ _ _ _ Hg).
  rewrite bind_run, (combineHandlers_run _ _ _ _ Hg Hok). fold n.
  destruct (AbortIndex <=? Z.of_nat n)%Z; [reflexivity|].
  rewrite bind_run, getGroup_run with (grp := grp) by exact Hg.
  rewrite bind_run. unfold addRoute, withRoutes, withHeap.
  cbn [heap groups routes].
  now rewrite returnObj_run with (grp := grp) by exact Hg.
Qed.

(** What [Group] does: one array allocated, one group added. *)
Lemma Group_run (w : World) (g : nat) (grp : RouterGroup) (p : string)
    (hs : list HandlerFunc) :
  groups w !! g = Some grp ->
  sliceOK (heap w) (Handlers grp) = true ->
  let n := len (Handlers grp) + length hs in
  Group g p hs w =
  if (AbortIndex <=? Z.of_nat n)%Z then (Panic "too many handlers", w)
  else (Ret (length (groups w)),
        mkWorld (heap w ++ [sliceData (heap w) (Handlers grp) ++ hs])
          (groups w ++ [mkRouterGroup (mkSlice (length (heap w)) 0 n n)
                          (composedPath (basePath grp) p) (engine grp) false])
          (routes w)).
Proof.
  intros Hg Hok n. unfold Group.
  rewrite bind_run, (combineHandlers_run _ _ _ _ Hg Hok). fold n.
  destruct (AbortIndex <=? Z.of_nat n)%Z; [reflexivity|].
  rewrite bind_run, calculateAbsolutePath_run with (grp := grp) by exact Hg.
  rewrite bind_run, getGroup_run with (grp := grp) by exact Hg.
  reflexivity.
Qed.

Lemma worldOK_inv (w : World) :
  worldOK w = true ->
  (forall grp, In grp (groups w) -> sliceOK (heap w) (Handlers grp) = true) /\
  (forall r, In r (routes w) -> sliceOK (heap w) (routeHandlers r) = true).
Proof.
  unfold worldOK. intros Hw. apply andb_true_iff in Hw as [Hg Hr].
  split; [exact (proj1 (forallb_forall _ _) Hg) | exact (proj1 (forallb_forall _ _) Hr)].
Qed.

Lemma worldOK_intro (w : World) :
  (forall grp, In grp (groups w) -> sliceOK (heap w) (Handlers grp) = true) ->
  (forall r, In r (routes w) -> sliceOK (heap w) (routeHandlers r) = true) ->
  worldOK w = true.
Proof.
  intros Hg Hr. unfold worldOK. apply andb_true_iff.
  split; apply forallb_forall; assumption.
Qed.

Lemma worldOK_group (w : World) (g : nat) (grp : RouterGroup) :
  worldOK w = true -> groups w !! g = Some grp ->
  sliceOK (heap w) (Handlers grp) = true.
Proof.
  intros Hw Hg. apply (proj1 (worldOK_inv w Hw)).
  apply list_elem_of_In, list_elem_of_lookup. now exists g.
Qed.

Lemma chainOf_group (w : World) (g : nat) (grp : RouterGroup) :
  groups w !! g = Some grp -> chainOf w g = sliceData (heap w) (Handlers grp).
Proof. intros Hg. unfold chainOf. now rewrite Hg. Qed.

(** The elements of a slice that covers a newly allocated array. *)
Lemma sliceData_new (h : list (list HandlerFunc)) (x : list HandlerFunc) (n : nat) :
  n = length x -> sliceData (h ++ [x]) (mkSlice (length h) 0 n n) = x.
Proof.
  intros ->. unfold sliceData. cbn [arr off len].
  rewrite lookup_app_r by (apply Nat.le_refl).
  rewrite Nat.sub_diag. simpl. now rewrite take_ge by (apply Nat.le_refl).
Qed.

Lemma sliceOK_new (h : list (list HandlerFunc)) (x : list HandlerFunc) (n : nat) :
  n = length x -> sliceOK (h ++ [x]) (mkSlice (length h) 0 n n) = true.
Proof.
  intros ->. unfold sliceOK. cbn [arr off len cap].
  rewrite lookup_app_r by (apply Nat.le_refl).
  rewrite Nat.sub_diag. simpl.
  rewrite Nat.leb_refl. apply orb_true_r.
Qed.

(** Reading the old routes through a heap that only grew. *)
Lemma routeTable_alloc (w : World) (h' : list (list HandlerFunc)) (rs : list Route) :
  worldOK w = true ->
  map (routeView (mkWorld (heap w ++ h') (groups w) rs)) (routes w) = routeTable w.
Proof.
  intros Hw. unfold routeTable. apply map_ext_in. intros r Hr.
  unfold routeView. cbn [heap]. f_equal.
  apply sliceData_alloc, (proj2 (worldOK_inv w Hw)), Hr.
Qed.

(** Well-formedness after an allocation, with a route or a group added
    whose chain fits the grown heap. *)
Lemma worldOK_alloc_route (w : World) (x : list HandlerFunc) (r : Route) :
  worldOK w = true ->
  sliceOK (heap w ++ [x]) (routeHandlers r) = true ->
  worldOK (mkWorld (heap w ++ [x]) (groups w) (routes w ++ [r])) = true.
Proof.
  intros Hw Hr. apply worldOK_intro; cbn [heap groups routes].
  - intros grp' Hin. apply sliceOK_alloc, (proj1 (worldOK_inv w Hw)), Hin.
  - intros r' Hin. apply in_app_iff in Hin as [Hin|[<-|[]]].
    + apply sliceOK_alloc, (proj2 (worldOK_inv w Hw)), Hin.
    + exact Hr.
Qed.

Lemma worldOK_alloc_group (w : World) (x : list HandlerFunc) (grp : RouterGroup) :
  worldOK w = true ->
  sliceOK (heap w ++ [x]) (Handlers grp) = true ->
  worldOK (mkWorld (heap w ++ [x]) (groups w ++ [grp]) (routes w)) = true.
Proof.
  intros Hw Hr. apply worldOK_intro; cbn [heap groups routes].
  - intros grp' Hin. apply in_app_iff in Hin as [Hin|[<-|[]]].
    + apply sliceOK_alloc, (proj1 (worldOK_inv w Hw)), Hin.
    + exact Hr.
  - intros r' Hin. apply sliceOK_alloc, (proj2 (worldOK_inv w Hw)), Hin.
Qed.

(** One successful [handle]: the route it adds and what it leaves alone. *)
Lemma handle_step (w : World) (g : nat) (grp : RouterGroup) (method p : string)
    (hs : list HandlerFunc) :
  worldOK w = true ->
  groups w !! g = Some grp ->
  (Z.of_nat (length (chainOf w g) + length hs) < AbortIndex)%Z ->
  exists w',
    handle g method p hs w =
      (Ret (if root grp then TheEngine (engine grp) else TheGroup g), w') /\
    worldOK w' = true /\
    groups w' = groups w /\
    chainOf w' g = chainOf w g /\
    routeTable w' =
      routeTable w ++ [(method, composedPath (basePath grp) p, chainOf w g ++ hs)].
Proof.
  intros Hw Hg Hlim.
  pose proof (worldOK_group _ _ _ Hw Hg) as Hok.
  pose proof (sliceData_length _ _ Hok) as Hlen.
  rewrite (chainOf_group _ _ _ Hg) in *.
  rewrite (handle_run _ _ _ _ _ _ Hg Hok). cbv zeta.
  rewrite Hlen in Hlim.
  destruct (AbortIndex <=? _)%Z eqn:E; [apply Z.leb_le in E; lia|].
  eexists. split; [reflexivity|].
  assert (length (sliceData (heap w) (Handlers grp) ++ hs)
          = len (Handlers grp) + length hs) as Hn by (rewrite length_app; lia).
  split; [|split; [reflexivity|split]].
  - apply worldOK_alloc_route; [exact Hw | now apply sliceOK_new].
  - unfold chainOf. cbn [heap groups]. rewrite Hg. now apply sliceData_alloc.
  - unfold routeTable at 1. cbn [routes]. rewrite map_app.
    rewrite routeTable_alloc by exact Hw. f_equal.
    cbn [map]. unfold routeView. cbn [heap routeMethod routePath routeHandlers].
    now rewrite sliceData_new.
Qed.

End RouteFacts.

(* ===================================================================== *)
(** * Chain composition and registration *)
(* ===================================================================== *)

Section RouteClaims.
Context `{RouteEnv}.

(** C3. Combining an existing chain with additional handlers panics with
    [too many handlers] if and only if the two lengths add up to at least
    [AbortIndex], and then changes nothing; strictly below the limit it
    returns a slice of exactly the total length, over a newly allocated
    array, that holds the existing chain followed by the additional
    handlers, and leaves every older array, the groups and the routes as
    they were. *)
Theorem combineHandlers_limit (w : World) (g : nat) (grp : RouterGroup)
    (additional : list HandlerFunc) :
  groups w !! g = Some grp ->
  sliceOK (heap w) (Handlers grp) = true ->
  let existing := sliceData (heap w) (Handlers grp) in
  let total := length existing + length additional in
  (panics (combineHandlers g additional w).1 = true <->
   (AbortIndex <= Z.of_nat total)%Z) /\
  ((AbortIndex <= Z.of_nat total)%Z ->
   combineHandlers g additional w = (Panic "too many handlers", w)) /\
  ((Z.of_nat total < AbortIndex)%Z ->
   exists merged w',
     combineHandlers g additional w = (Ret merged, w') /\
     sliceData (heap w') merged = existing ++ additional /\
     len merged = total /\
     heap w !! arr merged = None /\
     heap w' = heap w ++ [existing ++ additional] /\
     groups w' = groups w /\
     routes w' = routes w).
Proof.
  intros Hg Hok existing total.
  pose proof (sliceData_length _ _ Hok) as Hlen.
  rewrite (combineHandlers_run _ _ _ _ Hg Hok). cbv zeta.
  assert (len (Handlers grp) + length additional = total) as ->
    by (unfold total, existing; lia).
  destruct (AbortIndex <=? Z.of_nat total)%Z eqn:E.
  - apply Z.leb_le in E. split; [|split].
    + simpl. split; [intros _; exact E | reflexivity].
    + reflexivity.
    + lia.
  - apply Z.leb_gt in E. split; [|split].
    + simpl. split; [discriminate | lia].
    + lia.
    + intros _. eexists _, _. split; [reflexivity|].
      cbn [heap groups routes withHeap arr len].
      assert (total = length (existing ++ additional)) as Htot
        by (rewrite length_app; reflexivity).
      repeat split.
      * now apply sliceData_new.
      * apply lookup_ge_None_2. lia.
Qed.

(** A run of calls of [handle] on one group, below the limit: one route
    per method, in order, all at the same path with the same chain. *)
Lemma handle_sequence (g : nat) (grp : RouterGroup) (p : string)
    (hs : list HandlerFunc) (methods : list string) (w : World) :
  worldOK w = true ->
  groups w !! g = Some grp ->
  (Z.of_nat (length (chainOf w g) + length hs) < AbortIndex)%Z ->
  exists w',
    foldr (fun method k => handle g method p hs ;; k) (returnObj g) methods w =
      (Ret (if root grp then TheEngine (engine grp) else TheGroup g), w') /\
    worldOK w' = true /\
    groups w' = groups w /\
    chainOf w' g = chainOf w g /\
    routeTable w' =
      routeTable w ++
      map (fun method => (method, composedPath (basePath grp) p, chainOf w g ++ hs))
        methods.
Proof.
  revert w. induction methods as [|m ms IH]; intros w Hw Hg Hl.
  - exists w. cbn [foldr map]. rewrite (returnObj_run _ _ _ Hg), app_nil_r. auto.
  - cbn [foldr map]. rewrite bind_run.
    destruct (handle_step w g grp m p hs Hw Hg Hl) as (w1 & -> & Hw1 & Hg1 & Hc1 & Hr1).
    destruct (IH w1) as (w' & Hrun & Hw' & Hg' & Hc' & Hr').
    + exact Hw1.
    + now rewrite Hg1.
    + now rewrite Hc1.
    + exists w'. split; [exact Hrun|]. split; [exact Hw'|].
      split; [congruence|]. split; [congruence|].
      rewrite Hr', Hr1, Hc1, <- app_assoc. reflexivity.
Qed.

(** C4 (amended). When the group's chain and the handlers together stay
    below [AbortIndex], [Any] performs exactly nine registrations, one per
    method GET, POST, PUT, PATCH, HEAD, OPTIONS, DELETE, CONNECT, TRACE in
    that order, all at the absolute path [joinPaths] gives and all with the
    group's chain followed by the handlers. *)
Theorem Any_registers (w : World) (g : nat) (grp : RouterGroup) (p : string)
    (hs : list HandlerFunc) :
  worldOK w = true ->
  groups w !! g = Some grp ->
  (Z.of_nat (length (chainOf w g) + length hs) < AbortIndex)%Z ->
  exists path w',
    joinPaths (basePath grp) p = Ret path /\
    Any g p hs w = (Ret (if root grp then TheEngine (engine grp) else TheGroup g), w') /\
    length (routes w') = length (routes w) + 9 /\
    routeTable w' =
      routeTable w ++
      map (fun method => (method, path, chainOf w g ++ hs))
        ["GET"; "POST"; "PUT"; "PATCH"; "HEAD"; "OPTIONS"; "DELETE"; "CONNECT"; "TRACE"].
Proof.
  intros Hw Hg Hl.
  destruct (handle_sequence g grp p hs
              ["GET"; "POST"; "PUT"; "PATCH"; "HEAD"; "OPTIONS"; "DELETE"; "CONNECT"; "TRACE"]
              w Hw Hg Hl) as (w' & Hrun & _ & _ & _ & Hr).
  exists (composedPath (basePath grp) p), w'.
  split; [apply joinPaths_composedPath|]. split; [exact Hrun|]. split; [|exact Hr].
  apply (f_equal (@length _)) in Hr. unfold routeTable in Hr.
  rewrite length_app, !length_map in Hr. exact Hr.
Qed.

(** The first component of what [handle] returns, whatever the heap holds. *)
Lemma handle_outcome (w : World) (g : nat) (method p : string) (hs : list HandlerFunc) :
  (handle g method p hs w).1 =
  match groups w !! g with
  | None => Panic "invalid memory address or nil pointer dereference"
  | Some grp =>
      if (AbortIndex <=? Z.of_nat (len (Handlers grp) + length hs))%Z
      then Panic "too many handlers"
      else Ret (if root grp then TheEngine (engine grp) else TheGroup g)
  end.
Proof.
  unfold handle. rewrite bind_run.
  destruct (groups w !! g) as [grp|] eqn:Hg.
  - rewrite (calculateAbsolutePath_run _ _ _ _ Hg), bind_run.
    unfold combineHandlers. rewrite bind_run, (getGroup_run _ _ _ Hg).
    destruct (AbortIndex <=? _)%Z; [reflexivity|].
    unfold make, readSlice, reads, sliceFrom, copy, withHeap.
    rewrite !bind_run. cbn [heap groups routes arr off len cap].
    assert ((len (Handlers grp) <=? len (Handlers grp) + length hs) = true) as ->
      by (apply Nat.leb_le; lia).
    unfold mret, Prog_ret. rewrite !bind_run. cbn [heap groups routes arr off len cap].
    rewrite getGroup_run with (grp := grp) by exact Hg.
    rewrite bind_run.
    unfold addRoute, withRoutes. cbn [heap groups routes].
    now rewrite returnObj_run with (grp := grp) by exact Hg.
  - unfold calculateAbsolutePath. rewrite bind_run, (getGroup_nil _ _ Hg). reflexivity.
Qed.

(** C6 (amended). [Handle] panics with its invalid-method message, before
    doing anything, if and only if the method is not one or more uppercase
    ASCII letters; for a valid method it is exactly one call of the internal
    [handle] (whose own panic, when the chain reaches [AbortIndex], it passes
    on). *)
Theorem Handle_method_check (w : World) (g : nat) (method p : string)
    (hs : list HandlerFunc) :
  MatchString upperLetterReg method = upperLetters method /\
  (upperLetters method = false ->
   Handle g method p hs w = (Panic ("http method " +:+ method +:+ " is not valid"), w)) /\
  (upperLetters method = true ->
   Handle g method p hs w = handle g method p hs w) /\
  ((Handle g method p hs w).1 = Panic ("http method " +:+ method +:+ " is not valid") <->
   upperLetters method = false).
Proof.
  split; [apply MatchString_upperLetterReg|].
  unfold Handle. rewrite MatchString_upperLetterReg.
  destruct (upperLetters method) eqn:E; cbn [negb].
  - split; [discriminate|]. split; [reflexivity|].
    split; [|discriminate]. rewrite handle_outcome.
    destruct (groups w !! g) as [grp|]; [|discriminate].
    destruct (AbortIndex <=? _)%Z; discriminate.
  - split; [reflexivity|]. split; [discriminate|]. split; reflexivity.
Qed.

(** The two registrations of a static route, below the limit. *)
Lemma GET_HEAD_run (w : World) (g : nat) (grp : RouterGroup) (p : string)
    (handler : HandlerFunc) :
  worldOK w = true ->
  groups w !! g = Some grp ->
  (Z.of_nat (length (chainOf w g) + 1) < AbortIndex)%Z ->
  exists w',
    (GET g p [handler];; HEAD g p [handler];; returnObj g) w =
      (Ret (if root grp then TheEngine (engine grp) else TheGroup g), w') /\
    routeTable w' =
      routeTable w ++
      [("GET", composedPath (basePath grp) p, chainOf w g ++ [handler]);
       ("HEAD", composedPath (basePath grp) p, chainOf w g ++ [handler])].
Proof.
  intros Hw Hg Hl.
  destruct (handle_sequence g grp p [handler] ["GET"; "HEAD"] w Hw Hg Hl)
    as (w' & Hrun & _ & _ & _ & Hr).
  exists w'. split; [exact Hrun | exact Hr].
Qed.

(** C7 (amended). For a relative path that contains [:] or [*],
    [StaticFile], [Static] and [StaticFS] each panic before registering
    anything.  For a relative path without them, and a group whose chain
    with one more handler stays below [AbortIndex], each returns and
    registers exactly the two methods GET and HEAD, at the mounted path and
    with the group's chain followed by the serving handler. *)
Theorem static_routes (w : World) (g : nat) (grp : RouterGroup)
    (p filepath rootDir : string) (fs : FS) :
  worldOK w = true ->
  groups w !! g = Some grp ->
  (hasReservedChar p = true ->
   StaticFile g p filepath w =
     (Panic "URL parameters can not be used when serving a static file", w) /\
   StaticFS g p fs w =
     (Panic "URL parameters can not be used when serving a static folder", w) /\
   Static g p rootDir w =
     (Panic "URL parameters can not be used when serving a static folder", w)) /\
  (hasReservedChar p = false ->
   (Z.of_nat (length (chainOf w g) + 1) < AbortIndex)%Z ->
   let obj := if root grp then TheEngine (engine grp) else TheGroup g in
   exists filePath dirPath,
     joinPaths (basePath grp) p = Ret filePath /\
     joinPaths (basePath grp) (Join [p; "/*filepath"]) = Ret dirPath /\
     (exists w',
        StaticFile g p filepath w = (Ret obj, w') /\
        routeTable w' =
          routeTable w ++
          [("GET", filePath, chainOf w g ++ [fileHandler filepath]);
           ("HEAD", filePath, chainOf w g ++ [fileHandler filepath])]) /\
     (exists w',
        StaticFS g p fs w = (Ret obj, w') /\
        routeTable w' =
          routeTable w ++
          [("GET", dirPath, chainOf w g ++ [NewRequestHandler fs]);
           ("HEAD", dirPath, chainOf w g ++ [NewRequestHandler fs])]) /\
     (exists w',
        Static g p rootDir w = (Ret obj, w') /\
        routeTable w' =
          routeTable w ++
          [("GET", dirPath, chainOf w g ++ [NewRequestHandler (fsWithRoot rootDir)]);
           ("HEAD", dirPath, chainOf w g ++ [NewRequestHandler (fsWithRoot rootDir)])])).
Proof.
  intros Hw Hg. unfold Static, StaticFile, StaticFS. rewrite Contains_reserved.
  split; intros ->; cbn [orb].
  - split; [reflexivity | split; reflexivity].
  - intros Hl.
    exists (composedPath (basePath grp) p),
      (composedPath (basePath grp) (Join [p; "/*filepath"])).
    split; [apply joinPaths_composedPath|]. split; [apply joinPaths_composedPath|].
    split; [|split]; now apply GET_HEAD_run.
Qed.

End RouteClaims.

(* ===================================================================== *)
(** * Chains do not share storage *)
(* ===================================================================== *)

Section Frame.
Context `{RouteEnv}.

Lemma preserves_bind {A B} (I : World -> Prop) (m : Prog World A) (k : A -> Prog World B) :
  preserves I m -> (forall a, preserves I (k a)) -> preserves I (m ≫= k).
Proof.
  intros Hm Hk w Hw. rewrite bind_run. specialize (Hm w Hw).
  destruct (m w) as [[a|msg] w']; cbn [snd] in *; [now apply Hk | exact Hm].
Qed.

Lemma preserves_ret {A} (I : World -> Prop) (a : A) : preserves I (mret a).
Proof. intros w Hw. exact Hw. Qed.

Lemma preserves_panic {A} (I : World -> Prop) (msg : string) :
  preserves I (panic msg : Prog World A).
Proof. intros w Hw. exact Hw. Qed.

Lemma preserves_returnObj (I : World -> Prop) (g : nat) : preserves I (returnObj g).
Proof.
  intros w Hw. unfold returnObj, getGroup. rewrite bind_run.
  destruct (groups w !! g) as [grp|]; [|exact Hw]. now destruct (root grp).
Qed.

Lemma sliceOK_arr_allocated (h : list (list HandlerFunc)) (s : Slice) :
  sliceOK h s = true -> cap s <> 0 -> arr s < length h.
Proof.
  intros Hok Hcap. apply sliceOK_inv in Hok as [_ [Hc|(a & Ha & _)]]; [congruence|].
  now apply lookup_lt_Some in Ha.
Qed.

Lemma sliceData_empty (h : list (list HandlerFunc)) (s : Slice) :
  len s = 0 -> sliceData h s = [].
Proof. intros Hl. unfold sliceData. now rewrite Hl. Qed.

(** Allocating an array and adding a route keeps a group's ownership. *)
Lemma ownsChain_alloc_route (c : nat) (data x : list HandlerFunc) (w : World) (r : Route) :
  ownsChain c data w ->
  sliceOK (heap w ++ [x]) (routeHandlers r) = true ->
  ownsChain c data (mkWorld (heap w ++ [x]) (groups w) (routes w ++ [r])).
Proof.
  intros (Hw & gc & Hc & Hdata & Hpriv) Hr. split; [now apply worldOK_alloc_route|].
  exists gc. cbn [heap groups]. split; [exact Hc|]. split; [|exact Hpriv].
  rewrite sliceData_alloc; [exact Hdata | exact (worldOK_group _ _ _ Hw Hc)].
Qed.

(** Allocating an array for the chain of a new group keeps it too. *)
Lemma ownsChain_alloc_group (c : nat) (data x : list HandlerFunc) (w : World)
    (grp : RouterGroup) :
  ownsChain c data w ->
  sliceOK (heap w ++ [x]) (Handlers grp) = true ->
  arr (Handlers grp) = length (heap w) ->
  ownsChain c data (mkWorld (heap w ++ [x]) (groups w ++ [grp]) (routes w)).
Proof.
  intros (Hw & gc & Hc & Hdata & Hpriv) Hr Harr. split; [now apply worldOK_alloc_group|].
  pose proof (worldOK_group _ _ _ Hw Hc) as Hok.
  exists gc. cbn [heap groups]. split; [now apply lookup_app_l_Some|]. split.
  - now rewrite sliceData_alloc.
  - intros Hcap a ga Hac Ha Hcapa.
    apply lookup_app_Some in Ha as [Ha|[_ Ha]].
    + now apply (Hpriv Hcap a ga).
    + apply list_lookup_singleton_Some in Ha as [_ <-].
      rewrite Harr. pose proof (sliceOK_arr_allocated _ _ Hok Hcap). lia.
Qed.

Lemma handle_nil (w : World) (g : nat) (method p : string) (hs : list HandlerFunc) :
  groups w !! g = None ->
  handle g method p hs w =
  (Panic "invalid memory address or nil pointer dereference", w).
Proof.
  intros Hg. unfold handle, calculateAbsolutePath.
  now rewrite !bind_run, (getGroup_nil _ _ Hg).
Qed.

Lemma Group_nil (w : World) (g : nat) (p : string) (hs : list HandlerFunc) :
  groups w !! g = None ->
  Group g p hs w = (Panic "invalid memory address or nil pointer dereference", w).
Proof.
  intros Hg. unfold Group, combineHandlers.
  now rewrite !bind_run, (getGroup_nil _ _ Hg).
Qed.

Lemma merged_length (w : World) (grp : RouterGroup) (hs : list HandlerFunc) :
  sliceOK (heap w) (Handlers grp) = true ->
  len (Handlers grp) + length hs = length (sliceData (heap w) (Handlers grp) ++ hs).
Proof. intros Hok. rewrite length_app, (sliceData_length _ _ Hok). reflexivity. Qed.

(** [handle], on any group, keeps every group's ownership of its chain. *)
Lemma handle_preserves (c : nat) (data : list HandlerFunc) (g : nat) (method p : string)
    (hs : list HandlerFunc) :
  preserves (ownsChain c data) (handle g method p hs).
Proof.
  intros w Hown. destruct (groups w !! g) as [grp|] eqn:Hg.
  - pose proof (worldOK_group _ _ _ (proj1 Hown) Hg) as Hok.
    rewrite (handle_run _ _ _ _ _ _ Hg Hok). cbv zeta.
    destruct (AbortIndex <=? _)%Z; [exact Hown|]. cbn [snd].
    apply ownsChain_alloc_route; [exact Hown|].
    cbn [routeHandlers]. apply sliceOK_new, merged_length, Hok.
  - now rewrite (handle_nil _ _ _ _ _ Hg).
Qed.

(** So does [Group]. *)
Lemma Group_preserves (c : nat) (data : list HandlerFunc) (g : nat) (p : string)
    (hs : list HandlerFunc) :
  preserves (ownsChain c data) (Group g p hs).
Proof.
  intros w Hown. destruct (groups w !! g) as [grp|] eqn:Hg.
  - pose proof (worldOK_group _ _ _ (proj1 Hown) Hg) as Hok.
    rewrite (Group_run _ _ _ _ _ Hg Hok). cbv zeta.
    destruct (AbortIndex <=? _)%Z; [exact Hown|]. cbn [snd].
    apply ownsChain_alloc_group; [exact Hown| |reflexivity].
    cbn [Handlers]. apply sliceOK_new, merged_length, Hok.
  - now rewrite (Group_nil _ _ _ _ Hg).
Qed.

Lemma sliceOK_alter_same_length (h : list (list HandlerFunc)) (s : Slice)
    (f : list HandlerFunc -> list HandlerFunc) (i : nat) (a : list HandlerFunc) :
  h !! i = Some a -> length (f a) = length a ->
  sliceOK (alter f i h) s = sliceOK h s.
Proof.
  intros Ha Hf. unfold sliceOK. f_equal. f_equal.
  rewrite list_lookup_alter. destruct (decide (i = arr s)) as [<-|]; [|reflexivity].
  rewrite Ha. simpl. now rewrite Hf.
Qed.

(** The elements of a slice after an in-place write behind its end. *)
Lemma sliceData_written (a xs : list HandlerFunc) (o l : nat) :
  o + l + length xs <= length a ->
  take (l + length xs) (drop o (writeAt (o + l) xs a)) = take l (drop o a) ++ xs.
Proof.
  intros Hfit. unfold writeAt.
  rewrite drop_app_le by (rewrite length_take; lia).
  rewrite <- take_drop_commute.
  assert (length (take l (drop o a)) = l) as Hl
    by (rewrite length_take, length_drop; lia).
  rewrite take_app_add' by (symmetry; exact Hl).
  f_equal. rewrite take_app_length. reflexivity.
Qed.

(** What [append] does to a fitting slice and to the slices around it. *)
Lemma append_spec (w : World) (s : Slice) (xs : list HandlerFunc) :
  sliceOK (heap w) s = true ->
  exists s' h',
    append s xs w = (Ret s', withHeap w h') /\
    sliceOK h' s' = true /\
    sliceData h' s' = sliceData (heap w) s ++ xs /\
    (forall s0, sliceOK (heap w) s0 = true -> sliceOK h' s0 = true) /\
    (forall s0, sliceOK (heap w) s0 = true ->
       (cap s <> 0 -> cap s0 <> 0 -> arr s0 <> arr s) ->
       sliceData h' s0 = sliceData (heap w) s0) /\
    (cap s' <> 0 ->
     (arr s' = arr s /\ cap s <> 0) \/ arr s' = length (heap w)).
Proof.
  intros Hok. unfold append.
  destruct xs as [|x xs'].
  - exists s, (heap w). split; [now destruct w|].
    split; [exact Hok|]. split; [now rewrite app_nil_r|].
    split; [auto|]. split; [auto|].
    intros Hcap. left. now split.
  - set (xs := x :: xs'). set (n := len s + length xs).
    destruct (n <=? cap s) eqn:E.
    + apply Nat.leb_le in E.
      assert (cap s <> 0) as Hcap by (unfold n, xs in E; simpl in E; lia).
      destruct (sliceOK_inv _ _ Hok) as [Hl [Hc|(a & Ha & Hb)]]; [congruence|].
      assert (length (writeAt (off s + len s) xs a) = length a) as Hlen
        by (apply writeAt_length; unfold n in E; lia).
      eexists _, _. split; [reflexivity|].
      split; [|split; [|split; [|split]]].
      * rewrite (sliceOK_alter_same_length _ _ _ _ a Ha Hlen).
        unfold sliceOK. cbn [arr off len cap]. rewrite Ha.
        apply Nat.leb_le in E, Hb. now rewrite E, Hb, orb_true_r.
      * unfold sliceData at 1. cbn [arr off len].
        rewrite list_lookup_alter_eq, Ha. cbn [fmap option_fmap option_map default].
        unfold n, id. rewrite sliceData_written by (unfold n in E; lia).
        unfold sliceData. now rewrite Ha.
      * intros s0 Hs0. now rewrite (sliceOK_alter_same_length _ _ _ _ a Ha Hlen).
      * intros s0 Hs0 Hne.
        destruct (Nat.eq_dec (cap s0) 0) as [Hz|Hnz].
        -- apply sliceOK_inv in Hs0 as [Hl0 _].
           rewrite !sliceData_empty by lia. reflexivity.
        -- apply sliceData_alter_ne. intros Heq. now apply (Hne Hcap Hnz).
      * intros _. left. now split.
    + apply Nat.leb_gt in E.
      pose proof (sliceData_length _ _ Hok) as Hlen.
      set (c := Nat.max n (growCap (cap s) n)).
      set (a := sliceData (heap w) s ++ xs ++ replicate (c - n) nilHandler).
      assert (length a = c) as Ha.
      { unfold a. rewrite !length_app, length_replicate, Hlen. unfold n in *. lia. }
      exists (mkSlice (length (heap w)) 0 n c), (heap w ++ [a]).
      split; [reflexivity|]. split; [|split; [|split; [|split]]].
      * unfold sliceOK. cbn [arr off len cap].
        rewrite lookup_app_r by (apply Nat.le_refl). rewrite Nat.sub_diag. simpl.
        rewrite Ha, Nat.leb_refl, orb_true_r.
        assert ((n <=? c) = true) as -> by (apply Nat.leb_le; unfold c; lia).
        reflexivity.
      * unfold sliceData at 1. cbn [arr off len].
        rewrite lookup_app_r by (apply Nat.le_refl). rewrite Nat.sub_diag. simpl.
        unfold a. rewrite app_assoc. apply take_app_length'.
        rewrite length_app, Hlen. reflexivity.
      * intros s0 Hs0. now apply sliceOK_alloc.
      * intros s0 Hs0 _. now apply sliceData_alloc.
      * intros _. right. reflexivity.
Qed.

(** What [Use] does: the group's chain is appended to, in its own array or
    in a new one; the group keeps its path, engine and root flag. *)
Lemma Use_spec (w : World) (g : nat) (grp : RouterGroup) (mw : list HandlerFunc) :
  worldOK w = true ->
  groups w !! g = Some grp ->
  exists s' h',
    Use g mw w =
      (Ret (if root grp then TheEngine (engine grp) else TheGroup g),
       mkWorld h'
         (alter (fun grp' => mkRouterGroup s' (basePath grp') (engine grp') (root grp'))
            g (groups w))
         (routes w)) /\
    sliceOK h' s' = true /\
    sliceData h' s' = sliceData (heap w) (Handlers grp) ++ mw /\
    (forall s0, sliceOK (heap w) s0 = true -> sliceOK h' s0 = true) /\
    (forall s0, sliceOK (heap w) s0 = true ->
       (cap (Handlers grp) <> 0 -> cap s0 <> 0 -> arr s0 <> arr (Handlers grp)) ->
       sliceData h' s0 = sliceData (heap w) s0) /\
    (cap s' <> 0 ->
     (arr s' = arr (Handlers grp) /\ cap (Handlers grp) <> 0) \/
     arr s' = length (heap w)).
Proof.
  intros Hw Hg.
  destruct (append_spec w (Handlers grp) mw (worldOK_group _ _ _ Hw Hg))
    as (s' & h' & Happ & Hrest).
  exists s', h'. split; [|exact Hrest].
  unfold Use. rewrite bind_run, (getGroup_run _ _ _ Hg), bind_run, Happ, bind_run.
  unfold setHandlers, withGroups, withHeap. cbn [heap groups routes].
  unfold returnObj. rewrite bind_run. unfold getGroup. cbn [groups].
  rewrite list_lookup_alter_eq, Hg. cbn [fmap option_fmap option_map root engine].
  now destruct (root grp).
Qed.

Lemma Use_nil (w : World) (g : nat) (mw : list HandlerFunc) :
  groups w !! g = None ->
  Use g mw w = (Panic "invalid memory address or nil pointer dereference", w).
Proof. intros Hg. unfold Use. now rewrite bind_run, (getGroup_nil _ _ Hg). Qed.

Lemma In_alter {A} (f : A -> A) (i : nat) (l : list A) (x : A) :
  In x (alter f i l) -> In x l \/ exists y, l !! i = Some y /\ x = f y.
Proof.
  intros Hin. apply list_elem_of_In, list_elem_of_lookup in Hin as [j Hj].
  rewrite list_lookup_alter in Hj. destruct (decide (i = j)) as [<-|Hne].
  - right. destruct (l !! i) as [y|]; [|discriminate].
    exists y. split; [reflexivity|]. simpl in Hj. congruence.
  - left. apply list_elem_of_In, list_elem_of_lookup. now exists j.
Qed.

(** [Use] keeps the world well formed and appends to the group's chain. *)
Lemma Use_step (w : World) (g : nat) (grp : RouterGroup) (mw : list HandlerFunc) :
  worldOK w = true ->
  groups w !! g = Some grp ->
  exists w' s',
    Use g mw w = (Ret (if root grp then TheEngine (engine grp) else TheGroup g), w') /\
    worldOK w' = true /\
    groups w' !! g = Some (mkRouterGroup s' (basePath grp) (engine grp) (root grp)) /\
    chainOf w' g = chainOf w g ++ mw /\
    routes w' = routes w.
Proof.
  intros Hw Hg.
  destruct (Use_spec w g grp mw Hw Hg) as (s' & h' & -> & Hok' & Hdata & Hkeep & Hframe & _).
  eexists _, s'. split; [reflexivity|].
  assert (alter (fun grp' => mkRouterGroup s' (basePath grp') (engine grp') (root grp'))
            g (groups w) !! g
          = Some (mkRouterGroup s' (basePath grp) (engine grp) (root grp))) as Hg'
    by now rewrite list_lookup_alter_eq, Hg.
  split; [|split; [exact Hg'|split; [|reflexivity]]].
  - apply worldOK_intro; cbn [heap groups routes].
    + intros grp' Hin. apply In_alter in Hin as [Hin|(y & Hy & ->)].
      * apply Hkeep, (proj1 (worldOK_inv w Hw)), Hin.
      * exact Hok'.
    + intros r Hin. apply Hkeep, (proj2 (worldOK_inv w Hw)), Hin.
  - unfold chainOf at 1. cbn [heap groups]. rewrite Hg'. cbn [Handlers].
    now rewrite (chainOf_group _ _ _ Hg).
Qed.

(** [Use] on another group keeps a group's ownership of its chain. *)
Lemma Use_preserves (c : nat) (data : list HandlerFunc) (a : nat) (mw : list HandlerFunc) :
  a <> c -> preserves (ownsChain c data) (Use a mw).
Proof.
  intros Hac w Hown. destruct (groups w !! a) as [ga|] eqn:Ha;
    [|now rewrite (Use_nil _ _ _ Ha)].
  destruct Hown as (Hw & gc & Hc & Hdata & Hpriv).
  destruct (Use_step w a ga mw Hw Ha) as (w' & s'' & Hrun & Hw' & _).
  destruct (Use_spec w a ga mw Hw Ha) as (s' & h' & Hrun' & Hok' & _ & Hkeep & Hframe & Harr).
  rewrite Hrun in Hrun'. injection Hrun' as ->. rewrite Hrun. cbn [snd].
  split; [exact Hw'|]. pose proof (worldOK_group _ _ _ Hw Hc) as Hokc.
  exists gc. cbn [heap groups]. split; [|split].
  - now rewrite list_lookup_alter_ne.
  - rewrite Hframe; [exact Hdata | exact Hokc |].
    intros Hcapa Hcapc Heq. now apply (Hpriv Hcapc a ga).
  - intros Hcapc b gb Hbc Hb Hcapb.
    rewrite list_lookup_alter in Hb. destruct (decide (a = b)) as [<-|Hab].
    + rewrite Ha in Hb. simpl in Hb. injection Hb as <-. cbn [Handlers] in *.
      destruct (Harr Hcapb) as [[-> Hcapa] | ->].
      * now apply (Hpriv Hcapc a ga).
      * pose proof (sliceOK_arr_allocated _ _ Hokc Hcapc). lia.
    + now apply (Hpriv Hcapc b gb).
Qed.

(** No call other than [Use] on the group itself changes what it owns. *)
Lemma call_preserves (c : nat) (data : list HandlerFunc) (cl : Call) :
  isUseOn c cl = false -> preserves (ownsChain c data) (call cl).
Proof.
  intros Hcl. destruct cl as [g mw|g p hs|g m p hs|g p hs|g p f|g p fs]; cbn [call].
  - cbn [isUseOn] in Hcl. apply Nat.eqb_neq in Hcl.
    apply preserves_bind; [now apply Use_preserves | intros _; apply preserves_ret].
  - apply preserves_bind; [apply Group_preserves | intros _; apply preserves_ret].
  - apply preserves_bind; [|intros _; apply preserves_ret].
    unfold Handle. destruct (negb _); [apply preserves_panic | apply handle_preserves].
  - apply preserves_bind; [|intros _; apply preserves_ret].
    unfold Any.
    repeat (apply preserves_bind; [apply handle_preserves | intros _]).
    apply preserves_returnObj.
  - apply preserves_bind; [|intros _; apply preserves_ret].
    unfold StaticFile, GET, HEAD. destruct (_ || _); [apply preserves_panic|].
    repeat (apply preserves_bind; [apply handle_preserves | intros _]).
    apply preserves_returnObj.
  - apply preserves_bind; [|intros _; apply preserves_ret].
    unfold StaticFS, GET, HEAD. destruct (_ || _); [apply preserves_panic|].
    repeat (apply preserves_bind; [apply handle_preserves | intros _]).
    apply preserves_returnObj.
Qed.

Lemma runCalls_preserves (c : nat) (data : list HandlerFunc) (cs : list Call) (w : World) :
  forallb (fun cl => negb (isUseOn c cl)) cs = true ->
  ownsChain c data w -> ownsChain c data (runCalls cs w).
Proof.
  revert w. induction cs as [|cl cs IH]; intros w Hcs Hown; [exact Hown|].
  cbn [forallb] in Hcs. apply andb_true_iff in Hcs as [Hcl Hcs].
  apply negb_true_iff in Hcl. cbn [runCalls].
  apply IH; [exact Hcs|]. now apply call_preserves.
Qed.

Lemma ownsChain_chainOf (c : nat) (data : list HandlerFunc) (w : World) :
  ownsChain c data w -> chainOf w c = data.
Proof. intros (_ & gc & Hc & Hdata & _). now rewrite (chainOf_group _ _ _ Hc). Qed.

(** One successful [Group]: the child it adds, with its own new array. *)
Lemma Group_step (w : World) (g : nat) (grp : RouterGroup) (p : string)
    (hs : list HandlerFunc) :
  worldOK w = true ->
  groups w !! g = Some grp ->
  (Z.of_nat (length (chainOf w g) + length hs) < AbortIndex)%Z ->
  exists c w' s,
    Group g p hs w = (Ret c, w') /\
    worldOK w' = true /\
    groups w' !! c = Some (mkRouterGroup s (composedPath (basePath grp) p) (engine grp) false) /\
    groups w !! c = None /\
    heap w !! arr s = None /\
    (forall a ga, groups w !! a = Some ga -> groups w' !! a = Some ga) /\
    (forall a, chainOf w a = chainOf w' a \/ groups w !! a = None) /\
    routes w' = routes w /\
    ownsChain c (chainOf w g ++ hs) w'.
Proof.
  intros Hw Hg Hlim.
  pose proof (worldOK_group _ _ _ Hw Hg) as Hok.
  pose proof (sliceData_length _ _ Hok) as Hlen.
  rewrite (chainOf_group _ _ _ Hg) in *.
  rewrite (Group_run _ _ _ _ _ Hg Hok). cbv zeta.
  rewrite Hlen in Hlim.
  destruct (AbortIndex <=? _)%Z eqn:E; [apply Z.leb_le in E; lia|].
  set (n := len (Handlers grp) + length hs).
  set (x := sliceData (heap w) (Handlers grp) ++ hs).
  assert (n = length x) as Hn by (unfold n, x; rewrite length_app; lia).
  set (child := mkRouterGroup (mkSlice (length (heap w)) 0 n n)
                  (composedPath (basePath grp) p) (engine grp) false).
  assert (worldOK (mkWorld (heap w ++ [x]) (groups w ++ [child]) (routes w)) = true) as Hw'
    by (apply worldOK_alloc_group; [exact Hw | now apply sliceOK_new]).
  assert ((groups w ++ [child]) !! length (groups w) = Some child) as Hchild.
  { rewrite lookup_app_r by (apply Nat.le_refl). now rewrite Nat.sub_diag. }
  eexists _, _, _. split; [reflexivity|]. split; [exact Hw'|].
  cbn [heap groups routes]. split; [exact Hchild|].
  split; [apply lookup_ge_None_2; lia|].
  split; [apply lookup_ge_None_2; cbn [arr]; lia|].
  split; [intros a ga Ha; now apply lookup_app_l_Some|].
  split; [|split; [reflexivity|]].
  - intros a. destruct (groups w !! a) as [ga|] eqn:Ha; [left | now right].
    unfold chainOf. cbn [heap groups].
    rewrite Ha, (lookup_app_l_Some _ _ _ _ Ha).
    symmetry. apply sliceData_alloc, (worldOK_group _ _ _ Hw Ha).
  - split; [exact Hw'|]. exists child. cbn [heap groups].
    split; [exact Hchild|]. split; [now apply sliceData_new|].
    intros _ a ga Hne Ha Hcap. unfold child. cbn [Handlers arr].
    apply lookup_app_Some in Ha as [Ha|[Hge Ha]].
    + pose proof (sliceOK_arr_allocated _ _ (worldOK_group _ _ _ Hw Ha) Hcap). lia.
    + apply list_lookup_singleton_Some in Ha as [Hz _]. lia.
Qed.

(** ** Every world a program can reach is well formed *)

Lemma handle_worldOK (g : nat) (method p : string) (hs : list HandlerFunc) :
  preserves (fun w => worldOK w = true) (handle g method p hs).
Proof.
  intros w Hw. destruct (groups w !! g) as [grp|] eqn:Hg.
  - pose proof (worldOK_group _ _ _ Hw Hg) as Hok.
    rewrite (handle_run _ _ _ _ _ _ Hg Hok). cbv zeta.
    destruct (AbortIndex <=? _)%Z; [exact Hw|]. cbn [snd].
    apply worldOK_alloc_route; [exact Hw|].
    cbn [routeHandlers]. apply sliceOK_new, merged_length, Hok.
  - now rewrite (handle_nil _ _ _ _ _ Hg).
Qed.

Lemma Group_worldOK (g : nat) (p : string) (hs : list HandlerFunc) :
  preserves (fun w => worldOK w = true) (Group g p hs).
Proof.
  intros w Hw. destruct (groups w !! g) as [grp|] eqn:Hg.
  - pose proof (worldOK_group _ _ _ Hw Hg) as Hok.
    rewrite (Group_run _ _ _ _ _ Hg Hok). cbv zeta.
    destruct (AbortIndex <=? _)%Z; [exact Hw|]. cbn [snd].
    apply worldOK_alloc_group; [exact Hw|].
    cbn [Handlers]. apply sliceOK_new, merged_length, Hok.
  - now rewrite (Group_nil _ _ _ _ Hg).
Qed.

Lemma Use_worldOK (g : nat) (mw : list HandlerFunc) :
  preserves (fun w => worldOK w = true) (Use g mw).
Proof.
  intros w Hw. destruct (groups w !! g) as [grp|] eqn:Hg.
  - destruct (Use_step w g grp mw Hw Hg) as (w' & s' & -> & Hw' & _). exact Hw'.
  - now rewrite (Use_nil _ _ _ Hg).
Qed.

Lemma call_worldOK (cl : Call) : preserves (fun w => worldOK w = true) (call cl).
Proof.
  destruct cl as [g mw|g p hs|g m p hs|g p hs|g p f|g p fs]; cbn [call];
    (apply preserves_bind; [|intros _; apply preserves_ret]).
  - apply Use_worldOK.
  - apply Group_worldOK.
  - unfold Handle. destruct (negb _); [apply preserves_panic | apply handle_worldOK].
  - unfold Any.
    repeat (apply preserves_bind; [apply handle_worldOK | intros _]).
    apply preserves_returnObj.
  - unfold StaticFile, GET, HEAD. destruct (_ || _); [apply preserves_panic|].
    repeat (apply preserves_bind; [apply handle_worldOK | intros _]).
    apply preserves_returnObj.
  - unfold StaticFS, GET, HEAD. destruct (_ || _); [apply preserves_panic|].
    repeat (apply preserves_bind; [apply handle_worldOK | intros _]).
    apply preserves_returnObj.
Qed.

(** Whatever a program calls on a new engine, every chain fits its array. *)
Lemma reachable_worldOK (cs : list Call) : worldOK (runCalls cs newEngineWorld) = true.
Proof.
  assert (forall w, worldOK w = true -> worldOK (runCalls cs w) = true) as Hall.
  { induction cs as [|cl cs IH]; intros w Hw; [exact Hw|].
    cbn [runCalls]. apply IH. now apply call_worldOK. }
  now apply Hall.
Qed.

(** X8. Whatever the sentinel is, a program reaches the guard: [Use] takes
    any number of handlers, and with enough middleware on the root group of
    a new engine, [Group] with one more handler panics and leaves the
    world as it is. *)
Lemma guard_reached (p : string) (h : HandlerFunc) :
  exists mws,
    worldOK (Use 0 mws newEngineWorld).2 = true /\
    Group 0 p [h] (Use 0 mws newEngineWorld).2 =
      (Panic "too many handlers", (Use 0 mws newEngineWorld).2).
Proof.
  exists (replicate (Z.to_nat (AbortIndex - 1)) nilHandler).
  destruct (Use_step newEngineWorld 0 _ (replicate (Z.to_nat (AbortIndex - 1)) nilHandler)
              eq_refl eq_refl) as (w & s & Hrun & Hw & Hg & Hchain & _).
  rewrite Hrun. cbn [snd]. split; [exact Hw|].
  pose proof (worldOK_group _ _ _ Hw Hg) as Hok.
  rewrite (Group_run _ _ _ _ _ Hg Hok). cbv zeta.
  change (chainOf newEngineWorld 0) with (@nil HandlerFunc) in Hchain.
  rewrite (chainOf_group _ _ _ Hg) in Hchain.
  apply (f_equal (@length _)) in Hchain.
  rewrite (sliceData_length _ _ Hok) in Hchain. cbn [app] in Hchain.
  rewrite length_replicate in Hchain. cbn [Handlers] in *. rewrite Hchain.
  destruct (AbortIndex <=? _)%Z eqn:E; [reflexivity|].
  apply Z.leb_gt in E. cbn [length] in E. lia.
Qed.

End Frame.

(* ===================================================================== *)
(** * Groups of groups, and the wildcard pattern *)
(* ===================================================================== *)

Section GroupClaims.
Context `{RouteEnv}.

(** C1 (amended). When the chain of [g] with [m1] and [m2] stays below
    [AbortIndex], [g.Group(p, m1).Group(q, m2)] returns a group whose chain
    is the chain of [g], then [m1], then [m2], in an array allocated by the
    second call; no later sequence of router calls changes that chain,
    unless it calls [Use] on the new group itself: not [Use] on [g], not
    [Use] on the group between them.  In particular, for a sentinel above
    3, a new engine's root group (base path [/]) after [Use(authMW)], via
    [Group("/api", loggingMW).GET("/users", handler)], registers method GET
    at path [/api/users] with chain [authMW, loggingMW, handler]. *)
Theorem Group_chain_composition :
  (forall (w : World) (g : nat) (grp : RouterGroup) (p q : string)
          (m1 m2 : list HandlerFunc),
     worldOK w = true ->
     groups w !! g = Some grp ->
     (Z.of_nat (length (chainOf w g) + length m1 + length m2) < AbortIndex)%Z ->
     exists c1 c2 w1 w2 child,
       Group g p m1 w = (Ret c1, w1) /\
       Group c1 q m2 w1 = (Ret c2, w2) /\
       chainOf w2 c2 = chainOf w g ++ m1 ++ m2 /\
       groups w2 !! c2 = Some child /\
       engine child = engine grp /\
       root child = false /\
       heap w1 !! arr (Handlers child) = None /\
       g <> c2 /\ c1 <> c2 /\
       (forall a mw, a <> c2 ->
          chainOf (Use a mw w2).2 c2 = chainOf w g ++ m1 ++ m2) /\
       (forall calls,
          forallb (fun cl => negb (isUseOn c2 cl)) calls = true ->
          chainOf (runCalls calls w2) c2 = chainOf w g ++ m1 ++ m2)) /\
  (forall authMW loggingMW handler : HandlerFunc,
     (3 < AbortIndex)%Z ->
     exists w1 api w2 w3,
       Use 0 [authMW] newEngineWorld = (Ret (TheEngine 0), w1) /\
       Group 0 "/api" [loggingMW] w1 = (Ret api, w2) /\
       GET api "/users" [handler] w2 = (Ret (TheGroup api), w3) /\
       routeTable w3 = [("GET", "/api/users", [authMW; loggingMW; handler])]).
Proof.
  split.
  - intros w g grp p q m1 m2 Hw Hg Hlim.
    destruct (Group_step w g grp p m1 Hw Hg) as
      (c1 & w1 & s1 & Hrun1 & Hw1 & Hc1 & Hnew1 & _ & Hold1 & _ & _ & Hown1); [lia|].
    pose proof (ownsChain_chainOf _ _ _ Hown1) as Hchain1.
    destruct (Group_step w1 c1 _ q m2 Hw1 Hc1) as
      (c2 & w2 & s2 & Hrun2 & Hw2 & Hc2 & Hnew2 & Harr2 & _ & _ & _ & Hown2).
    { rewrite Hchain1, length_app. lia. }
    rewrite Hchain1, <- app_assoc in Hown2. cbn [basePath engine] in Hc2.
    eexists c1, c2, w1, w2, _.
    split; [exact Hrun1|]. split; [exact Hrun2|].
    split; [exact (ownsChain_chainOf _ _ _ Hown2)|].
    split; [exact Hc2|]. split; [reflexivity|]. split; [reflexivity|].
    split; [exact Harr2|].
    split; [intros ->; rewrite (Hold1 _ _ Hg) in Hnew2; discriminate|].
    split; [intros ->; rewrite Hc1 in Hnew2; discriminate|].
    split.
    + intros a mw Hne. apply ownsChain_chainOf. now apply Use_preserves.
    + intros calls Hcalls. apply ownsChain_chainOf. now apply runCalls_preserves.
  - intros authMW loggingMW handler Hlim.
    destruct (Use_step newEngineWorld 0 _ [authMW] eq_refl eq_refl) as
      (w1 & s1 & Hrun1 & Hw1 & Hg1 & Hchain1 & Hroutes1).
    cbn [root engine basePath] in Hrun1, Hg1.
    change (chainOf newEngineWorld 0) with (@nil HandlerFunc) in Hchain1.
    cbn [app] in Hchain1.
    destruct (Group_step w1 0 _ "/api" [loggingMW] Hw1 Hg1) as
      (api & w2 & s2 & Hrun2 & Hw2 & Hg2 & _ & _ & _ & _ & Hroutes2 & Hown2).
    { rewrite Hchain1. cbn [length]. lia. }
    pose proof (ownsChain_chainOf _ _ _ Hown2) as Hchain2.
    rewrite Hchain1 in Hchain2. cbn [app basePath engine] in Hchain2, Hg2.
    destruct (handle_step w2 api _ "GET" "/users" [handler] Hw2 Hg2) as
      (w3 & Hrun3 & _ & _ & _ & Htable3).
    { rewrite Hchain2. cbn [length]. lia. }
    cbn [root basePath] in Hrun3, Htable3.
    exists w1, api, w2, w3.
    split; [exact Hrun1|]. split; [exact Hrun2|]. split; [exact Hrun3|].
    rewrite Htable3, Hchain2. unfold routeTable. rewrite Hroutes2, Hroutes1.
    reflexivity.
Qed.

(** C8 (amended). For a relative path [StaticFS] (and [Static]) accepts,
    the wildcard pattern handed to GET and HEAD is the canonical join
    [path.Join(relativePath, "/*filepath")], and both methods are
    registered at [joinPaths] of the group's base path and that pattern.
    The pattern is the concatenation [relativePath + "/*filepath"]
    whenever [relativePath] is a rooted path [/s1/.../sk] of plain
    elements. *)
Theorem StaticFS_pattern (w : World) (g : nat) (grp : RouterGroup)
    (p rootDir : string) (fs : FS) :
  worldOK w = true ->
  groups w !! g = Some grp ->
  hasReservedChar p = false ->
  (Z.of_nat (length (chainOf w g) + 1) < AbortIndex)%Z ->
  let pattern := Join [p; "/*filepath"] in
  (exists mounted w',
     joinPaths (basePath grp) pattern = Ret mounted /\
     StaticFS g p fs w = (Ret (if root grp then TheEngine (engine grp) else TheGroup g), w') /\
     map fst (routeTable w') = map fst (routeTable w) ++ [("GET", mounted); ("HEAD", mounted)]) /\
  Static g p rootDir w = StaticFS g p (fsWithRoot rootDir) w /\
  (forall segs,
     segs <> [] ->
     forallb plainElement segs = true ->
     list_ascii_of_string p = rootedPath segs ->
     pattern = p +:+ "/*filepath").
Proof.
  intros Hw Hg Hp Hlim pattern. split; [|split; [reflexivity|]].
  - exists (composedPath (basePath grp) pattern).
    destruct (GET_HEAD_run w g grp pattern (NewRequestHandler fs) Hw Hg Hlim)
      as (w' & Hrun & Htable).
    exists w'. split; [apply joinPaths_composedPath|]. split.
    + unfold StaticFS. now rewrite Contains_reserved, Hp.
    + rewrite Htable, map_app. reflexivity.
  - intros segs Hne Hsegs Hpath. unfold pattern.
    rewrite <- (string_of_list_ascii_of_string p), Hpath.
    now apply Join_wildcard_rootedPath.
Qed.

End GroupClaims.

(* ===================================================================== *)
(** * The life cycle: signals, the race, shutdown *)
(* ===================================================================== *)

Section ServerClaims.
Context `{ServerEnv}.

Lemma actions_added (tr added : list Action) : drop (length tr) (tr ++ added) = added.
Proof. apply drop_app_length. Qed.

(** What [waitSignal] returns and does, by the winner of the race. *)
Lemma waitSignal_run (p : Process) :
  let sigs := watchedSignals p in
  let graceful := [SignalNotify sigs; LogInfof "Received signal: %s\n"] in
  waitSignal p =
  match winner p with
  | FromSignals SIGTERM =>
      (Ret (Some (NewPublic (signalString SIGTERM))),
       mkProcess (ignored p) (winner p) (closeResult p) (shutdownResult p)
         (trace p ++ [SignalNotify sigs]))
  | FromSignals SIGHUP | FromSignals SIGINT =>
      (Ret None,
       mkProcess (ignored p) (winner p) (closeResult p) (shutdownResult p)
         (trace p ++ graceful))
  | FromSignals (OtherSignal _) =>
      (Ret None,
       mkProcess (ignored p) (winner p) (closeResult p) (shutdownResult p)
         (trace p ++ [SignalNotify sigs]))
  | FromErrCh err =>
      (Ret err,
       mkProcess (ignored p) (winner p) (closeResult p) (shutdownResult p)
         (trace p ++ [SignalNotify sigs]))
  end.
Proof.
  destruct p as [ign win cr sr tr]. cbn [ignored winner closeResult shutdownResult trace].
  unfold waitSignal, watchedSignals, signalIgnored, selectEvent, reads, emit.
  rewrite !bind_run. cbn [ignored winner closeResult shutdownResult trace].
  destruct win as [[| | |n]|err]; try reflexivity;
    rewrite !bind_run; cbn [ignored winner closeResult shutdownResult trace];
    now rewrite <- app_assoc.
Qed.

(** [Spin] after its waiter, whichever it is, has returned [err]. *)
Lemma Spin_after_wait (h : Hertz) (p p1 : Process) (err : option error) :
  default waitSignal (signalWaiter h) (withTrace p (trace p ++ spinStart)) = (Ret err, p1) ->
  Spin h p =
  (Ret tt,
   withTrace p1
     (trace p1 ++
      match err with
      | Some e => forcedPath e (closeResult p1)
      | None => gracefulPath (ExitWaitTimeout (options h)) (shutdownResult p1)
      end)).
Proof.
  intros Hwait. unfold Spin, initOnRunHooks, emit.
  rewrite !bind_run. cbn [ignored winner closeResult shutdownResult trace].
  unfold withTrace, spinStart in Hwait. rewrite <- !app_assoc. cbn [app].
  rewrite Hwait. destruct p1 as [ign win cr sr tr].
  unfold withTrace, forcedPath, gracefulPath, engineClose, engineShutdown,
    contextWithTimeout, reads, emit.
  cbn [ignored winner closeResult shutdownResult trace].
  destruct err as [e|]; [destruct cr as [e'|] | destruct sr as [e'|]];
    repeat (rewrite bind_run; unfold mret, Prog_ret;
            cbn [ignored winner closeResult shutdownResult trace]);
    cbn [ignored winner closeResult shutdownResult trace];
    rewrite <- ?app_assoc; cbn [app]; reflexivity.
Qed.

(** Everything [Spin] does with the default waiter, by the winner of the
    race. *)
Lemma Spin_default_actions (opts : Options) (p : Process) :
  actionsOf (Spin (mkHertz opts None)) p =
  spinStart ++ [SignalNotify (watchedSignals p)] ++
  match winner p with
  | FromSignals SIGTERM => forcedPath (NewPublic (signalString SIGTERM)) (closeResult p)
  | FromSignals SIGHUP | FromSignals SIGINT =>
      [LogInfof "Received signal: %s\n"] ++
      gracefulPath (ExitWaitTimeout opts) (shutdownResult p)
  | FromSignals (OtherSignal _) => gracefulPath (ExitWaitTimeout opts) (shutdownResult p)
  | FromErrCh (Some e) => forcedPath e (closeResult p)
  | FromErrCh None => gracefulPath (ExitWaitTimeout opts) (shutdownResult p)
  end.
Proof.
  unfold actionsOf. destruct p as [ign win cr sr tr].
  pose proof (waitSignal_run (withTrace (mkProcess ign win cr sr tr) (tr ++ spinStart)))
    as Hwait.
  cbv zeta in Hwait. unfold watchedSignals, withTrace in *.
  cbn [ignored winner closeResult shutdownResult trace] in *.
  destruct win as [[| | |n]|[e|]];
    match goal with
    | |- context [Spin _ ?q] => rewrite (Spin_after_wait (mkHertz opts None) q _ _ Hwait)
    end;
    unfold withTrace; cbn [snd ignored winner closeResult shutdownResult trace options];
    rewrite <- !app_assoc; apply actions_added.
Qed.

(** C5. With the default waiter: when the race between the signals and the
    run-error channel is won by an interrupt or a hangup, [Spin] takes the
    graceful path: it creates a deadline scope of the configured
    exit-wait timeout and calls [Shutdown] with it, whatever [Shutdown]
    returns, and never calls [Close].  When the race is won by a terminate
    signal or by a non-nil error from the run-error channel, it calls
    [Close] and creates no deadline scope and calls no [Shutdown]. *)
Theorem Spin_decision (opts : Options) (p : Process) :
  let h := mkHertz opts None in
  let started := spinStart ++ [SignalNotify (watchedSignals p)] in
  (winner p = FromSignals SIGINT \/ winner p = FromSignals SIGHUP ->
   let acts := actionsOf (Spin h) p in
   acts = started ++ [LogInfof "Received signal: %s\n"] ++
          gracefulPath (ExitWaitTimeout opts) (shutdownResult p) /\
   In (ContextWithTimeout (ExitWaitTimeout opts)) acts /\
   In (EngineShutdown (ExitWaitTimeout opts)) acts /\
   existsb isClose acts = false) /\
  (forall e,
     (winner p = FromSignals SIGTERM /\ e = NewPublic (signalString SIGTERM)) \/
     winner p = FromErrCh (Some e) ->
     let acts := actionsOf (Spin h) p in
     acts = started ++ forcedPath e (closeResult p) /\
     In EngineClose acts /\
     existsb isDeadlineScope acts = false /\
     existsb isShutdown acts = false).
Proof.
  intros h started. unfold h, started. split.
  - intros Hwin. cbv zeta. rewrite Spin_default_actions.
    assert (match winner p with
            | FromSignals SIGTERM => forcedPath (NewPublic (signalString SIGTERM)) (closeResult p)
            | FromSignals SIGHUP | FromSignals SIGINT =>
                [LogInfof "Received signal: %s\n"] ++
                gracefulPath (ExitWaitTimeout opts) (shutdownResult p)
            | FromSignals (OtherSignal _) => gracefulPath (ExitWaitTimeout opts) (shutdownResult p)
            | FromErrCh (Some e) => forcedPath e (closeResult p)
            | FromErrCh None => gracefulPath (ExitWaitTimeout opts) (shutdownResult p)
            end = [LogInfof "Received signal: %s\n"] ++
                  gracefulPath (ExitWaitTimeout opts) (shutdownResult p)) as ->
      by (destruct Hwin as [-> | ->]; reflexivity).
    rewrite <- app_assoc. split; [reflexivity|].
    unfold gracefulPath, spinStart.
    destruct (shutdownResult p); cbn; auto 12.
  - intros e Hwin. cbv zeta. rewrite Spin_default_actions.
    assert (match winner p with
            | FromSignals SIGTERM => forcedPath (NewPublic (signalString SIGTERM)) (closeResult p)
            | FromSignals SIGHUP | FromSignals SIGINT =>
                [LogInfof "Received signal: %s\n"] ++
                gracefulPath (ExitWaitTimeout opts) (shutdownResult p)
            | FromSignals (OtherSignal _) => gracefulPath (ExitWaitTimeout opts) (shutdownResult p)
            | FromErrCh (Some e) => forcedPath e (closeResult p)
            | FromErrCh None => gracefulPath (ExitWaitTimeout opts) (shutdownResult p)
            end = forcedPath e (closeResult p)) as ->
      by (destruct Hwin as [[-> ->] | ->]; reflexivity).
    rewrite <- app_assoc. split; [reflexivity|].
    unfold forcedPath, spinStart.
    destruct (closeResult p); cbn; auto 12.
Qed.

(** C9. The default waiter hands [signal.Notify] exactly one signal set:
    interrupt, hangup and terminate, or, when the process ignores hangup
    at that time, interrupt and terminate only; so does [Spin] when no
    custom waiter is set. *)
Theorem waitSignal_watches (opts : Options) (p : Process) :
  notified (actionsOf waitSignal p) =
    [if ignored p SIGHUP then [SIGINT; SIGTERM] else [SIGINT; SIGHUP; SIGTERM]] /\
  notified (actionsOf (Spin (mkHertz opts None)) p) =
    [if ignored p SIGHUP then [SIGINT; SIGTERM] else [SIGINT; SIGHUP; SIGTERM]].
Proof.
  split.
  - unfold actionsOf. rewrite waitSignal_run. cbv zeta.
    destruct (winner p) as [[| | |n]|err]; cbn [snd trace];
      rewrite actions_added; reflexivity.
  - rewrite Spin_default_actions. unfold spinStart, forcedPath, gracefulPath.
    destruct (winner p) as [[| | |n]|[e|]];
      destruct (closeResult p), (shutdownResult p); reflexivity.
Qed.

(** C10. When the run operation returns a nil error before any signal
    arrives, the default waiter returns nil, and [Spin] takes the graceful
    path (the deadline scope of the exit-wait timeout, then [Shutdown]
    with it) and never calls [Close]. *)
Theorem Spin_run_returned_nil (opts : Options) (p : Process) :
  winner p = FromErrCh None ->
  (waitSignal p).1 = Ret None /\
  let acts := actionsOf (Spin (mkHertz opts None)) p in
  acts = spinStart ++ [SignalNotify (watchedSignals p)] ++
         gracefulPath (ExitWaitTimeout opts) (shutdownResult p) /\
  In (ContextWithTimeout (ExitWaitTimeout opts)) acts /\
  In (EngineShutdown (ExitWaitTimeout opts)) acts /\
  existsb isClose acts = false.
Proof.
  intros Hwin. split.
  - rewrite waitSignal_run. cbv zeta. now rewrite Hwin.
  - cbv zeta. rewrite Spin_default_actions, Hwin.
    split; [reflexivity|].
    unfold gracefulPath, spinStart. destruct (shutdownResult p); cbn; auto 12.
Qed.

End ServerClaims.

(* ===================================================================== *)
(** * Single calls: what they add and what a panic leaves *)
(* ===================================================================== *)

Section SingleCalls.
Context `{RouteEnv}.

(** X1. [Use] has no guard and appends: on a group that exists it always
    returns (the engine for the root group, the group otherwise), whatever
    the number of handlers; the group's chain is the old chain followed by
    the middleware, its base path, engine and root flag are kept, and no
    route is added.  A second [Use] appends after the first. *)
Theorem Use_appends (w : World) (g : nat) (grp : RouterGroup)
    (first second : list HandlerFunc) :
  worldOK w = true ->
  groups w !! g = Some grp ->
  let obj := if root grp then TheEngine (engine grp) else TheGroup g in
  exists w1 w2 grp1,
    Use g first w = (Ret obj, w1) /\
    groups w1 !! g = Some grp1 /\
    groupIdentity grp1 = groupIdentity grp /\
    chainOf w1 g = chainOf w g ++ first /\
    routes w1 = routes w /\
    Use g second w1 = (Ret obj, w2) /\
    chainOf w2 g = chainOf w g ++ first ++ second.
Proof.
  intros Hw Hg obj.
  destruct (Use_step w g grp first Hw Hg) as (w1 & s1 & Hrun1 & Hw1 & Hg1 & Hchain1 & Hroutes1).
  destruct (Use_step w1 g _ second Hw1 Hg1) as (w2 & s2 & Hrun2 & _ & _ & Hchain2 & _).
  cbn [root engine] in Hrun2.
  exists w1, w2, (mkRouterGroup s1 (basePath grp) (engine grp) (root grp)).
  repeat split; try assumption.
  now rewrite Hchain2, Hchain1, <- app_assoc.
Qed.

(** X2. The base path of a subgroup: [Group] on a group that exists, below
    the limit, returns a pointer no group had before; [BasePath] of the new
    group is [joinPaths] of the parent's base path and the relative path
    (the parent's base path itself when the relative path is empty), the
    parent's [BasePath] is unchanged, and no route is added. *)
Theorem Group_base_path (w : World) (g : nat) (grp : RouterGroup) (p : string)
    (hs : list HandlerFunc) :
  worldOK w = true ->
  groups w !! g = Some grp ->
  (Z.of_nat (length (chainOf w g) + length hs) < AbortIndex)%Z ->
  exists child w' path,
    Group g p hs w = (Ret child, w') /\
    joinPaths (basePath grp) p = Ret path /\
    BasePath child w' = (Ret path, w') /\
    BasePath g w' = (Ret (basePath grp), w') /\
    groups w !! child = None /\
    (p = "" -> path = basePath grp) /\
    routes w' = routes w.
Proof.
  intros Hw Hg Hlim.
  destruct (Group_step w g grp p hs Hw Hg Hlim)
    as (c & w' & s & Hrun & _ & Hc & Hnew & _ & Hkeep & _ & Hroutes & _).
  exists c, w', (composedPath (basePath grp) p).
  split; [exact Hrun|]. split; [apply joinPaths_composedPath|].
  unfold BasePath. rewrite !bind_run, (getGroup_run _ _ _ Hc), (getGroup_run _ _ _ (Hkeep _ _ Hg)).
  repeat split; try assumption.
  now intros ->.
Qed.

(** X3. What the verb shortcuts register: on a group that exists, below
    the limit, each of [POST], [GET], [DELETE], [PATCH], [PUT], [OPTIONS]
    and [HEAD] does what [Handle] does with the method of its name: it
    adds exactly one route, with that method, the path [joinPaths] gives
    for the group's base path and the relative path, and the group's
    chain followed by the handlers; the groups stay as they are. *)
Theorem shortcut_registers (w : World) (g : nat) (grp : RouterGroup) (p : string)
    (hs : list HandlerFunc) :
  worldOK w = true ->
  groups w !! g = Some grp ->
  (Z.of_nat (length (chainOf w g) + length hs) < AbortIndex)%Z ->
  exists path,
    joinPaths (basePath grp) p = Ret path /\
    Forall (fun shortcut : (nat -> string -> list HandlerFunc -> Prog World IRoutes) * string =>
              shortcut.1 g p hs w = Handle g shortcut.2 p hs w /\
              exists w',
                shortcut.1 g p hs w =
                  (Ret (if root grp then TheEngine (engine grp) else TheGroup g), w') /\
                routeTable w' = routeTable w ++ [(shortcut.2, path, chainOf w g ++ hs)] /\
                groups w' = groups w /\
                chainOf w' g = chainOf w g)
      [(POST, "POST"); (GET, "GET"); (DELETE, "DELETE"); (PATCH, "PATCH");
       (PUT, "PUT"); (OPTIONS, "OPTIONS"); (HEAD, "HEAD")].
Proof.
  intros Hw Hg Hlim. exists (composedPath (basePath grp) p).
  split; [apply joinPaths_composedPath|].
  assert (forall method, exists w',
            handle g method p hs w =
              (Ret (if root grp then TheEngine (engine grp) else TheGroup g), w') /\
            routeTable w' =
              routeTable w ++ [(method, composedPath (basePath grp) p, chainOf w g ++ hs)] /\
            groups w' = groups w /\
            chainOf w' g = chainOf w g) as Hreg.
  { intros method.
    destruct (handle_step w g grp method p hs Hw Hg Hlim) as (w' & Hrun & _ & Hgs & Hch & Ht).
    now exists w'. }
  repeat (apply Forall_cons_2; [split; [reflexivity|]; cbn [fst snd] |]);
    [exact (Hreg "POST") | exact (Hreg "GET") | exact (Hreg "DELETE") | exact (Hreg "PATCH")
    |exact (Hreg "PUT") | exact (Hreg "OPTIONS") | exact (Hreg "HEAD") | apply Forall_nil_2].
Qed.

(** A run of [handle] calls on one group that panics has changed nothing. *)
Lemma handle_sequence_panic (g : nat) (p : string) (hs : list HandlerFunc)
    (methods : list string) (w : World) (msg : string) :
  worldOK w = true ->
  (foldr (fun method k => handle g method p hs ;; k) (returnObj g) methods w).1 = Panic msg ->
  (foldr (fun method k => handle g method p hs ;; k) (returnObj g) methods w).2 = w.
Proof.
  intros Hw. destruct (groups w !! g) as [grp|] eqn:Hg.
  - destruct methods as [|method methods]; cbn [foldr].
    + now rewrite (returnObj_run _ _ _ Hg).
    + destruct (AbortIndex <=? Z.of_nat (len (Handlers grp) + length hs))%Z eqn:E.
      * intros _. rewrite bind_run.
        rewrite (handle_run _ _ _ _ _ _ Hg (worldOK_group _ _ _ Hw Hg)). cbv zeta.
        now rewrite E.
      * apply Z.leb_gt in E.
        rewrite <- (sliceData_length _ _ (worldOK_group _ _ _ Hw Hg)) in E.
        rewrite <- (chainOf_group _ _ _ Hg) in E.
        destruct (handle_sequence g grp p hs (method :: methods) w Hw Hg E) as (w' & Hrun & _).
        cbn [foldr] in Hrun. rewrite Hrun. discriminate.
  - intros _. destruct methods as [|method methods]; cbn [foldr].
    + unfold returnObj. now rewrite bind_run, (getGroup_nil _ _ Hg).
    + now rewrite bind_run, (handle_nil _ _ _ _ _ Hg).
Qed.

(** X4. A call that panics has changed nothing: in a well-formed world,
    when [Use], [Group], [Handle], [Any], [StaticFile] or [StaticFS]
    panics (on a nil group, an invalid method, a reserved character or too
    many handlers), the heap, the groups and the routes are as before the
    call.  In particular [Any] registers its nine routes or none, and the
    static routes come in pairs or not at all. *)
Theorem panic_changes_nothing (w : World) (cl : Call) (msg : string) :
  worldOK w = true ->
  (call cl w).1 = Panic msg ->
  (call cl w).2 = w.
Proof.
  intros Hw.
  assert (forall (m : Prog World IRoutes),
            (forall msg', (m w).1 = Panic msg' -> (m w).2 = w) ->
            ((m ;; mret tt) w).1 = Panic msg -> ((m ;; mret tt) w).2 = w) as Hwrap.
  { intros m Hm. rewrite bind_run. destruct (m w) as [[a|msg'] w']; [discriminate|].
    intros _. exact (Hm msg' eq_refl). }
  destruct cl as [g mw|g p hs|g m p hs|g p hs|g p f|g p fs]; cbn [call].
  - apply Hwrap. intros msg'. destruct (groups w !! g) as [grp|] eqn:Hg.
    + destruct (Use_step w g grp mw Hw Hg) as (w' & s' & -> & _). discriminate.
    + now rewrite (Use_nil _ _ _ Hg).
  - rewrite bind_run. destruct (groups w !! g) as [grp|] eqn:Hg.
    + rewrite (Group_run _ _ _ _ _ Hg (worldOK_group _ _ _ Hw Hg)). cbv zeta.
      now destruct (AbortIndex <=? _)%Z.
    + now rewrite (Group_nil _ _ _ _ Hg).
  - apply Hwrap. intros msg'. unfold Handle. destruct (negb _); [reflexivity|].
    destruct (groups w !! g) as [grp|] eqn:Hg.
    + rewrite (handle_run _ _ _ _ _ _ Hg (worldOK_group _ _ _ Hw Hg)). cbv zeta.
      now destruct (AbortIndex <=? _)%Z.
    + now rewrite (handle_nil _ _ _ _ _ Hg).
  - apply Hwrap. intros msg'.
    exact (handle_sequence_panic g p hs
             ["GET"; "POST"; "PUT"; "PATCH"; "HEAD"; "OPTIONS"; "DELETE"; "CONNECT"; "TRACE"]
             w msg' Hw).
  - apply Hwrap. intros msg'. unfold StaticFile. destruct (_ || _); [reflexivity|].
    exact (handle_sequence_panic g p [fileHandler f] ["GET"; "HEAD"] w msg' Hw).
  - apply Hwrap. intros msg'. unfold StaticFS. destruct (_ || _); [reflexivity|].
    exact (handle_sequence_panic g (Join [p; "/*filepath"]) [NewRequestHandler fs]
             ["GET"; "HEAD"] w msg' Hw).
Qed.

(** X5. The named variants name first and route alike: each of [GETEX],
    [POSTEX], [PUTEX], [DELETEEX], [HEADEX], [AnyEX] and [HandleEX] returns
    what its plain method returns for the one handler and leaves the
    router as the plain method leaves it, and the table of names has one
    more entry, the handler with its name; the entry is there also when
    the plain method panics. *)
Theorem EX_names_before_routing (nw : Named) (g : nat) (method p : string)
    (handler : HandlerFunc) (name : string) :
  let alike (ex : Prog Named IRoutes) (plain : Prog World IRoutes) :=
    ex nw =
    ((plain (router nw)).1,
     mkNamed (handlerNames nw ++ [(handler, name)]) (plain (router nw)).2) in
  alike (GETEX g p handler name) (GET g p [handler]) /\
  alike (POSTEX g p handler name) (POST g p [handler]) /\
  alike (PUTEX g p handler name) (PUT g p [handler]) /\
  alike (DELETEEX g p handler name) (DELETE g p [handler]) /\
  alike (HEADEX g p handler name) (HEAD g p [handler]) /\
  alike (AnyEX g p handler name) (Any g p [handler]) /\
  alike (HandleEX g method p handler name) (Handle g method p [handler]) /\
  (forall msg,
     (Handle g method p [handler] (router nw)).1 = Panic msg ->
     (HandleEX g method p handler name nw).1 = Panic msg /\
     handlerNames (HandleEX g method p handler name nw).2 =
       handlerNames nw ++ [(handler, name)]).
Proof.
  intros alike.
  assert (forall plain : Prog World IRoutes,
            alike (SetHandlerName handler name;; onRouter plain) plain) as Hall.
  { intros plain. unfold alike. rewrite bind_run. unfold SetHandlerName, onRouter.
    cbn [router handlerNames]. now destruct (plain (router nw)). }
  repeat (split; [apply Hall|]).
  intros msg Hpanic. pose proof (Hall (Handle g method p [handler])) as Heq.
  unfold alike in Heq. fold (HandleEX g method p handler name) in Heq.
  rewrite Heq. cbn [fst snd handlerNames]. now split.
Qed.

End SingleCalls.

(* ===================================================================== *)
(** * Composed paths *)
(* ===================================================================== *)

Lemma endsInSeparator_snoc (l : list ascii) (c : ascii) :
  endsInSeparator (string_of_list_ascii (l ++ [c])) = isSlash c.
Proof.
  unfold endsInSeparator. rewrite list_ascii_of_string_of_list_ascii, rev_app_distr.
  reflexivity.
Qed.

(** X6. Trailing slashes survive: [lastChar] panics on the empty string
    and on no other, [joinPaths] never reaches that panic, and the path it
    returns is not empty when the relative path is not, and ends in a
    slash whenever the relative path does. *)
Theorem joinPaths_trailing_slash (absolutePath relativePath : string) :
  (forall s, panics (lastChar s) = true <-> s = "") /\
  exists path,
    joinPaths absolutePath relativePath = Ret path /\
    (relativePath <> "" -> path <> "") /\
    (endsInSeparator relativePath = true -> endsInSeparator path = true).
Proof.
  split.
  - intros s. unfold lastChar. split.
    + destruct (rev (list_ascii_of_string s)) as [|c l] eqn:E; [|discriminate].
      intros _. apply (f_equal (@rev _)) in E. rewrite rev_involutive in E.
      now apply list_ascii_of_string_nil.
    + now intros ->.
  - exists (composedPath absolutePath relativePath).
    split; [apply joinPaths_composedPath|]. unfold composedPath.
    destruct (String.eqb_spec relativePath "") as [->|Hne].
    + split; [congruence | discriminate].
    + pose proof (Join_nonempty absolutePath relativePath Hne) as Hjoin.
      split.
      * intros _. destruct (_ && _); [|exact Hjoin].
        now destruct (Join [absolutePath; relativePath]).
      * intros ->. cbn [andb].
        destruct (endsInSeparator (Join [absolutePath; relativePath])) eqn:E;
          cbn [negb]; [exact E|].
        rewrite <- (string_of_list_ascii_of_string (_ +:+ "/")).
        rewrite list_ascii_of_string_app. apply endsInSeparator_snoc.
Qed.

Lemma rootedPath_app (s1 s2 : list (list ascii)) :
  rootedPath (s1 ++ s2) = rootedPath s1 ++ rootedPath s2.
Proof.
  induction s1 as [|seg s1 IH]; [reflexivity|].
  cbn [app rootedPath]. now rewrite IH, <- app_assoc.
Qed.

(** A rooted path of plain elements ends in a byte that is no slash. *)
Lemma rootedPath_last (segs : list (list ascii)) :
  segs <> [] ->
  forallb plainElement segs = true ->
  exists body c, rootedPath segs = body ++ [c] /\ isSlash c = false.
Proof.
  induction segs as [|seg segs IH]; [congruence|]. intros _ Hplain.
  cbn [forallb] in Hplain. apply andb_prop in Hplain as [Hseg Hsegs].
  destruct segs as [|seg' segs].
  - cbn [rootedPath]. rewrite app_nil_r.
    destruct seg as [|c0 seg0]; [discriminate|].
    unfold plainElement in Hseg. apply andb_prop in Hseg as [Hns _].
    destruct (exists_last (l := c0 :: seg0)) as (body & c & Hlast); [discriminate|].
    rewrite Hlast in *. exists ("/"%char :: body), c. split; [reflexivity|].
    rewrite forallb_app in Hns. apply andb_prop in Hns as [_ Hc].
    cbn in Hc. now destruct (isSlash c).
  - destruct (IH ltac:(discriminate) Hsegs) as (body & c & Hlast & Hc).
    exists ("/"%char :: seg ++ body), c. split; [|exact Hc].
    cbn [rootedPath] in *. rewrite Hlast. cbn [app]. now rewrite <- app_assoc.
Qed.

(** [Clean] of a rooted path of plain elements behind a rooted path of
    plain elements or behind nothing, with a slash at its end or not. *)
Lemma Clean_rooted_join (s1 s2 : list (list ascii)) (sep tail : list ascii) :
  forallb plainElement (s1 ++ s2) = true ->
  s1 ++ s2 <> [] ->
  (s1 = [] -> sep = []) ->
  sep = [] \/ sep = ["/"%char] ->
  tail = [] \/ tail = ["/"%char] ->
  Clean (string_of_list_ascii (rootedPath s1 ++ sep ++ rootedPath s2 ++ tail)) =
  string_of_list_ascii (rootedPath (s1 ++ s2)).
Proof.
  intros Hplain Hne Hsep Hsep' Htail.
  assert (forall out, cleanLoop true tail out 1 = out) as Hend
    by (intros out; destruct Htail as [-> | ->]; reflexivity).
  assert (atElementEnd tail = true) as Htail'
    by (destruct Htail as [-> | ->]; reflexivity).
  rewrite forallb_app in Hplain. apply andb_prop in Hplain as [Hp1 Hp2].
  assert (forall segs, segs <> [] -> forallb plainElement segs = true ->
            1 < length (rootedPath segs)) as Hlong.
  { intros [|[|c seg] segs] Hn Hp; [congruence | discriminate | cbn; lia]. }
  unfold Clean. rewrite list_ascii_of_string_of_list_ascii.
  destruct s1 as [|seg1 segs1].
  - rewrite (Hsep eq_refl). cbn [rootedPath app] in *.
    destruct s2 as [|seg2 segs2]; [congruence|].
    cbn [rootedPath app]. change (isSlash "/"%char) with true. cbv iota.
    rewrite <- app_assoc.
    rewrite (cleanLoop_from_root seg2 segs2 tail Hp2 Htail').
    rewrite Hend.
    destruct (length (rootedPath (seg2 :: segs2)) =? 0) eqn:E; [|reflexivity].
    apply Nat.eqb_eq in E. cbn in E. lia.
  - cbn [rootedPath app]. change (isSlash "/"%char) with true. cbv iota.
    rewrite <- !app_assoc.
    rewrite (cleanLoop_from_root seg1 segs1 (sep ++ rootedPath s2 ++ tail) Hp1).
    2:{ destruct Hsep' as [-> | ->]; [|reflexivity]. cbn [app].
        now apply atElementEnd_rootedPath. }
    assert (cleanLoop true (sep ++ rootedPath s2 ++ tail) (rootedPath (seg1 :: segs1)) 1 =
            cleanLoop true (rootedPath s2 ++ tail) (rootedPath (seg1 :: segs1)) 1) as ->.
    { destruct Hsep' as [-> | ->]; [reflexivity|]. cbn [app]. apply cleanLoop_skip_slash. }
    rewrite (cleanLoop_rootedPath s2 tail _ 1 Hp2 Htail') by (now apply Hlong).
    rewrite Hend, <- rootedPath_app.
    destruct (length (rootedPath ((seg1 :: segs1) ++ s2)) =? 0) eqn:E; [|reflexivity].
    apply Nat.eqb_eq in E. cbn in E. lia.
Qed.

(** What [path.Join] hands to [Clean] for two elements of which the second
    is not empty. *)
Lemma Join_two (b r : string) :
  r <> "" ->
  Join [b; r] = Clean (if String.eqb b "" then r else (b +:+ "/") +:+ r).
Proof.
  intros Hr. unfold Join. cbn [foldl].
  destruct (0 + String.length b + String.length r =? 0) eqn:E.
  { apply Nat.eqb_eq in E. destruct r; [congruence | simpl in E; lia]. }
  f_equal. unfold joinStep at 2. cbn [String.length Nat.ltb Nat.leb orb].
  destruct b as [|c b].
  - cbn [String.eqb negb]. unfold joinStep. cbn [String.length Nat.ltb Nat.leb orb].
    destruct (String.eqb_spec r "") as [?|_]; [congruence | reflexivity].
  - cbn [String.eqb negb]. unfold joinStep.
    cbn [String.append String.length Nat.ltb Nat.leb orb]. reflexivity.
Qed.

(** X7. Prefixes of clean paths compose by concatenation: for a base path
    that is [/] or a rooted path of plain elements (none empty, none [.]
    or [..], none with a slash), and a relative path that is a rooted path
    of plain elements with or without a slash at its end, [joinPaths]
    returns the base path followed by the relative path, the one slash of
    the base path [/] not doubled. *)
Theorem joinPaths_concatenates (base rel : list (list ascii)) (rootBase trailing : bool) :
  forallb plainElement (base ++ rel) = true ->
  rel <> [] ->
  (rootBase = true -> base = []) ->
  let slash := if trailing then "/" else "" in
  joinPaths
    (if rootBase then "/" else string_of_list_ascii (rootedPath base))
    (string_of_list_ascii (rootedPath rel) +:+ slash) =
  Ret (string_of_list_ascii (rootedPath (base ++ rel)) +:+ slash).
Proof.
  intros Hplain Hrel Hroot slash. rewrite joinPaths_composedPath. f_equal.
  assert (base ++ rel <> []) as Hne by (destruct base; [exact Hrel | discriminate]).
  assert (forallb plainElement rel = true) as Hprel
    by (rewrite forallb_app in Hplain; now apply andb_prop in Hplain as [_ ?]).
  destruct (rootedPath_last rel Hrel Hprel) as (rbody & rc & Hrlast & Hrc).
  destruct (rootedPath_last (base ++ rel) Hne Hplain) as (body & c & Hlast & Hc).
  set (tail := if trailing then ["/"%char] else []).
  assert (tail = [] \/ tail = ["/"%char]) as Htail
    by (unfold tail; destruct trailing; [now right | now left]).
  set (b := if rootBase then "/" else string_of_list_ascii (rootedPath base)).
  set (r := string_of_list_ascii (rootedPath rel) +:+ slash).
  assert (r = string_of_list_ascii (rootedPath rel ++ tail)) as Hr.
  { unfold r, slash, tail. rewrite string_of_list_ascii_app. now destruct trailing. }
  assert (r <> "") as Hrne.
  { rewrite Hr, Hrlast. destruct rbody; discriminate. }
  assert (Join [b; r] = string_of_list_ascii (rootedPath (base ++ rel))) as Hjoin.
  { rewrite (Join_two b r Hrne). unfold b. destruct rootBase.
    - rewrite (Hroot eq_refl) in *. cbn [String.eqb app]. rewrite Hr.
      pose proof (Clean_rooted_join [] rel [] tail Hplain Hne (fun _ => eq_refl)
                    (or_introl eq_refl) Htail) as Hclean.
      cbn [rootedPath app] in Hclean. rewrite <- Hclean.
      unfold Clean. rewrite !list_ascii_of_string_app, !list_ascii_of_string_of_list_ascii.
      cbn [list_ascii_of_string app]. change (isSlash "/"%char) with true. cbv iota.
      rewrite cleanLoop_skip_slash.
      destruct rel as [|seg segs]; [congruence|]. cbn [rootedPath app].
      change (isSlash "/"%char) with true. cbv iota. now rewrite cleanLoop_skip_slash.
    - destruct base as [|seg segs].
      + cbn [rootedPath string_of_list_ascii String.eqb]. rewrite Hr.
        exact (Clean_rooted_join [] rel [] tail Hplain Hne (fun _ => eq_refl)
                 (or_introl eq_refl) Htail).
      + assert (String.eqb (string_of_list_ascii (rootedPath (seg :: segs))) "" = false) as ->
          by reflexivity.
        rewrite Hr.
        change (string_of_list_ascii (rootedPath (seg :: segs)) +:+ "/")
          with (string_of_list_ascii (rootedPath (seg :: segs)) +:+
                string_of_list_ascii ["/"%char]).
        rewrite <- !string_of_list_ascii_app, <- app_assoc.
        apply Clean_rooted_join; try assumption; [discriminate | now right]. }
  unfold composedPath. destruct (String.eqb_spec r "") as [?|_]; [congruence|].
  rewrite Hjoin. rewrite Hlast, endsInSeparator_snoc, Hc. cbn [negb]. rewrite andb_true_r.
  assert (endsInSeparator r = trailing) as ->.
  { rewrite Hr. unfold tail. destruct trailing.
    - apply endsInSeparator_snoc.
    - rewrite app_nil_r, Hrlast, endsInSeparator_snoc. exact Hrc. }
  unfold slash. destruct trailing; [reflexivity|].
  rewrite <- (string_of_list_ascii_of_string (_ +:+ "")).
  now rewrite list_ascii_of_string_app, app_nil_r, list_ascii_of_string_of_list_ascii.
Qed.

(* ===================================================================== *)
(** * Every call moves the world by steps *)
(* ===================================================================== *)

Section Advances.
Context `{RouteEnv}.

Lemma steps_trans (w1 w2 w3 : World) : steps w1 w2 -> steps w2 w3 -> steps w1 w3.
Proof.
  intros H12 H23. induction H23 as [|w3 w4 _ IH Hstep]; [exact H12|].
  exact (steps_snoc _ _ _ IH Hstep).
Qed.

Lemma steps_one (w w' : World) : step w w' -> steps w w'.
Proof. intros Hstep. exact (steps_snoc _ _ _ (steps_refl w) Hstep). Qed.

Lemma advances_bind {A B} (m : Prog World A) (k : A -> Prog World B) :
  advances m -> (forall a, advances (k a)) -> advances (m ≫= k).
Proof.
  intros Hm Hk w Hw. rewrite bind_run. destruct (Hm w Hw) as [Hs Hst].
  destruct (m w) as [[a|msg] w1]; cbn [snd] in *.
  - destruct (Hk a w1 Hs) as [Hs2 Hst2]. split; [exact Hs2|].
    exact (steps_trans _ _ _ Hst Hst2).
  - split; assumption.
Qed.

Lemma advances_stay {A} (m : Prog World A) : (forall w, (m w).2 = w) -> advances m.
Proof. intros Hm w Hw. rewrite Hm. split; [exact Hw | apply steps_refl]. Qed.

Lemma advances_ret {A} (a : A) : advances (mret a).
Proof. now apply advances_stay. Qed.

Lemma advances_panic {A} (msg : string) : advances (panic msg : Prog World A).
Proof. now apply advances_stay. Qed.

Lemma advances_returnObj (g : nat) : advances (returnObj g).
Proof.
  apply advances_stay. intros w. unfold returnObj. rewrite bind_run. unfold getGroup.
  destruct (groups w !! g) as [grp|]; [destruct (root grp)|]; reflexivity.
Qed.

(** The chain of a group after an allocation. *)
Lemma chainOf_alloc (w : World) (x : list HandlerFunc) (gs : list RouterGroup)
    (rs : list Route) (b : nat) (gb : RouterGroup) :
  worldOK w = true ->
  groups w !! b = Some gb ->
  gs !! b = Some gb ->
  chainOf (mkWorld (heap w ++ [x]) gs rs) b = chainOf w b.
Proof.
  intros Hw Hb Hb'. unfold chainOf. cbn [heap groups]. rewrite Hb, Hb'.
  apply sliceData_alloc, (worldOK_group _ _ _ Hw Hb).
Qed.

Lemma handle_advances (g : nat) (method p : string) (hs : list HandlerFunc) :
  advances (handle g method p hs).
Proof.
  intros w Hsep. pose proof Hsep as (Hw & Hgg & Hgr).
  destruct (groups w !! g) as [grp|] eqn:Hg;
    [|rewrite (handle_nil _ _ _ _ _ Hg); split; [exact Hsep | apply steps_refl]].
  pose proof (worldOK_group _ _ _ Hw Hg) as Hok.
  pose proof (sliceData_length _ _ Hok) as Hlen.
  rewrite (handle_run _ _ _ _ _ _ Hg Hok). cbv zeta.
  destruct (AbortIndex <=? _)%Z eqn:E; [split; [exact Hsep | apply steps_refl]|].
  apply Z.leb_gt in E. cbn [snd].
  set (n := len (Handlers grp) + length hs) in *.
  set (x := sliceData (heap w) (Handlers grp) ++ hs).
  assert (n = length x) as Hn by (unfold n, x; rewrite length_app; lia).
  set (r := mkRoute _ _ _ _).
  assert (worldOK (mkWorld (heap w ++ [x]) (groups w) (routes w ++ [r])) = true) as Hw'
    by (apply worldOK_alloc_route; [exact Hw | now apply sliceOK_new]).
  split; [split; [exact Hw'|split]|].
  - exact Hgg.
  - cbn [groups routes]. intros a ga r' Ha Hin Hcapa Hcapr.
    apply in_app_iff in Hin as [Hin|[<-|[]]]; [now apply (Hgr a ga r')|].
    unfold r. cbn [routeHandlers arr].
    pose proof (sliceOK_arr_allocated _ _ (worldOK_group _ _ _ Hw Ha) Hcapa). lia.
  - apply steps_one.
    apply (step_handle _ _ g grp method p (composedPath (basePath grp) p) hs).
    + exact Hg.
    + rewrite (chainOf_group _ _ _ Hg), Hlen. exact E.
    + apply joinPaths_composedPath.
    + reflexivity.
    + intros b. destruct (groups w !! b) as [gb|] eqn:Hb.
      * now apply (chainOf_alloc w x _ _ b gb).
      * unfold chainOf. cbn [groups]. now rewrite Hb.
    + unfold routeTable at 1. cbn [routes]. rewrite map_app.
      rewrite routeTable_alloc by exact Hw. f_equal.
      cbn [map]. unfold routeView. cbn [heap routeMethod routePath routeHandlers r].
      rewrite (chainOf_group _ _ _ Hg). now rewrite sliceData_new.
Qed.

Lemma Group_advances (g : nat) (p : string) (hs : list HandlerFunc) :
  advances (Group g p hs).
Proof.
  intros w Hsep. pose proof Hsep as (Hw & Hgg & Hgr).
  destruct (groups w !! g) as [grp|] eqn:Hg;
    [|rewrite (Group_nil _ _ _ _ Hg); split; [exact Hsep | apply steps_refl]].
  pose proof (worldOK_group _ _ _ Hw Hg) as Hok.
  pose proof (sliceData_length _ _ Hok) as Hlen.
  rewrite (Group_run _ _ _ _ _ Hg Hok). cbv zeta.
  destruct (AbortIndex <=? _)%Z eqn:E; [split; [exact Hsep | apply steps_refl]|].
  apply Z.leb_gt in E. cbn [snd].
  set (n := len (Handlers grp) + length hs) in *.
  set (x := sliceData (heap w) (Handlers grp) ++ hs).
  assert (n = length x) as Hn by (unfold n, x; rewrite length_app; lia).
  set (child := mkRouterGroup _ _ _ _).
  assert (worldOK (mkWorld (heap w ++ [x]) (groups w ++ [child]) (routes w)) = true) as Hw'
    by (apply worldOK_alloc_group; [exact Hw | now apply sliceOK_new]).
  assert (forall a ga, (groups w ++ [child]) !! a = Some ga ->
            cap (Handlers ga) <> 0 ->
            (groups w !! a = Some ga /\ arr (Handlers ga) < length (heap w)) \/
            (a = length (groups w) /\ arr (Handlers ga) = length (heap w))) as Hcases.
  { intros a ga Ha Hcap. apply lookup_app_Some in Ha as [Ha|[Hge Ha]].
    - left. split; [exact Ha|].
      exact (sliceOK_arr_allocated _ _ (worldOK_group _ _ _ Hw Ha) Hcap).
    - right. apply list_lookup_singleton_Some in Ha as [Hz <-].
      split; [lia | reflexivity]. }
  split; [split; [exact Hw'|split]|].
  - cbn [groups]. intros a b ga gb Hab Ha Hb Hcapa Hcapb.
    destruct (Hcases a ga Ha Hcapa) as [[Ha' Hla]|[Hea Hla]];
      destruct (Hcases b gb Hb Hcapb) as [[Hb' Hlb]|[Heb Hlb]]; try lia.
    now apply (Hgg a b ga gb).
  - cbn [groups routes]. intros a ga r Ha Hin Hcapa Hcapr.
    destruct (Hcases a ga Ha Hcapa) as [[Ha' Hla]|[Hea Hla]].
    + now apply (Hgr a ga r).
    + pose proof (sliceOK_arr_allocated _ _ (proj2 (worldOK_inv w Hw) r Hin) Hcapr). lia.
  - apply steps_one. apply (step_Group _ _ g grp child p hs).
    + exact Hg.
    + rewrite (chainOf_group _ _ _ Hg), Hlen. exact E.
    + apply joinPaths_composedPath.
    + reflexivity.
    + reflexivity.
    + reflexivity.
    + intros b Hb. apply lookup_lt_is_Some_2 in Hb as [gb Hb].
      apply (chainOf_alloc w x _ _ b gb Hw Hb). now apply lookup_app_l_Some.
    + unfold chainOf. cbn [heap groups].
      rewrite lookup_app_r by (apply Nat.le_refl). rewrite Nat.sub_diag.
      cbn [lookup list_lookup Handlers child]. rewrite Hg. now apply sliceData_new.
    + unfold routeTable. cbn [routes]. apply map_ext_in. intros r Hin.
      unfold routeView. cbn [heap]. f_equal.
      apply sliceData_alloc, (proj2 (worldOK_inv w Hw)), Hin.
Qed.

(** What [Use] on an existing group changes, chains being separated. *)
Lemma Use_changes (w : World) (g : nat) (grp : RouterGroup) (mw : list HandlerFunc) :
  separated w ->
  groups w !! g = Some grp ->
  separated (Use g mw w).2 /\
  groupIdentity <$> groups (Use g mw w).2 = groupIdentity <$> groups w /\
  chainOf (Use g mw w).2 g = chainOf w g ++ mw /\
  (forall b, b <> g -> chainOf (Use g mw w).2 b = chainOf w b) /\
  routeTable (Use g mw w).2 = routeTable w.
Proof.
  intros Hsep Hg. pose proof Hsep as (Hw & Hgg & Hgr).
  pose proof (worldOK_group _ _ _ Hw Hg) as Hok.
  destruct (Use_step w g grp mw Hw Hg) as (w1 & s1 & Hrun1 & Hw' & _ & Hchain & _).
  destruct (Use_spec w g grp mw Hw Hg) as (s' & h' & Hrun & Hok' & Hdata & Hkeep & Hframe & Harr).
  rewrite Hrun in Hrun1. injection Hrun1 as <-. rewrite Hrun. cbn [snd].
  set (gs' := alter _ g (groups w)) in *.
  assert (forall a ga, gs' !! a = Some ga ->
            cap (Handlers ga) <> 0 ->
            (a <> g /\ groups w !! a = Some ga) \/
            (a = g /\ Handlers ga = s')) as Hcases.
  { intros a ga Ha Hcap. unfold gs' in Ha. rewrite list_lookup_alter in Ha.
    destruct (decide (g = a)) as [<-|Hne].
    - right. rewrite Hg in Ha. simpl in Ha. injection Ha as <-. now split.
    - left. split; [congruence | exact Ha]. }
  assert (forall s0, sliceOK (heap w) s0 = true -> cap s0 <> 0 -> cap s' <> 0 ->
            (cap (Handlers grp) <> 0 -> arr s0 <> arr (Handlers grp)) ->
            arr s' <> arr s0) as Hnew.
  { intros s0 Hok0 Hcap0 Hcap' Hold.
    destruct (Harr Hcap') as [[-> Hcapg] | ->].
    - intros Heq. now apply (Hold Hcapg).
    - pose proof (sliceOK_arr_allocated _ _ Hok0 Hcap0). lia. }
  split; [split; [exact Hw'|split]|split; [|split; [exact Hchain|split]]].
  - cbn [groups]. intros a b ga gb Hab Ha Hb Hcapa Hcapb.
    destruct (Hcases a ga Ha Hcapa) as [[Hna Ha']|[-> Hsa]];
      destruct (Hcases b gb Hb Hcapb) as [[Hnb Hb']|[-> Hsb]]; try congruence.
    + now apply (Hgg a b ga gb).
    + rewrite Hsb in *. intros Heq. symmetry in Heq. revert Heq.
      apply Hnew; [exact (worldOK_group _ _ _ Hw Ha') | exact Hcapa | exact Hcapb |].
      intros Hcapg. now apply (Hgg a g ga grp).
    + rewrite Hsa in *.
      apply Hnew; [exact (worldOK_group _ _ _ Hw Hb') | exact Hcapb | exact Hcapa |].
      intros Hcapg. now apply (Hgg b g gb grp).
  - cbn [groups routes]. intros a ga r Ha Hin Hcapa Hcapr.
    destruct (Hcases a ga Ha Hcapa) as [[Hna Ha']|[-> Hsa]].
    + now apply (Hgr a ga r).
    + rewrite Hsa in *.
      apply Hnew; [exact (proj2 (worldOK_inv w Hw) r Hin) | exact Hcapr | exact Hcapa |].
      intros Hcapg Heq. now apply (Hgr g grp r).
  - cbn [groups]. unfold gs'. clear. revert g.
    induction (groups w) as [|g0 gs IH]; intros [|g]; cbn; try reflexivity.
    now rewrite IH.
  - intros b Hb. unfold chainOf. cbn [heap groups]. unfold gs'.
    rewrite list_lookup_alter_ne by congruence.
    destruct (groups w !! b) as [gb|] eqn:Hgb; [|reflexivity].
    apply Hframe; [exact (worldOK_group _ _ _ Hw Hgb)|].
    intros Hcapg Hcapb. now apply (Hgg b g gb grp).
  - unfold routeTable. cbn [routes]. apply map_ext_in. intros r Hin.
    unfold routeView. cbn [heap]. f_equal.
    apply Hframe; [exact (proj2 (worldOK_inv w Hw) r Hin)|].
    intros Hcapg Hcapr Heq. now apply (Hgr g grp r).
Qed.

Lemma Use_advances (g : nat) (mw : list HandlerFunc) : advances (Use g mw).
Proof.
  intros w Hsep.
  destruct (groups w !! g) as [grp|] eqn:Hg;
    [|rewrite (Use_nil _ _ _ Hg); split; [exact Hsep | apply steps_refl]].
  destruct (Use_changes w g grp mw Hsep Hg) as (Hsep' & Hid & Hchain & Hothers & Htable).
  split; [exact Hsep'|].
  apply steps_one. now apply (step_Use _ _ g grp mw).
Qed.

Lemma call_advances (cl : Call) : advances (call cl).
Proof.
  destruct cl as [g mw|g p hs|g m p hs|g p hs|g p f|g p fs]; cbn [call];
    (apply advances_bind; [|intros _; apply advances_ret]).
  - apply Use_advances.
  - apply Group_advances.
  - unfold Handle. destruct (negb _); [apply advances_panic | apply handle_advances].
  - unfold Any.
    repeat (apply advances_bind; [apply handle_advances | intros _]).
    apply advances_returnObj.
  - unfold StaticFile, GET, HEAD. destruct (_ || _); [apply advances_panic|].
    repeat (apply advances_bind; [apply handle_advances | intros _]).
    apply advances_returnObj.
  - unfold StaticFS, GET, HEAD. destruct (_ || _); [apply advances_panic|].
    repeat (apply advances_bind; [apply handle_advances | intros _]).
    apply advances_returnObj.
Qed.

Lemma runCalls_advances (cs : list Call) (w : World) :
  separated w -> separated (runCalls cs w) /\ steps w (runCalls cs w).
Proof.
  revert w. induction cs as [|cl cs IH]; intros w Hw; [split; [exact Hw | apply steps_refl]|].
  cbn [runCalls]. destruct (call_advances cl w Hw) as [Hs Hst].
  destruct (IH _ Hs) as [Hs' Hst']. split; [exact Hs'|].
  exact (steps_trans _ _ _ Hst Hst').
Qed.

Lemma runCalls_app (cs cs' : list Call) (w : World) :
  runCalls (cs ++ cs') w = runCalls cs' (runCalls cs w).
Proof. revert w. induction cs as [|cl cs IH]; intros w; [reflexivity | apply IH]. Qed.

Lemma newEngineWorld_separated : separated newEngineWorld.
Proof.
  split; [reflexivity|split].
  - intros a b ga gb Hab Ha Hb. cbn [newEngineWorld groups] in Ha, Hb.
    apply list_lookup_singleton_Some in Ha as [-> _].
    apply list_lookup_singleton_Some in Hb as [-> _]. congruence.
  - intros a ga r _ [].
Qed.

(** A new engine and everything reached from it. *)
Lemma reachable_advances (cs : list Call) :
  separated (runCalls cs newEngineWorld) /\ steps newEngineWorld (runCalls cs newEngineWorld).
Proof. apply runCalls_advances, newEngineWorld_separated. Qed.

End Advances.

(* ===================================================================== *)
(** * What holds in every world a program reaches *)
(* ===================================================================== *)

Section Reachable.
Context `{RouteEnv}.

(** The route table and the identities of the groups only grow. *)
Lemma steps_grow (w w' : World) :
  steps w w' ->
  (exists more, routeTable w' = routeTable w ++ more) /\
  (exists more, groupIdentity <$> groups w' = (groupIdentity <$> groups w) ++ more).
Proof.
  induction 1 as [|w1 w2 _ [[rs IHr] [gs IHg]] Hstep].
  - split; exists []; now rewrite app_nil_r.
  - destruct Hstep as [g grp m rp p hs _ _ _ Hgroups _ Htable
                      |g grp child rp hs _ _ _ _ _ Hgroups _ _ Htable
                      |g grp mw _ Hid _ _ Htable].
    + split; [eexists; rewrite Htable, IHr, <- app_assoc; reflexivity|].
      exists gs. now rewrite Hgroups.
    + split; [exists rs; now rewrite Htable|].
      eexists. rewrite Hgroups, fmap_app, IHg, <- app_assoc. reflexivity.
    + split; [exists rs; now rewrite Htable|].
      exists gs. now rewrite Hid.
Qed.

(** X9. A route once registered stays as it is: whatever a program calls
    later on the router ([Use] on the route's own group included), the
    route table keeps every entry with its method, its path and its
    handler chain, in the order of registration, and only grows at its
    end. *)
Theorem registered_routes_stay (before later : list Call) :
  exists more,
    routeTable (runCalls (before ++ later) newEngineWorld) =
    routeTable (runCalls before newEngineWorld) ++ more.
Proof.
  rewrite runCalls_app.
  destruct (reachable_advances before) as [Hsep _].
  destruct (runCalls_advances later _ Hsep) as [_ Hsteps].
  exact (proj1 (steps_grow _ _ Hsteps)).
Qed.

(** The groups are never fewer, and what a step does to one chain. *)
Lemma step_chain (w w' : World) (b : nat) :
  step w w' ->
  b < length (groups w) ->
  b < length (groups w') /\ exists more, chainOf w' b = chainOf w b ++ more.
Proof.
  intros Hstep Hb.
  destruct Hstep as [g grp m rp p hs _ _ _ Hgroups Hchains _
                    |g grp child rp hs _ _ _ _ _ Hgroups Hchains _ _
                    |g grp mw _ Hid Hchain Hothers _].
  - rewrite Hgroups. split; [exact Hb|]. exists []. now rewrite app_nil_r.
  - rewrite Hgroups, length_app. split; [lia|]. exists []. rewrite app_nil_r. now apply Hchains.
  - apply (f_equal length) in Hid. rewrite !length_fmap in Hid. split; [lia|].
    destruct (decide (b = g)) as [->|Hne].
    + now exists mw.
    + exists []. rewrite app_nil_r. now apply Hothers.
Qed.

Lemma steps_chain (w w' : World) (b : nat) :
  steps w w' ->
  b < length (groups w) ->
  b < length (groups w') /\ exists more, chainOf w' b = chainOf w b ++ more.
Proof.
  intros Hsteps Hb. induction Hsteps as [|w1 w2 _ [Hb1 [more IH]] Hstep].
  - split; [exact Hb|]. exists []. now rewrite app_nil_r.
  - destruct (step_chain _ _ b Hstep Hb1) as [Hb2 [more' Hc]].
    split; [exact Hb2|]. exists (more ++ more'). now rewrite Hc, IH, app_assoc.
Qed.

(** X10. The chain of a group only grows at its end: whatever a program
    calls later on the router, a group that exists keeps the handlers it has,
    in their order, at the front of its chain.  No call removes or reorders
    middleware. *)
Theorem group_chains_only_grow (before later : list Call) (g : nat) :
  g < length (groups (runCalls before newEngineWorld)) ->
  exists more,
    chainOf (runCalls (before ++ later) newEngineWorld) g =
    chainOf (runCalls before newEngineWorld) g ++ more.
Proof.
  intros Hg. rewrite runCalls_app.
  destruct (reachable_advances before) as [Hsep _].
  destruct (runCalls_advances later _ Hsep) as [_ Hsteps].
  exact (proj2 (steps_chain _ _ g Hsteps Hg)).
Qed.

(** A property of chains that every registration establishes holds of the
    whole route table. *)
Lemma steps_below (w w' : World) :
  steps w w' ->
  Forall (fun entry => (Z.of_nat (length entry.2) < AbortIndex)%Z) (routeTable w) ->
  Forall (fun entry => (Z.of_nat (length entry.2) < AbortIndex)%Z) (routeTable w').
Proof.
  intros Hsteps Hw. induction Hsteps as [|w1 w2 _ IH Hstep]; [exact Hw|].
  destruct Hstep as [g grp m rp p hs _ Hlim _ _ _ Htable
                    |g grp child rp hs _ _ _ _ _ _ _ _ Htable
                    |g grp mw _ _ _ _ Htable]; rewrite Htable; [|exact IH..].
  apply Forall_app. split; [exact IH|].
  apply Forall_cons. split; [|apply Forall_nil_2].
  cbn [snd]. now rewrite length_app.
Qed.

(** X11. Every registered route has a chain shorter than [AbortIndex]:
    in every world a program reaches from a new engine, by whatever calls
    (also [Use], which has no guard of its own, after or before the
    registration), each entry of the route table carries fewer handlers
    than the sentinel. *)
Theorem registered_chains_below_AbortIndex (calls : list Call) :
  Forall (fun entry => (Z.of_nat (length entry.2) < AbortIndex)%Z)
    (routeTable (runCalls calls newEngineWorld)).
Proof.
  destruct (reachable_advances calls) as [_ Hsteps].
  apply (steps_below _ _ Hsteps). apply Forall_nil_2.
Qed.

(** X12. [Use] reaches one group only: in every world a program reaches
    from a new engine, [Use] on group [a] leaves the chain of every other
    group [b] (parent, child or sibling) and the whole route table as they
    are.  Middleware added after a route was registered or a subgroup was
    created does not apply to them. *)
Theorem Use_reaches_one_group (calls : list Call) (a b : nat) (middleware : list HandlerFunc) :
  a <> b ->
  chainOf (Use a middleware (runCalls calls newEngineWorld)).2 b =
    chainOf (runCalls calls newEngineWorld) b /\
  routeTable (Use a middleware (runCalls calls newEngineWorld)).2 =
    routeTable (runCalls calls newEngineWorld).
Proof.
  intros Hab. destruct (reachable_advances calls) as [Hsep _].
  destruct (groups (runCalls calls newEngineWorld) !! a) as [ga|] eqn:Ha.
  - destruct (Use_changes _ a ga middleware Hsep Ha) as (_ & _ & _ & Hothers & Htable).
    split; [apply Hothers; congruence | exact Htable].
  - rewrite (Use_nil _ _ _ Ha). now split.
Qed.

(** The identity of a group in a later world. *)
Lemma steps_identity (w w' : World) (g : nat) (grp : RouterGroup) :
  steps w w' ->
  groups w !! g = Some grp ->
  exists grp', groups w' !! g = Some grp' /\ groupIdentity grp' = groupIdentity grp.
Proof.
  intros Hsteps Hg. destruct (proj2 (steps_grow _ _ Hsteps)) as [more Hid].
  apply (f_equal (fun l => l !! g)) in Hid.
  rewrite list_lookup_fmap in Hid.
  rewrite (lookup_app_l_Some _ _ g (groupIdentity grp)) in Hid
    by (now rewrite list_lookup_fmap, Hg).
  destruct (groups w' !! g) as [grp'|]; [|discriminate].
  exists grp'. split; [reflexivity|]. simpl in Hid. congruence.
Qed.

(** X13. The base path of a group never changes: what [BasePath] returns
    for a group in a world a program has reached, it returns in every
    world the program reaches later. *)
Theorem BasePath_never_changes (before later : list Call) (g : nat) (p : string) :
  (BasePath g (runCalls before newEngineWorld)).1 = Ret p ->
  (BasePath g (runCalls (before ++ later) newEngineWorld)).1 = Ret p.
Proof.
  rewrite runCalls_app. destruct (reachable_advances before) as [Hsep _].
  destruct (runCalls_advances later _ Hsep) as [_ Hsteps].
  unfold BasePath. rewrite !bind_run. unfold getGroup.
  destruct (groups (runCalls before newEngineWorld) !! g) as [grp|] eqn:Hg;
    [|discriminate].
  destruct (steps_identity _ _ g grp Hsteps Hg) as (grp' & -> & Hid).
  cbn. intros Hp. injection Hp as <-. unfold groupIdentity in Hid. congruence.
Qed.

(** On a new engine the root group is at address 0 and stays the only
    root; every group belongs to engine 0. *)
Lemma reachable_identities (calls : list Call) :
  exists rest,
    groupIdentity <$> groups (runCalls calls newEngineWorld) = ("/", 0, true) :: rest /\
    Forall (fun i => i.1.2 = 0 /\ i.2 = false) rest.
Proof.
  destruct (reachable_advances calls) as [_ Hsteps].
  induction Hsteps as [|w1 w2 _ (rest & IH & Hrest) Hstep].
  - exists []. split; [reflexivity | apply Forall_nil_2].
  - destruct Hstep as [g grp m rp p hs _ _ _ Hgroups _ _
                      |g grp child rp hs Hg _ _ Heng Hroot Hgroups _ _ _
                      |g grp mw _ Hid _ _ _].
    + exists rest. now rewrite Hgroups.
    + exists (rest ++ [groupIdentity child]). rewrite Hgroups, fmap_app, IH.
      split; [reflexivity|]. apply Forall_app. split; [exact Hrest|].
      apply Forall_cons. split; [|apply Forall_nil_2].
      unfold groupIdentity. cbn [fst snd]. split; [|exact Hroot].
      rewrite Heng.
      assert ((groupIdentity <$> groups w1) !! g = Some (groupIdentity grp)) as Hi
        by (now rewrite list_lookup_fmap, Hg).
      rewrite IH in Hi. destruct g as [|g]; cbn in Hi.
      * injection Hi as _ Hi _. now symmetry.
      * rewrite Forall_lookup in Hrest. now destruct (Hrest _ _ Hi).
    + exists rest. now rewrite Hid.
Qed.

(** X14. Which object the methods hand back for chaining: in every world
    a program reaches from a new engine, [returnObj] gives the engine for
    the root group (address 0) and the group itself for every other
    group, and that is what [Use] returns. *)
Theorem returnObj_engine_for_root_only (calls : list Call) (g : nat)
    (middleware : list HandlerFunc) :
  g < length (groups (runCalls calls newEngineWorld)) ->
  let w := runCalls calls newEngineWorld in
  let obj := if g =? 0 then TheEngine 0 else TheGroup g in
  returnObj g w = (Ret obj, w) /\
  (Use g middleware w).1 = Ret obj.
Proof.
  intros Hg w obj. destruct (reachable_advances calls) as [[Hw _] _].
  destruct (reachable_identities calls) as (rest & Hid & Hrest).
  apply lookup_lt_is_Some_2 in Hg as [grp Hgrp]. fold w in Hw, Hid, Hgrp.
  assert (obj = if root grp then TheEngine (engine grp) else TheGroup g) as ->.
  { assert ((groupIdentity <$> groups w) !! g = Some (groupIdentity grp)) as Hi
      by (now rewrite list_lookup_fmap, Hgrp).
    rewrite Hid in Hi. unfold obj. destruct g as [|g]; cbn in Hi.
    - injection Hi as _ <- <-. reflexivity.
    - rewrite Forall_lookup in Hrest. destruct (Hrest _ _ Hi) as [_ Hroot].
      cbn in Hroot. now rewrite Hroot. }
  split; [exact (returnObj_run _ _ _ Hgrp)|].
  destruct (Use_step w g grp middleware Hw Hgrp) as (w' & s' & -> & _). reflexivity.
Qed.

(** A first handler that all chains share stays the first handler. *)
Lemma steps_startsWith (h : HandlerFunc) (w w' : World) :
  steps w w' ->
  (forall g, g < length (groups w) -> startsWith h (chainOf w g)) ->
  Forall (fun entry => startsWith h entry.2) (routeTable w) ->
  (forall g, g < length (groups w') -> startsWith h (chainOf w' g)) /\
  Forall (fun entry => startsWith h entry.2) (routeTable w').
Proof.
  intros Hsteps Hgs Hrs. induction Hsteps as [|w1 w2 _ [IHg IHr] Hstep]; [now split|].
  assert (forall g grp more, groups w1 !! g = Some grp ->
            startsWith h (chainOf w1 g ++ more)) as Hfront.
  { intros g grp more Hg. destruct (IHg g (lookup_lt_Some _ _ _ Hg)) as [rest ->].
    now exists (rest ++ more). }
  destruct Hstep as [g grp m rp p hs Hg _ _ Hgroups Hchains Htable
                    |g grp child rp hs Hg _ _ _ _ Hgroups Hchains Hchild Htable
                    |g grp mw Hg Hid Hchain Hothers Htable]; rewrite Htable.
  - split.
    + intros b Hb. rewrite Hchains. apply IHg. now rewrite <- Hgroups.
    + apply Forall_app. split; [exact IHr|].
      apply Forall_cons. split; [|apply Forall_nil_2]. exact (Hfront g grp hs Hg).
  - split; [|exact IHr].
    intros b Hb. rewrite Hgroups, length_app in Hb. cbn [length] in Hb.
    destruct (decide (b = length (groups w1))) as [->|Hne].
    + rewrite Hchild. exact (Hfront g grp hs Hg).
    + rewrite Hchains by lia. apply IHg. lia.
  - split; [|exact IHr].
    apply (f_equal length) in Hid. rewrite !length_fmap in Hid.
    intros b Hb. destruct (decide (b = g)) as [->|Hne].
    + rewrite Hchain. exact (Hfront g grp mw Hg).
    + rewrite Hothers by exact Hne. apply IHg. lia.
Qed.

End Reachable.

Section DefaultServer.
Context `{RouteEnv} `{ServerEnv}.

(** X15. The recovery middleware of [Default] runs first everywhere: in
    every world a program reaches from the engine [Default] returns, each
    registered route and each group, whatever it was derived from, has the
    recovery handler as the first of its chain; and [Default] leaves the
    signal waiter unset. *)
Theorem Default_recovery_first (recovery : HandlerFunc) (opts : Options)
    (calls : list Call) :
  signalWaiter (Default recovery opts).1 = None /\
  Forall (fun entry => startsWith recovery entry.2)
    (routeTable (runCalls calls (Default recovery opts).2)) /\
  (forall g, g < length (groups (runCalls calls (Default recovery opts).2)) ->
     startsWith recovery (chainOf (runCalls calls (Default recovery opts).2) g)).
Proof.
  split; [reflexivity|]. unfold Default. cbn [snd].
  destruct (Use_changes newEngineWorld 0 _ [recovery] newEngineWorld_separated eq_refl)
    as (Hsep & Hid & Hchain & _ & Htable).
  destruct (runCalls_advances calls _ Hsep) as [_ Hsteps].
  destruct (steps_startsWith recovery _ _ Hsteps) as [Hgs Hrs].
  - apply (f_equal length) in Hid. rewrite !length_fmap in Hid.
    intros g Hg. rewrite Hid in Hg. cbn in Hg.
    assert (g = 0) as -> by lia. rewrite Hchain. now exists [].
  - rewrite Htable. apply Forall_nil_2.
  - split; [exact Hrs | exact Hgs].
Qed.

End DefaultServer.

(* ===================================================================== *)
(** * Registered paths are absolute *)
(* ===================================================================== *)

(** Going back over a [..] element in a rooted path keeps the leading
    slash: in reverse, the last byte stays. *)
Lemma backtrackRev_keeps_root (rout : list ascii) (dotdot : nat) :
  1 <= dotdot -> dotdot < length rout ->
  (exists r, rout = r ++ ["/"%char]) ->
  exists r', backtrackRev rout dotdot = r' ++ ["/"%char].
Proof.
  intros Hd. induction rout as [|c rout IH]; intros Hlen [r Hr]; [simpl in Hlen; lia|].
  cbn [length] in Hlen.
  assert (exists r0, rout = r0 ++ ["/"%char]) as Hrout.
  { destruct r as [|c0 r0]; injection Hr as -> ->; [simpl in Hlen; lia | now exists r0]. }
  cbn [backtrackRev].
  destruct ((dotdot <? length rout) && negb (isSlash c)) eqn:E; [|exact Hrout].
  apply andb_prop in E as [E _]. apply Nat.ltb_lt in E. now apply IH.
Qed.

Lemma backtrack_keeps_root (t : list ascii) :
  1 < length ("/"%char :: t) ->
  exists t', backtrack ("/"%char :: t) 1 = "/"%char :: t'.
Proof.
  intros Hlen. unfold backtrack.
  destruct (backtrackRev_keeps_root (rev ("/"%char :: t)) 1 (Nat.le_refl 1)) as [r' Hr'].
  - now rewrite length_rev.
  - exists (rev t). reflexivity.
  - rewrite Hr', rev_app_distr. now exists (rev r').
Qed.

(** The loop of [Clean] on a rooted path never writes before the root. *)
Lemma cleanLoop_keeps_root (n : nat) :
  forall rest t, length rest <= n ->
    (exists t', cleanLoop true rest ("/"%char :: t) 1 = "/"%char :: t') /\
    (exists t', copyElement true 1 rest ("/"%char :: t) = "/"%char :: t').
Proof.
  induction n as [|n IH]; intros rest t Hlen.
  - destruct rest; [|simpl in Hlen; lia]. split; now exists t.
  - destruct rest as [|c rest1]; [split; now exists t|].
    cbn [length] in Hlen. assert (length rest1 <= n) as Hlen1 by lia.
    assert (forall o, exists t', addSlashIfNeeded true ("/"%char :: o) ++ [c] = "/"%char :: t')
      as Hadd.
    { intros o. unfold addSlashIfNeeded. destruct (_ || _); cbn [app]; eauto. }
    split.
    + rewrite cleanLoop_cons.
      destruct (isSlash c); [apply IH, Hlen1|].
      destruct (isDot c && atElementEnd rest1); [apply IH, Hlen1|].
      destruct rest1 as [|c1 rest2].
      * destruct (Hadd t) as [t' ->]. apply IH. simpl. lia.
      * cbn [length] in Hlen1.
        destruct (isDot c && isDot c1 && atElementEnd rest2).
        -- destruct (1 <? length ("/"%char :: t)) eqn:E.
           ++ apply Nat.ltb_lt in E. destruct (backtrack_keeps_root t E) as [t' ->].
              apply IH. lia.
           ++ cbn [negb]. apply IH. lia.
        -- destruct (Hadd t) as [t' ->]. apply IH. simpl. lia.
    + cbn [copyElement]. destruct (isSlash c); [apply IH, Hlen1|].
      change ("/"%char :: t ++ [c]) with ("/"%char :: (t ++ [c])).
      apply (IH rest1 (t ++ [c]) Hlen1).
Qed.

Lemma Clean_absolute (p : string) : isAbsolute p = true -> isAbsolute (Clean p) = true.
Proof.
  destruct p as [|c p]; [discriminate|]. cbn [isAbsolute]. intros Hc.
  unfold Clean. cbn [list_ascii_of_string]. rewrite Hc.
  destruct (proj1 (cleanLoop_keeps_root _ (list_ascii_of_string p) [] (Nat.le_refl _)))
    as [t' ->].
  reflexivity.
Qed.

(** What [joinPaths] returns for an absolute base path is absolute. *)
Lemma joinPaths_absolute (b r path : string) :
  isAbsolute b = true -> joinPaths b r = Ret path -> isAbsolute path = true.
Proof.
  intros Hb. rewrite joinPaths_composedPath. intros Hp. injection Hp as <-.
  unfold composedPath. destruct (String.eqb_spec r "") as [->|Hr]; [exact Hb|].
  assert (isAbsolute (Join [b; r]) = true) as Hjoin.
  { rewrite (Join_two b r Hr). destruct b as [|c b]; [discriminate|].
    cbn [String.eqb]. apply Clean_absolute. exact Hb. }
  destruct (_ && _); [|exact Hjoin].
  destruct (Join [b; r]); [discriminate | exact Hjoin].
Qed.

Section AbsolutePaths.
Context `{RouteEnv}.

Lemma steps_absolute (w w' : World) :
  steps w w' ->
  Forall (fun i : string * nat * bool => isAbsolute i.1.1 = true) (groupIdentity <$> groups w) ->
  Forall (fun entry : string * string * list HandlerFunc => isAbsolute entry.1.2 = true)
    (routeTable w) ->
  Forall (fun i : string * nat * bool => isAbsolute i.1.1 = true) (groupIdentity <$> groups w') /\
  Forall (fun entry : string * string * list HandlerFunc => isAbsolute entry.1.2 = true)
    (routeTable w').
Proof.
  intros Hsteps Hgs Hrs. induction Hsteps as [|w1 w2 _ [IHg IHr] Hstep]; [now split|].
  assert (forall g grp, groups w1 !! g = Some grp -> isAbsolute (basePath grp) = true) as Hbase.
  { intros g grp Hg. rewrite Forall_lookup in IHg.
    apply (IHg g (groupIdentity grp)). now rewrite list_lookup_fmap, Hg. }
  destruct Hstep as [g grp m rp p hs Hg _ Hpath Hgroups _ Htable
                    |g grp child rp hs Hg _ Hpath _ _ Hgroups _ _ Htable
                    |g grp mw _ Hid _ _ Htable]; rewrite Htable.
  - rewrite Hgroups. split; [exact IHg|].
    apply Forall_app. split; [exact IHr|].
    apply Forall_cons_2; [|apply Forall_nil_2].
    exact (joinPaths_absolute _ _ _ (Hbase g grp Hg) Hpath).
  - split; [|exact IHr]. rewrite Hgroups, fmap_app.
    apply Forall_app. split; [exact IHg|].
    apply Forall_cons_2; [|apply Forall_nil_2].
    exact (joinPaths_absolute _ _ _ (Hbase g grp Hg) Hpath).
  - split; [|exact IHr]. now rewrite Hid.
Qed.

(** X18. Every registered path is absolute: in every world a program
    reaches from a new engine, whatever relative paths it passes (without
    a leading slash, with [.] or [..] elements, empty), the base path of
    every group and the path of every route in the table begin with a
    slash. *)
Theorem registered_paths_absolute (calls : list Call) :
  Forall (fun grp => isAbsolute (basePath grp) = true)
    (groups (runCalls calls newEngineWorld)) /\
  Forall (fun entry : string * string * list HandlerFunc => isAbsolute entry.1.2 = true)
    (routeTable (runCalls calls newEngineWorld)).
Proof.
  destruct (reachable_advances calls) as [_ Hsteps].
  destruct (steps_absolute _ _ Hsteps) as [Hgs Hrs].
  - apply Forall_cons_2; [reflexivity | apply Forall_nil_2].
  - apply Forall_nil_2.
  - split; [|exact Hrs]. rewrite Forall_fmap in Hgs. exact Hgs.
Qed.

End AbsolutePaths.

(* ===================================================================== *)
(** * The life cycle with any waiter *)
(* ===================================================================== *)

Section ServerMore.
Context `{ServerEnv}.

(** X16. A custom signal waiter decides alone: after
    [SetCustomSignalWaiter], [Spin] runs the given function in place of
    [waitSignal], so it subscribes to no signal itself; when the function
    returns an error [Spin] logs it and closes at once, when it returns
    nil [Spin] shuts down gracefully under the exit-wait timeout, and when
    it panics [Spin] panics with it and neither closes nor shuts down.
    The options are kept. *)
Theorem Spin_custom_waiter (h : Hertz) (f : Prog Process (option error)) (p p1 : Process) :
  let h' := SetCustomSignalWaiter h f in
  let started := withTrace p (trace p ++ spinStart) in
  options h' = options h /\
  (forall err,
     f started = (Ret err, p1) ->
     Spin h' p =
     (Ret tt,
      withTrace p1
        (trace p1 ++
         match err with
         | Some e => forcedPath e (closeResult p1)
         | None => gracefulPath (ExitWaitTimeout (options h)) (shutdownResult p1)
         end))) /\
  (forall err,
     f started = (Ret err, started) ->
     notified (actionsOf (Spin h') p) = []) /\
  (forall msg,
     f started = (Panic msg, p1) ->
     Spin h' p = (Panic msg, p1)).
Proof.
  intros h' started. split; [reflexivity|].
  assert (forall err q,
            f started = (Ret err, q) ->
            Spin h' p =
            (Ret tt,
             withTrace q
               (trace q ++
                match err with
                | Some e => forcedPath e (closeResult q)
                | None => gracefulPath (ExitWaitTimeout (options h)) (shutdownResult q)
                end))) as Hrun.
  { intros err q Hf. exact (Spin_after_wait h' p q err Hf). }
  split; [intros err; apply Hrun|]. split.
  - intros err Hf. unfold actionsOf. rewrite (Hrun err started Hf).
    unfold started, withTrace. cbn [snd trace closeResult shutdownResult].
    rewrite <- app_assoc, actions_added.
    unfold spinStart, forcedPath, gracefulPath.
    destruct err as [e|]; [destruct (closeResult p) | destruct (shutdownResult p)];
      reflexivity.
  - intros msg Hf.
    assert (default waitSignal (signalWaiter h') (withTrace p (trace p ++ spinStart))
            = (Panic msg, p1)) as Hwait by exact Hf.
    unfold Spin, initOnRunHooks, emit.
    rewrite !bind_run. cbn [ignored winner closeResult shutdownResult trace].
    unfold withTrace, spinStart in Hwait. rewrite <- !app_assoc. cbn [app].
    now rewrite Hwait.
Qed.


End ServerMore.

(* ===================================================================== *)
(** * The theorems at concrete inputs *)
(* ===================================================================== *)

Section Instances.
#[local] Existing Instance namedHandlers.
#[local] Existing Instance textErrors.

(** The root group of [authWorld]. *)
Lemma authWorld_root :
  groups authWorld !! 0 = Some (mkRouterGroup (mkSlice 0 0 1 1) "/" 0 true).
Proof. reflexivity. Qed.

(** C1 at [authWorld]: two nested groups, then a late [Use] on the root. *)
Lemma Group_chain_composition_witness :
  exists c1 c2 w1 w2,
    Group 0 "/api" ["loggingMW"] authWorld = (Ret c1, w1) /\
    Group c1 "/v1" ["metricsMW"] w1 = (Ret c2, w2) /\
    chainOf w2 c2 = ["authMW"; "loggingMW"; "metricsMW"] /\
    chainOf (Use 0 ["lateMW"] w2).2 c2 = ["authMW"; "loggingMW"; "metricsMW"].
Proof.
  destruct (proj1 Group_chain_composition authWorld 0 _ "/api" "/v1"
              ["loggingMW"] ["metricsMW"] eq_refl authWorld_root)
    as (c1 & c2 & w1 & w2 & child & H1 & H2 & H3 & _ & _ & _ & _ & Hg & _ & Huse & _).
  - vm_compute. reflexivity.
  - exists c1, c2, w1, w2. split; [exact H1|]. split; [exact H2|].
    split; [exact H3|]. apply Huse. exact Hg.
Defined.

(** The claim as stated fails for a group one handler short of the
    sentinel: [Group] with one middleware panics, so there is no chain. *)
Lemma Group_chain_counterexample :
  worldOK crowdedWorld = true /\
  length (chainOf crowdedWorld 0) = 62 /\
  Group 0 "/api" ["loggingMW"] crowdedWorld = (Panic "too many handlers", crowdedWorld).
Proof. vm_compute. auto. Qed.

(** C2 at base [/api]. *)
Lemma joinPaths_spec_witness :
  joinPaths "/api" "" = Ret "/api" /\
  joinPaths "/api" "/users/" = Ret "/api/users/" /\
  joinPaths "/api" "/users" = Ret "/api/users".
Proof.
  split; [reflexivity|]. split.
  - refine (proj1 (proj1 (proj2 (joinPaths_spec "/api" "/users/") _) _)).
    + discriminate.
    + split; reflexivity.
  - refine (proj2 (proj2 (joinPaths_spec "/api" "/users") _) _).
    + discriminate.
    + intros [Hf _]. discriminate Hf.
Defined.

(** C3 at [authWorld] with one more handler. *)
Lemma combineHandlers_limit_witness :
  exists merged w',
    combineHandlers 0 ["loggingMW"] authWorld = (Ret merged, w') /\
    sliceData (heap w') merged = ["authMW"; "loggingMW"] /\
    len merged = 2.
Proof.
  destruct (proj2 (proj2 (combineHandlers_limit authWorld 0 _ ["loggingMW"]
                            authWorld_root eq_refl)))
    as (merged & w' & Hrun & Hdata & Hlen & _).
  - vm_compute. reflexivity.
  - exists merged, w'. split; [exact Hrun|]. split; [exact Hdata | exact Hlen].
Defined.

(** C4 at [authWorld]. *)
Lemma Any_registers_witness :
  exists w',
    Any 0 "/x" ["h"] authWorld = (Ret (TheEngine 0), w') /\
    routeTable w' =
      map (fun method => (method, "/x", ["authMW"; "h"]))
        ["GET"; "POST"; "PUT"; "PATCH"; "HEAD"; "OPTIONS"; "DELETE"; "CONNECT"; "TRACE"].
Proof.
  destruct (Any_registers authWorld 0 _ "/x" ["h"] eq_refl authWorld_root)
    as (path & w' & Hpath & Hrun & _ & Htable).
  - vm_compute. reflexivity.
  - exists w'. split; [exact Hrun|].
    injection Hpath as <-. exact Htable.
Defined.

(** The claim as stated fails in [crowdedWorld]: [Any] with one handler
    panics at its first registration and registers nothing. *)
Lemma Any_registers_counterexample :
  Any 0 "/x" ["h"] crowdedWorld = (Panic "too many handlers", crowdedWorld) /\
  routes crowdedWorld = [].
Proof. vm_compute. auto. Qed.

(** C5 at an interrupt with a failing [Shutdown], and at a run error. *)
Lemma Spin_decision_witness :
  actionsOf (Spin (mkHertz (mkOptions 5000000000) None))
    (processWith (FromSignals SIGINT) None (Some "context deadline exceeded")) =
  [MakeErrCh; AppendOnRunHook; GoRun; SignalNotify [SIGINT; SIGHUP; SIGTERM];
   LogInfof "Received signal: %s\n";
   LogInfof "Begin graceful shutdown, wait at most num=%d seconds...";
   ContextWithTimeout 5000000000; EngineShutdown 5000000000;
   LogErrorf "Shutdown error=%v" "context deadline exceeded"; ContextCancel] /\
  actionsOf (Spin (mkHertz (mkOptions 5000000000) None))
    (processWith (FromErrCh (Some "listen: address already in use")) None None) =
  [MakeErrCh; AppendOnRunHook; GoRun; SignalNotify [SIGINT; SIGHUP; SIGTERM];
   LogErrorf "Receive close signal: error=%v" "listen: address already in use";
   EngineClose].
Proof.
  split.
  - exact (proj1 (proj1 (Spin_decision (mkOptions 5000000000)
                           (processWith (FromSignals SIGINT) None
                              (Some "context deadline exceeded")))
                    (or_introl eq_refl))).
  - exact (proj1 (proj2 (Spin_decision (mkOptions 5000000000)
                           (processWith (FromErrCh (Some "listen: address already in use"))
                              None None))
                    "listen: address already in use" (or_intror eq_refl))).
Defined.

(** C6 at a valid and at an invalid method. *)
Lemma Handle_method_check_witness :
  Handle 0 "get" "/x" ["h"] authWorld = (Panic "http method get is not valid", authWorld) /\
  Handle 0 "GET" "/x" ["h"] authWorld = handle 0 "GET" "/x" ["h"] authWorld.
Proof.
  split.
  - exact (proj1 (proj2 (Handle_method_check authWorld 0 "get" "/x" ["h"])) eq_refl).
  - exact (proj1 (proj2 (proj2 (Handle_method_check authWorld 0 "GET" "/x" ["h"]))) eq_refl).
Defined.

(** The claim as stated fails in [crowdedWorld]: the method is valid and
    [Handle] still panics. *)
Lemma Handle_method_check_counterexample :
  upperLetters "GET" = true /\
  Handle 0 "GET" "/x" ["h"] crowdedWorld = (Panic "too many handlers", crowdedWorld).
Proof. vm_compute. auto. Qed.

(** C7 at [authWorld]. *)
Lemma static_routes_witness :
  StaticFile 0 "/user/:id" "./index.html" authWorld =
    (Panic "URL parameters can not be used when serving a static file", authWorld) /\
  exists w',
    StaticFile 0 "/favicon.ico" "./favicon.ico" authWorld = (Ret (TheEngine 0), w') /\
    routeTable w' =
      [("GET", "/favicon.ico", ["authMW"; "file:./favicon.ico"]);
       ("HEAD", "/favicon.ico", ["authMW"; "file:./favicon.ico"])].
Proof.
  split.
  - exact (proj1 (proj1 (static_routes authWorld 0 _ "/user/:id" "./index.html" "" ""
                           eq_refl authWorld_root) eq_refl)).
  - destruct (proj2 (static_routes authWorld 0 _ "/favicon.ico" "./favicon.ico" "" ""
                       eq_refl authWorld_root) eq_refl)
      as (filePath & dirPath & Hpath & _ & (w' & Hrun & Htable) & _).
    + vm_compute. reflexivity.
    + exists w'. split; [exact Hrun|]. injection Hpath as <-. exact Htable.
Defined.

(** The claim as stated fails in [crowdedWorld]: the path has no reserved
    character and the three calls still panic, registering nothing. *)
Lemma static_routes_counterexample :
  hasReservedChar "/favicon.ico" = false /\
  StaticFile 0 "/favicon.ico" "./favicon.ico" crowdedWorld =
    (Panic "too many handlers", crowdedWorld) /\
  StaticFS 0 "/favicon.ico" "www" crowdedWorld = (Panic "too many handlers", crowdedWorld) /\
  Static 0 "/favicon.ico" "www" crowdedWorld = (Panic "too many handlers", crowdedWorld).
Proof. vm_compute. auto. Qed.

(** C8 at [authWorld] and the relative path [/static]. *)
Lemma StaticFS_pattern_witness :
  (exists w',
     StaticFS 0 "/static" "www" authWorld = (Ret (TheEngine 0), w') /\
     map fst (routeTable w') = [("GET", "/static/*filepath"); ("HEAD", "/static/*filepath")]) /\
  Join ["/static"; "/*filepath"] = "/static" +:+ "/*filepath".
Proof.
  pose proof (StaticFS_pattern authWorld 0 _ "/static" "www" "www"
                eq_refl authWorld_root eq_refl) as Hthm.
  destruct Hthm as ((mounted & w' & Hpath & Hrun & Htable) & _ & Hconcat).
  - vm_compute. reflexivity.
  - split.
    + exists w'. split; [exact Hrun|]. injection Hpath as <-. exact Htable.
    + apply (Hconcat [list_ascii_of_string "static"]); [discriminate | reflexivity | reflexivity].
Defined.

(** The claim as stated fails for a relative path that ends in a slash:
    the pattern mounted is the canonical join, not the concatenation. *)
Lemma StaticFS_pattern_counterexample :
  routeTable (StaticFS 0 "/static/" "www" newEngineWorld).2 =
    [("GET", "/static/*filepath", ["fs:www"]); ("HEAD", "/static/*filepath", ["fs:www"])] /\
  "/static/" +:+ "/*filepath" = "/static//*filepath" /\
  Join ["/static/"; "/*filepath"] <> "/static/" +:+ "/*filepath".
Proof. split; [reflexivity|]. split; [reflexivity|]. discriminate. Qed.

(** C10 at a run that returns nil at once. *)
Lemma Spin_run_returned_nil_witness :
  actionsOf (Spin (mkHertz (mkOptions 5000000000) None))
    (processWith (FromErrCh None) None None) =
  [MakeErrCh; AppendOnRunHook; GoRun; SignalNotify [SIGINT; SIGHUP; SIGTERM];
   LogInfof "Begin graceful shutdown, wait at most num=%d seconds...";
   ContextWithTimeout 5000000000; EngineShutdown 5000000000; ContextCancel].
Proof.
  exact (proj1 (proj2 (Spin_run_returned_nil (mkOptions 5000000000)
                         (processWith (FromErrCh None) None None) eq_refl))).
Defined.

End Instances.

(* ===================================================================== *)
(** * More theorems at concrete inputs *)
(* ===================================================================== *)

Section MoreInstances.
#[local] Existing Instance namedHandlers.
#[local] Existing Instance textErrors.

(** X1 at [authWorld]: two calls of [Use] on the root group. *)
Lemma Use_appends_witness :
  exists w1 w2,
    Use 0 ["loggingMW"] authWorld = (Ret (TheEngine 0), w1) /\
    chainOf w1 0 = ["authMW"; "loggingMW"] /\
    Use 0 ["metricsMW"] w1 = (Ret (TheEngine 0), w2) /\
    chainOf w2 0 = ["authMW"; "loggingMW"; "metricsMW"].
Proof.
  destruct (Use_appends authWorld 0 _ ["loggingMW"] ["metricsMW"] eq_refl authWorld_root)
    as (w1 & w2 & grp1 & H1 & _ & _ & Hc1 & _ & H2 & Hc2).
  exists w1, w2. split; [exact H1|]. split; [exact Hc1|]. split; [exact H2 | exact Hc2].
Defined.

(** X2 at [authWorld]: the group [/api]. *)
Lemma Group_base_path_witness :
  exists child w',
    Group 0 "/api" ["loggingMW"] authWorld = (Ret child, w') /\
    BasePath child w' = (Ret "/api", w') /\
    BasePath 0 w' = (Ret "/", w').
Proof.
  destruct (Group_base_path authWorld 0 _ "/api" ["loggingMW"] eq_refl authWorld_root)
    as (child & w' & path & Hrun & Hpath & Hchild & Hparent & _).
  - vm_compute. reflexivity.
  - exists child, w'. split; [exact Hrun|]. injection Hpath as <-.
    split; [exact Hchild | exact Hparent].
Defined.

(** X3 at [authWorld]: [PATCH]. *)
Lemma shortcut_registers_witness :
  PATCH 0 "/x" ["h"] authWorld = Handle 0 "PATCH" "/x" ["h"] authWorld /\
  exists w',
    PATCH 0 "/x" ["h"] authWorld = (Ret (TheEngine 0), w') /\
    routeTable w' = [("PATCH", "/x", ["authMW"; "h"])].
Proof.
  destruct (shortcut_registers authWorld 0 _ "/x" ["h"] eq_refl authWorld_root)
    as (path & Hpath & Hall).
  - vm_compute. reflexivity.
  - injection Hpath as <-.
    destruct (Forall_lookup_1 _ _ 3 _ Hall eq_refl) as (Hsame & w' & Hrun & Htable & _).
    split; [exact Hsame|]. exists w'. split; [exact Hrun | exact Htable].
Defined.

(** X4 in [crowdedWorld]: [Any] panics and leaves the world. *)
Lemma panic_changes_nothing_witness :
  (call (CallAny (H:=namedHandlers) 0 "/x" ["h"]) crowdedWorld).2 = crowdedWorld.
Proof.
  exact (panic_changes_nothing crowdedWorld (CallAny (H:=namedHandlers) 0 "/x" ["h"])
           "too many handlers" eq_refl eq_refl).
Defined.

(** X7 at the base paths [/api] and [/]. *)
Lemma joinPaths_concatenates_witness :
  joinPaths "/api" "/v1/users/" = Ret "/api/v1/users/" /\
  joinPaths "/" "/api" = Ret "/api".
Proof.
  split.
  - exact (joinPaths_concatenates [list_ascii_of_string "api"]
             [list_ascii_of_string "v1"; list_ascii_of_string "users"] false true
             eq_refl ltac:(discriminate) ltac:(discriminate)).
  - exact (joinPaths_concatenates [] [list_ascii_of_string "api"] true false
             eq_refl ltac:(discriminate) (fun _ => eq_refl)).
Defined.

(** X10: the group [/api] after a later [Use] on it. *)
Lemma group_chains_only_grow_witness :
  exists more,
    chainOf
      (runCalls
         ([CallUse (H:=namedHandlers) 0 ["authMW"];
           CallGroup (H:=namedHandlers) 0 "/api" ["loggingMW"]] ++
          [CallUse (H:=namedHandlers) 1 ["metricsMW"];
           CallHandle (H:=namedHandlers) 1 "GET" "/users" ["h"]])
         newEngineWorld) 1 =
    ["authMW"; "loggingMW"] ++ more.
Proof.
  apply (group_chains_only_grow
           [CallUse (H:=namedHandlers) 0 ["authMW"];
            CallGroup (H:=namedHandlers) 0 "/api" ["loggingMW"]]
           [CallUse (H:=namedHandlers) 1 ["metricsMW"];
            CallHandle (H:=namedHandlers) 1 "GET" "/users" ["h"]] 1).
  vm_compute. lia.
Defined.

(** X12: a late [Use] on the root group, after the group [/api] and its
    route exist. *)
Lemma Use_reaches_one_group_witness :
  let w := runCalls [CallUse (H:=namedHandlers) 0 ["authMW"];
                     CallGroup (H:=namedHandlers) 0 "/api" ["loggingMW"];
                     CallHandle (H:=namedHandlers) 1 "GET" "/users" ["h"]] newEngineWorld in
  chainOf (Use 0 ["lateMW"] w).2 1 = ["authMW"; "loggingMW"] /\
  routeTable (Use 0 ["lateMW"] w).2 = [("GET", "/api/users", ["authMW"; "loggingMW"; "h"])].
Proof.
  exact (Use_reaches_one_group
           [CallUse (H:=namedHandlers) 0 ["authMW"];
            CallGroup (H:=namedHandlers) 0 "/api" ["loggingMW"];
            CallHandle (H:=namedHandlers) 1 "GET" "/users" ["h"]] 0 1 ["lateMW"]
           ltac:(discriminate)).
Defined.

(** X13: the base path of [/api] after later calls on it. *)
Lemma BasePath_never_changes_witness :
  (BasePath 1
     (runCalls
        ([CallGroup (H:=namedHandlers) 0 "/api" []] ++
         [CallUse (H:=namedHandlers) 1 ["mw"]; CallGroup (H:=namedHandlers) 1 "/v1" []])
        newEngineWorld)).1 = Ret "/api".
Proof.
  exact (BasePath_never_changes [CallGroup (H:=namedHandlers) 0 "/api" []]
           [CallUse (H:=namedHandlers) 1 ["mw"]; CallGroup (H:=namedHandlers) 1 "/v1" []]
           1 "/api" eq_refl).
Defined.

(** X14: the group [/api] hands back itself, not the engine. *)
Lemma returnObj_engine_for_root_only_witness :
  let w := runCalls [CallGroup (H:=namedHandlers) 0 "/api" []] newEngineWorld in
  returnObj 1 w = (Ret (TheGroup 1), w) /\
  (Use 1 ["mw"] w).1 = Ret (TheGroup 1).
Proof.
  exact (returnObj_engine_for_root_only [CallGroup (H:=namedHandlers) 0 "/api" []] 1 ["mw"]
           ltac:(vm_compute; lia)).
Defined.

(** X16 with a waiter that returns an error at once. *)
Lemma Spin_custom_waiter_witness :
  actionsOf
    (Spin (SetCustomSignalWaiter (New (mkOptions 5000000000)) (fun p => (Ret (Some (NewPublic "stop")), p))))
    (processWith (FromErrCh None) None None) =
  [MakeErrCh; AppendOnRunHook; GoRun;
   LogErrorf "Receive close signal: error=%v" "stop"; EngineClose].
Proof.
  unfold actionsOf.
  rewrite (proj1 (proj2 (Spin_custom_waiter (New (mkOptions 5000000000))
                           (fun p => (Ret (Some (NewPublic "stop")), p)) (processWith (FromErrCh None) None None)
                           (withTrace (processWith (FromErrCh None) None None) spinStart)))
             (Some (NewPublic "stop")) eq_refl).
  reflexivity.
Defined.

End MoreInstances.
